(** * The command engine of LiftPlannerPro (src/CommandManager.h, src/CommandManager.cpp)

    A shallow embedding of [CADCommand], [CADCommandGroup] and [CommandManager]:
    the command objects, the two history stacks, the registry and the alias
    table, the tokenizer, the dispatcher and script execution, followed by the
    properties of the engine.

    Conventions of the embedding.
    - A [QString] is a string of 8-bit characters: the Latin-1 range of [QChar].
    - A [std::unique_ptr<T>] is an [option T]; [None] is the null pointer, and
      [std_move] leaves the source variable null, as the C++ standard
      guarantees for [unique_ptr].
    - Commands act on an abstract [World] (the document and everything else a
      command can touch, including a command object's own mutable state).  A
      call of a command method or of a factory returns, throws an exception
      derived from [std::exception], or throws an object of another type;
      every handler of the engine is [catch (const std::exception&)], so the
      last kind passes through all of them to the caller.
    - Qt signals are appended to a log of emitted signals; [qCWarning] output
      is appended to a log of warnings.  [qCDebug] tracing is left out.
    - Functions that can dereference a null pointer, let an exception
      through, or recurse without a bound, return an [Outcome]. *)

From Stdlib Require Import String Ascii List Bool Arith ZArith Lia.
From stdpp Require Import gmap strings sorting.
Import ListNotations.

Open Scope string_scope.
Open Scope list_scope.

(** ** QString *)

Abbreviation QString := string (only parsing).

Definition isEmpty (s : QString) : bool :=
  match s with EmptyString => true | String _ _ => false end.

(** [QChar::isSpace] on the Latin-1 range: U+0020, U+0009..U+000D, U+0085 and
    U+00A0. *)
Definition isSpace (c : ascii) : bool :=
  let n := nat_of_ascii c in
  (n =? 32)%nat || ((9 <=? n)%nat && (n <=? 13)%nat)
  || (n =? 133)%nat || (n =? 160)%nat.

(** [QChar::toLower] on the Latin-1 range: A..Z, and U+00C0..U+00DE except the
    multiplication sign U+00D7, move up by 32. *)
Definition toLower_char (c : ascii) : ascii :=
  let n := nat_of_ascii c in
  if ((65 <=? n)%nat && (n <=? 90)%nat)
     || ((192 <=? n)%nat && (n <=? 222)%nat && negb (n =? 215)%nat)
  then ascii_of_nat (n + 32) else c.

Fixpoint toLower (s : QString) : QString :=
  match s with
  | EmptyString => EmptyString
  | String c r => String (toLower_char c) (toLower r)
  end.

Fixpoint ltrim (s : QString) : QString :=
  match s with
  | EmptyString => EmptyString
  | String c r => if isSpace c then ltrim r else s
  end.

Fixpoint rtrim (s : QString) : QString :=
  match s with
  | EmptyString => EmptyString
  | String c r =>
      let r' := rtrim r in
      if isSpace c && isEmpty r' then EmptyString else String c r'
  end.

(** [QString::trimmed]: whitespace removed from both ends. *)
Definition trimmed (s : QString) : QString := rtrim (ltrim s).

(** [QString::startsWith(QChar)]. *)
Definition startsWith (c : ascii) (s : QString) : bool :=
  match s with
  | EmptyString => false
  | String d _ => Ascii.eqb d c
  end.

(** [QString::split(sep)]: the parts between separators, empty parts kept. *)
Fixpoint split_on (sep : ascii) (s : QString) (cur : QString) : list QString :=
  match s with
  | EmptyString => [cur]
  | String c r =>
      if Ascii.eqb c sep then cur :: split_on sep r EmptyString
      else split_on sep r (cur +:+ String c EmptyString)
  end.

(** [QString::split(sep, Qt::SkipEmptyParts)]. *)
Definition split_SkipEmptyParts (sep : ascii) (s : QString) : list QString :=
  List.filter (fun p => negb (isEmpty p)) (split_on sep s EmptyString).

Definition quote_char : ascii := "034"%char.
Definition newline_char : ascii := "010"%char.
Definition carriage_return : ascii := "013"%char.

(** ** CommandManager::parseCommandLine

    The loop over the characters of the line, with its three variables
    [parts], [current] and [inQuotes]; the code after the loop is the
    [EmptyString] case. *)
Fixpoint parse_loop (cs : QString) (parts : list QString) (current : QString)
    (inQuotes : bool) : list QString :=
  match cs with
  | EmptyString => if negb (isEmpty current) then parts ++ [current] else parts
  | String c r =>
      if Ascii.eqb c quote_char then parse_loop r parts current (negb inQuotes)
      else if isSpace c && negb inQuotes then
        if negb (isEmpty current)
        then parse_loop r (parts ++ [current]) EmptyString inQuotes
        else parse_loop r parts current inQuotes
      else parse_loop r parts (current +:+ String c EmptyString) inQuotes
  end.

Definition parseCommandLine (commandLine : QString) : list QString :=
  parse_loop commandLine [] EmptyString false.

(** ** Commands *)

(** How a call of a command method ends: it returns, it throws an exception
    derived from [std::exception] whose [what()] is [what], or it throws an
    object of a type that is not derived from [std::exception]. *)
Inductive Completion : Type :=
| Normal
| Threw (what : QString)
| ThrewOther.

(** [std::unique_ptr]: moving out of a variable hands over its value and
    leaves the variable null. *)
Definition std_move {A : Type} (p : option A) : option A * option A := (p, None).

Section Engine.

Context {World : Type}.

(** A concrete subclass of [CADCommand] other than the group: its virtual
    methods.  [a_redo] is [a_execute] unless the subclass overrides it;
    [a_canUndo] and [a_canRedo] are [true] unless overridden. *)
Record AtomicCommand : Type := {
  a_name : QString;
  a_canUndo : bool;
  a_canRedo : bool;
  a_execute : World -> World * Completion;
  a_undo : World -> World * Completion;
  a_redo : World -> World * Completion
}.

(** A command object is an atomic command or a [CADCommandGroup] with its
    [m_name] and its [m_commands] in insertion order.  The group's private
    flag [m_executed] is written by [execute], [undo] and [clear] and read by
    no method; it is not represented. *)
#[warnings="-register-all"]
Inductive CADCommand : Type :=
| Atomic (a : AtomicCommand)
| Group (m_name : QString) (m_commands : list CADCommand).

Definition cmd_name (c : CADCommand) : QString :=
  match c with
  | Atomic a => a_name a
  | Group n _ => n
  end.

(** [CADCommandGroup] does not override [canUndo] and [canRedo]. *)
Definition cmd_canUndo (c : CADCommand) : bool :=
  match c with
  | Atomic a => a_canUndo a
  | Group _ _ => true
  end.

Definition cmd_canRedo (c : CADCommand) : bool :=
  match c with
  | Atomic a => a_canRedo a
  | Group _ _ => true
  end.

(** Calls [f] on the members front to back; an exception leaves the loop. *)
Fixpoint run_forward (f : CADCommand -> World -> World * Completion)
    (l : list CADCommand) (w : World) : World * Completion :=
  match l with
  | [] => (w, Normal)
  | m :: l' =>
      match f m w with
      | (w', Normal) => run_forward f l' w'
      | (w', Threw e) => (w', Threw e)
      | (w', ThrewOther) => (w', ThrewOther)
      end
  end.

(** [CADCommand::execute]; for a group, the loop of
    [CADCommandGroup::execute]. *)
Fixpoint cmd_execute (c : CADCommand) (w : World) : World * Completion :=
  match c with
  | Atomic a => a_execute a w
  | Group _ ms =>
      (fix members (l : list CADCommand) (w : World) : World * Completion :=
         match l with
         | [] => (w, Normal)
         | m :: l' =>
             match cmd_execute m w with
             | (w', Normal) => members l' w'
             | (w', Threw e) => (w', Threw e)
             | (w', ThrewOther) => (w', ThrewOther)
             end
         end) ms w
  end.

(** [CADCommand::undo]; for a group, the loop of [CADCommandGroup::undo] from
    [rbegin] to [rend]: the members after [m] are undone before [m]. *)
Fixpoint cmd_undo (c : CADCommand) (w : World) : World * Completion :=
  match c with
  | Atomic a => a_undo a w
  | Group _ ms =>
      (fix members (l : list CADCommand) (w : World) : World * Completion :=
         match l with
         | [] => (w, Normal)
         | m :: l' =>
             match members l' w with
             | (w', Normal) => cmd_undo m w'
             | (w', Threw e) => (w', Threw e)
             | (w', ThrewOther) => (w', ThrewOther)
             end
         end) ms w
  end.

(** [CADCommand::redo]; [CADCommandGroup::redo] calls the group's
    [execute]. *)
Definition cmd_redo (c : CADCommand) (w : World) : World * Completion :=
  match c with
  | Atomic a => a_redo a w
  | Group _ _ => cmd_execute c w
  end.

(** [CADCommandGroup::addCommand]: a null pointer is not stored. *)
Definition addCommand (command : option CADCommand) (g : QString * list CADCommand)
    : QString * list CADCommand :=
  match command with
  | Some c => (fst g, snd g ++ [c])
  | None => g
  end.

(** ** The engine state *)

(** What a registered factory does with the argument list: it returns a
    pointer, it throws an exception derived from [std::exception], or it
    throws an object of another type. *)
Inductive FactoryResult : Type :=
| Made (command : option CADCommand)
| Raised (what : QString)
| RaisedOther.

Record CommandInfo : Type := {
  info_name : QString;
  info_help : QString;
  info_factory : list QString -> FactoryResult
}.

Inductive Signal : Type :=
| commandExecuted (command : QString)
| commandFailed (command : QString) (error : QString)
| undoAvailabilityChanged (available : bool)
| redoAvailabilityChanged (available : bool)
| historyChanged
| groupingChanged (grouping : bool).

(** The messages written with [qCWarning]. *)
Inductive Warning : Type :=
| CannotUndo
| CannotRedo
| UndoFailed (what : QString)
| RedoFailed (what : QString)
| AlreadyInGroup
| NotInGroup
| NoPreviousCommand
| FailedToCreate (name : QString) (what : QString)
| WarnError (error : QString)
| ScriptCommandFailed (line : QString).

(** The members of [CommandManager] that the embedded functions read or
    write, the world the commands act on, and the two logs.  Both stacks are
    lists whose head is the top of the [QStack]: [push], [top] and [pop] act
    on the head, and [QList::removeFirst], which drops the oldest entry,
    drops the last element. *)
Record CommandManager : Type := {
  m_undoStack : list CADCommand;
  m_redoStack : list CADCommand;
  m_commands : gmap string CommandInfo;
  m_aliases : gmap string string;
  m_currentGroup : option (QString * list CADCommand);
  m_recording : bool;
  m_recordedCommands : list QString;
  m_undoLimit : Z;
  m_commandEcho : bool;
  m_lastCommand : QString;
  m_commandInProgress : bool;
  world : World;
  signals : list Signal;
  warnings : list Warning
}.

(** Assignment to one member. *)
Definition set_m_undoStack (v : list CADCommand) (s : CommandManager) : CommandManager :=
  {| m_undoStack := v; m_redoStack := m_redoStack s; m_commands := m_commands s;
     m_aliases := m_aliases s; m_currentGroup := m_currentGroup s; m_recording :=
     m_recording s; m_recordedCommands := m_recordedCommands s; m_undoLimit :=
     m_undoLimit s; m_commandEcho := m_commandEcho s; m_lastCommand := m_lastCommand
     s; m_commandInProgress := m_commandInProgress s; world := world s; signals :=
     signals s; warnings := warnings s |}.

Definition set_m_redoStack (v : list CADCommand) (s : CommandManager) : CommandManager :=
  {| m_undoStack := m_undoStack s; m_redoStack := v; m_commands := m_commands s;
     m_aliases := m_aliases s; m_currentGroup := m_currentGroup s; m_recording :=
     m_recording s; m_recordedCommands := m_recordedCommands s; m_undoLimit :=
     m_undoLimit s; m_commandEcho := m_commandEcho s; m_lastCommand := m_lastCommand
     s; m_commandInProgress := m_commandInProgress s; world := world s; signals :=
     signals s; warnings := warnings s |}.

Definition set_m_commands (v : gmap string CommandInfo) (s : CommandManager) : CommandManager :=
  {| m_undoStack := m_undoStack s; m_redoStack := m_redoStack s; m_commands := v;
     m_aliases := m_aliases s; m_currentGroup := m_currentGroup s; m_recording :=
     m_recording s; m_recordedCommands := m_recordedCommands s; m_undoLimit :=
     m_undoLimit s; m_commandEcho := m_commandEcho s; m_lastCommand := m_lastCommand
     s; m_commandInProgress := m_commandInProgress s; world := world s; signals :=
     signals s; warnings := warnings s |}.

Definition set_m_aliases (v : gmap string string) (s : CommandManager) : CommandManager :=
  {| m_undoStack := m_undoStack s; m_redoStack := m_redoStack s; m_commands :=
     m_commands s; m_aliases := v; m_currentGroup := m_currentGroup s; m_recording
     := m_recording s; m_recordedCommands := m_recordedCommands s; m_undoLimit :=
     m_undoLimit s; m_commandEcho := m_commandEcho s; m_lastCommand := m_lastCommand
     s; m_commandInProgress := m_commandInProgress s; world := world s; signals :=
     signals s; warnings := warnings s |}.

Definition set_m_currentGroup (v : option (QString * list CADCommand)) (s : CommandManager) : CommandManager :=
  {| m_undoStack := m_undoStack s; m_redoStack := m_redoStack s; m_commands :=
     m_commands s; m_aliases := m_aliases s; m_currentGroup := v; m_recording :=
     m_recording s; m_recordedCommands := m_recordedCommands s; m_undoLimit :=
     m_undoLimit s; m_commandEcho := m_commandEcho s; m_lastCommand := m_lastCommand
     s; m_commandInProgress := m_commandInProgress s; world := world s; signals :=
     signals s; warnings := warnings s |}.

Definition set_m_recording (v : bool) (s : CommandManager) : CommandManager :=
  {| m_undoStack := m_undoStack s; m_redoStack := m_redoStack s; m_commands :=
     m_commands s; m_aliases := m_aliases s; m_currentGroup := m_currentGroup s;
     m_recording := v; m_recordedCommands := m_recordedCommands s; m_undoLimit :=
     m_undoLimit s; m_commandEcho := m_commandEcho s; m_lastCommand := m_lastCommand
     s; m_commandInProgress := m_commandInProgress s; world := world s; signals :=
     signals s; warnings := warnings s |}.

Definition set_m_recordedCommands (v : list QString) (s : CommandManager) : CommandManager :=
  {| m_undoStack := m_undoStack s; m_redoStack := m_redoStack s; m_commands :=
     m_commands s; m_aliases := m_aliases s; m_currentGroup := m_currentGroup s;
     m_recording := m_recording s; m_recordedCommands := v; m_undoLimit :=
     m_undoLimit s; m_commandEcho := m_commandEcho s; m_lastCommand := m_lastCommand
     s; m_commandInProgress := m_commandInProgress s; world := world s; signals :=
     signals s; warnings := warnings s |}.

Definition set_m_undoLimit (v : Z) (s : CommandManager) : CommandManager :=
  {| m_undoStack := m_undoStack s; m_redoStack := m_redoStack s; m_commands :=
     m_commands s; m_aliases := m_aliases s; m_currentGroup := m_currentGroup s;
     m_recording := m_recording s; m_recordedCommands := m_recordedCommands s;
     m_undoLimit := v; m_commandEcho := m_commandEcho s; m_lastCommand :=
     m_lastCommand s; m_commandInProgress := m_commandInProgress s; world := world
     s; signals := signals s; warnings := warnings s |}.


Definition set_m_lastCommand (v : QString) (s : CommandManager) : CommandManager :=
  {| m_undoStack := m_undoStack s; m_redoStack := m_redoStack s; m_commands :=
     m_commands s; m_aliases := m_aliases s; m_currentGroup := m_currentGroup s;
     m_recording := m_recording s; m_recordedCommands := m_recordedCommands s;
     m_undoLimit := m_undoLimit s; m_commandEcho := m_commandEcho s; m_lastCommand
     := v; m_commandInProgress := m_commandInProgress s; world := world s; signals
     := signals s; warnings := warnings s |}.

Definition set_m_commandInProgress (v : bool) (s : CommandManager) : CommandManager :=
  {| m_undoStack := m_undoStack s; m_redoStack := m_redoStack s; m_commands :=
     m_commands s; m_aliases := m_aliases s; m_currentGroup := m_currentGroup s;
     m_recording := m_recording s; m_recordedCommands := m_recordedCommands s;
     m_undoLimit := m_undoLimit s; m_commandEcho := m_commandEcho s; m_lastCommand
     := m_lastCommand s; m_commandInProgress := v; world := world s; signals :=
     signals s; warnings := warnings s |}.

Definition set_world (v : World) (s : CommandManager) : CommandManager :=
  {| m_undoStack := m_undoStack s; m_redoStack := m_redoStack s; m_commands :=
     m_commands s; m_aliases := m_aliases s; m_currentGroup := m_currentGroup s;
     m_recording := m_recording s; m_recordedCommands := m_recordedCommands s;
     m_undoLimit := m_undoLimit s; m_commandEcho := m_commandEcho s; m_lastCommand
     := m_lastCommand s; m_commandInProgress := m_commandInProgress s; world := v;
     signals := signals s; warnings := warnings s |}.

Definition set_signals (v : list Signal) (s : CommandManager) : CommandManager :=
  {| m_undoStack := m_undoStack s; m_redoStack := m_redoStack s; m_commands :=
     m_commands s; m_aliases := m_aliases s; m_currentGroup := m_currentGroup s;
     m_recording := m_recording s; m_recordedCommands := m_recordedCommands s;
     m_undoLimit := m_undoLimit s; m_commandEcho := m_commandEcho s; m_lastCommand
     := m_lastCommand s; m_commandInProgress := m_commandInProgress s; world :=
     world s; signals := v; warnings := warnings s |}.

Definition set_warnings (v : list Warning) (s : CommandManager) : CommandManager :=
  {| m_undoStack := m_undoStack s; m_redoStack := m_redoStack s; m_commands :=
     m_commands s; m_aliases := m_aliases s; m_currentGroup := m_currentGroup s;
     m_recording := m_recording s; m_recordedCommands := m_recordedCommands s;
     m_undoLimit := m_undoLimit s; m_commandEcho := m_commandEcho s; m_lastCommand
     := m_lastCommand s; m_commandInProgress := m_commandInProgress s; world :=
     world s; signals := signals s; warnings := v |}.

Definition emit (sig : Signal) (s : CommandManager) : CommandManager :=
  set_signals (signals s ++ [sig]) s.

Definition warn (msg : Warning) (s : CommandManager) : CommandManager :=
  set_warnings (warnings s ++ [msg]) s.

(** ** How a call ends

    Each outcome carries the engine state at the moment control leaves the
    call.
    - [Returned a s]: the call returns [a].
    - [Propagated s]: the call is left by an exception that no handler on
      the way catches, an object of a type not derived from
      [std::exception]; it reaches the caller, and the statements after the
      throwing call are not executed.
    - [Faulted s]: the call dereferences a null pointer (undefined behaviour
      in C++); nothing after that point is executed.
    - [OutOfFuel s]: the recursion between [executeCommand] and
      [repeatLastCommand] went deeper than the bound given to the
      embedding. *)
Inductive Outcome (A : Type) : Type :=
| Returned (a : A) (s : CommandManager)
| Propagated (s : CommandManager)
| Faulted (s : CommandManager)
| OutOfFuel (s : CommandManager).

Arguments Returned {A} a s.
Arguments Propagated {A} s.
Arguments Faulted {A} s.
Arguments OutOfFuel {A} s.

Definition state_of {A : Type} (o : Outcome A) : CommandManager :=
  match o with
  | Returned _ s => s
  | Propagated s => s
  | Faulted s => s
  | OutOfFuel s => s
  end.

Definition bind {A B : Type} (o : Outcome A) (k : A -> CommandManager -> Outcome B)
    : Outcome B :=
  match o with
  | Returned a s => k a s
  | Propagated s => Propagated s
  | Faulted s => Faulted s
  | OutOfFuel s => OutOfFuel s
  end.

(** ** History *)

Definition canUndo (s : CommandManager) : bool :=
  negb (match m_undoStack s with [] => true | _ :: _ => false end).

Definition canRedo (s : CommandManager) : bool :=
  negb (match m_redoStack s with [] => true | _ :: _ => false end).

Definition updateUndoRedoState (s : CommandManager) : CommandManager :=
  let canUndoNow := canUndo s in
  let canRedoNow := canRedo s in
  emit (redoAvailabilityChanged canRedoNow)
    (emit (undoAvailabilityChanged canUndoNow) s).

(** The loop of [trimHistory]; [n] bounds the number of rounds, and the
    length of the stack is enough: each round removes one entry.  (With an
    empty stack and a negative limit the source would call [removeFirst] on
    an empty list; [m_undoLimit] is 100 at construction and [setUndoLimit]
    keeps it at 1 or more.) *)
Fixpoint trim_loop (n : nat) (st : list CADCommand) (limit : Z) : list CADCommand :=
  match n with
  | O => st
  | S n' =>
      if (Z.of_nat (length st) >? limit)%Z
      then trim_loop n' (removelast st) limit
      else st
  end.

Definition trimHistory (s : CommandManager) : CommandManager :=
  set_m_undoStack
    (trim_loop (length (m_undoStack s)) (m_undoStack s) (m_undoLimit s)) s.

Definition addToHistory (command : option CADCommand) (s : CommandManager)
    : CommandManager :=
  match command with
  | None => s
  | Some c =>
      if negb (cmd_canUndo c) then s
      else
        let s := set_m_redoStack [] s in
        let s := set_m_undoStack (c :: m_undoStack s) s in
        let s := trimHistory s in
        let s := updateUndoRedoState s in
        emit historyChanged s
  end.

(** [CommandManager::undo].  The top entry is moved into the local variable
    [command] and popped before the [try] block.  The handler catches a
    [std::exception] and pushes the command back; an object of another type
    is not caught: it leaves the function, and the local [command] is
    destroyed with the command it holds. *)
Definition undo_call (s : CommandManager) : Outcome unit :=
  if negb (canUndo s) then Returned tt (warn CannotUndo s)
  else
    match m_undoStack s with
    | [] => Returned tt s
    | command :: rest =>
        let s := set_m_undoStack rest s in
        match cmd_undo command (world s) with
        | (w, Normal) =>
            let s := set_world w s in
            let s := set_m_redoStack (command :: m_redoStack s) s in
            let s := updateUndoRedoState s in
            Returned tt (emit historyChanged s)
        | (w, Threw what) =>
            let s := set_world w s in
            let s := warn (UndoFailed what) s in
            Returned tt (set_m_undoStack (command :: m_undoStack s) s)
        | (w, ThrewOther) =>
            Propagated (set_world w s)
        end
    end.

(** [CommandManager::redo], which mirrors [undo]. *)
Definition redo_call (s : CommandManager) : Outcome unit :=
  if negb (canRedo s) then Returned tt (warn CannotRedo s)
  else
    match m_redoStack s with
    | [] => Returned tt s
    | command :: rest =>
        let s := set_m_redoStack rest s in
        match cmd_redo command (world s) with
        | (w, Normal) =>
            let s := set_world w s in
            let s := set_m_undoStack (command :: m_undoStack s) s in
            let s := updateUndoRedoState s in
            Returned tt (emit historyChanged s)
        | (w, Threw what) =>
            let s := set_world w s in
            let s := warn (RedoFailed what) s in
            Returned tt (set_m_redoStack (command :: m_redoStack s) s)
        | (w, ThrewOther) =>
            Propagated (set_world w s)
        end
    end.

(** The engine state when control leaves [undo()], and [redo()], whether
    the call returns or lets an exception through. *)
Definition undo (s : CommandManager) : CommandManager := state_of (undo_call s).

Definition redo (s : CommandManager) : CommandManager := state_of (redo_call s).


Definition setUndoLimit (limit : Z) (s : CommandManager) : CommandManager :=
  trimHistory (set_m_undoLimit (Z.max 1 limit) s).

(** ** Grouping *)

Definition endGroup (s : CommandManager) : CommandManager :=
  match m_currentGroup s with
  | None => warn NotInGroup s
  | Some (name, members) =>
      let s :=
        if negb (match members with [] => true | _ :: _ => false end)
        then addToHistory (Some (Group name members)) (set_m_currentGroup None s)
        else s in
      let s := set_m_currentGroup None s in
      emit (groupingChanged false) s
  end.

Definition beginGroup (groupName : QString) (s : CommandManager) : CommandManager :=
  let s :=
    match m_currentGroup s with
    | Some _ => endGroup (warn AlreadyInGroup s)
    | None => s
    end in
  let s := set_m_currentGroup (Some (groupName, [])) s in
  emit (groupingChanged true) s.

(** ** Registry and aliases *)

Definition registerCommand (name : QString)
    (factory : list QString -> FactoryResult) (s : CommandManager) : CommandManager :=
  let info := {| info_name := name; info_help := EmptyString; info_factory := factory |} in
  set_m_commands (<[toLower name := info]> (m_commands s)) s.

Definition registerBuiltinCommand (name help : QString)
    (factory : list QString -> FactoryResult) (s : CommandManager) : CommandManager :=
  let info := {| info_name := name; info_help := help; info_factory := factory |} in
  set_m_commands (<[toLower name := info]> (m_commands s)) s.

Definition registerAlias (alias command : QString) (s : CommandManager)
    : CommandManager :=
  set_m_aliases (<[toLower alias := toLower command]> (m_aliases s)) s.

Definition unregisterCommand (name : QString) (s : CommandManager) : CommandManager :=
  set_m_commands (delete (toLower name) (m_commands s)) s.

Definition unregisterAlias (alias : QString) (s : CommandManager) : CommandManager :=
  set_m_aliases (delete (toLower alias) (m_aliases s)) s.

Definition resolveAlias (s : CommandManager) (command : QString) : QString :=
  match m_aliases s !! toLower command with
  | Some target => target
  | None => toLower command
  end.

(** [createCommand]: the pointer it returns, with the warning it writes
    when the factory throws a [std::exception].  What else the factory
    throws is not caught. *)
Definition createCommand (name : QString) (args : list QString) (s : CommandManager)
    : Outcome (option CADCommand) :=
  match m_commands s !! toLower name with
  | Some info =>
      match info_factory info args with
      | Made command => Returned command s
      | Raised what => Returned None (warn (FailedToCreate name what) s)
      | RaisedOther => Propagated s
      end
  | None => Returned None s
  end.

(** The three built-in factories are stubs that return a null pointer. *)
Definition initializeBuiltinCommands (s : CommandManager) : CommandManager :=
  let s := registerBuiltinCommand "line" "Draw a line" (fun _ => Made None) s in
  let s := registerBuiltinCommand "circle" "Draw a circle" (fun _ => Made None) s in
  let s := registerBuiltinCommand "rectangle" "Draw a rectangle" (fun _ => Made None) s in
  let s := registerAlias "l" "line" s in
  let s := registerAlias "c" "circle" s in
  let s := registerAlias "rec" "rectangle" s in
  let s := registerAlias "rect" "rectangle" s in
  let s := registerAlias "u" "undo" s in
  let s := registerAlias "z" "zoom" s in
  registerAlias "p" "pan" s.

(** The constructor, for a session on the world [w]. *)
Definition CommandManager_new (w : World) : CommandManager :=
  initializeBuiltinCommands
    {| m_undoStack := []; m_redoStack := []; m_commands := ∅; m_aliases := ∅;
       m_currentGroup := None; m_recording := false; m_recordedCommands := [];
       m_undoLimit := 100; m_commandEcho := true; m_lastCommand := EmptyString;
       m_commandInProgress := false; world := w; signals := []; warnings := [] |}.

(** ** Dispatch *)

(** [p->name()]: a value when [p] holds a command, nothing when [p] is
    null. *)
Definition arrow_name (p : option CADCommand) : option QString :=
  match p with
  | Some c => Some (cmd_name c)
  | None => None
  end.

Definition execution_failed (what : QString) : QString :=
  "Command execution failed: " +:+ what.

Definition unknown_command (commandName : QString) : QString :=
  "Unknown command: " +:+ commandName.

(** [executeCommand(std::unique_ptr<CADCommand>)].  In the [try] block the
    pointer is moved into [addCommand] or [addToHistory], both of which take
    their parameter by value, and the next statement calls [name()] through
    the moved-from variable.  When [execute()] throws an object that is not
    a [std::exception], the handler is passed by: [m_commandInProgress]
    stays [true], no signal is emitted, and the command is destroyed with
    the parameter. *)
Definition executeCommand_cmd (command : option CADCommand) (s : CommandManager)
    : Outcome bool :=
  match command with
  | None => Returned false s
  | Some c =>
      let s := set_m_commandInProgress true s in
      match cmd_execute c (world s) with
      | (w, Normal) =>
          let s := set_world w s in
          let s := set_m_commandInProgress false s in
          let '(arg, command) := std_move command in
          let s :=
            match m_currentGroup s with
            | Some g => set_m_currentGroup (Some (addCommand arg g)) s
            | None => addToHistory arg s
            end in
          match arrow_name command with
          | Some n => Returned true (set_m_lastCommand n s)
          | None => Faulted s
          end
      | (w, Threw what) =>
          let s := set_world w s in
          let s := set_m_commandInProgress false s in
          let error := execution_failed what in
          let s := warn (WarnError error) s in
          let s := emit (commandFailed (cmd_name c) error) s in
          Returned false s
      | (w, ThrewOther) =>
          Propagated (set_world w s)
      end
  end.

(** [repeatLastCommand], with the call of [executeCommand(m_lastCommand)]
    passed in as [exec]. *)
Definition repeatLastCommand_with (exec : QString -> CommandManager -> Outcome bool)
    (s : CommandManager) : Outcome unit :=
  if isEmpty (m_lastCommand s) then Returned tt (warn NoPreviousCommand s)
  else bind (exec (m_lastCommand s) s) (fun _ s' => Returned tt s').

(** [executeCommand(const QString&)].  [fuel] bounds the depth of the
    recursion through [repeatLastCommand].  The calls of [undo()], [redo()]
    and [repeatLastCommand()] stand outside the [try] block.  The [catch]
    after it is never entered: a [std::exception] from a factory is caught
    in [createCommand] and one from [execute()] in [executeCommand_cmd],
    and an object of another type is not caught here either. *)
Fixpoint executeCommand (fuel : nat) (commandLine : QString) (s : CommandManager)
    : Outcome bool :=
  match fuel with
  | O => OutOfFuel s
  | S fuel' =>
      if isEmpty (trimmed commandLine) then Returned false s
      else
        let s := if m_commandEcho s then emit (commandExecuted commandLine) s else s in
        let s :=
          if m_recording s
          then set_m_recordedCommands (m_recordedCommands s ++ [commandLine]) s
          else s in
        match parseCommandLine commandLine with
        | [] => Returned false s
        | first :: args =>
            let commandName := toLower first in
            let commandName := resolveAlias s commandName in
            if String.eqb commandName "u" || String.eqb commandName "undo"
            then bind (undo_call s) (fun _ s' => Returned true s')
            else if String.eqb commandName "redo"
            then bind (redo_call s) (fun _ s' => Returned true s')
            else if String.eqb commandName "repeat" || isEmpty commandName
            then bind (repeatLastCommand_with (executeCommand fuel') s)
                      (fun _ s' => Returned true s')
            else
              bind (createCommand commandName args s) (fun command s =>
                match command with
                | Some c => executeCommand_cmd (Some c) s
                | None =>
                    let error := unknown_command commandName in
                    let s := warn (WarnError error) s in
                    let s := emit (commandFailed commandLine error) s in
                    Returned false s
                end)
        end
  end.

Definition repeatLastCommand (fuel : nat) (s : CommandManager) : Outcome unit :=
  repeatLastCommand_with (executeCommand fuel) s.

(** ** Scripts *)

(** The [for] loop of [executeScriptText] with its variable [success]. *)
Fixpoint script_loop (fuel : nat) (lines : list QString) (success : bool)
    (s : CommandManager) : Outcome bool :=
  match lines with
  | [] => Returned success s
  | line :: rest =>
      let trimmedLine := trimmed line in
      if isEmpty trimmedLine || startsWith ";" trimmedLine || startsWith "#" trimmedLine
      then script_loop fuel rest success s
      else
        bind (executeCommand fuel trimmedLine s) (fun ok s =>
          if negb ok
          then script_loop fuel rest false (warn (ScriptCommandFailed trimmedLine) s)
          else script_loop fuel rest success s)
  end.

Definition executeScriptText (fuel : nat) (scriptText : QString) (s : CommandManager)
    : Outcome bool :=
  let lines := split_SkipEmptyParts newline_char scriptText in
  let s := beginGroup "Script Execution" s in
  bind (script_loop fuel lines true s) (fun success s =>
    Returned success (endGroup s)).

End Engine.

Arguments AtomicCommand World : clear implicits.
Arguments CADCommand World : clear implicits.
Arguments FactoryResult World : clear implicits.
Arguments CommandInfo World : clear implicits.
Arguments CommandManager World : clear implicits.
Arguments Outcome World A : clear implicits.
Arguments Returned {World A} a s.
Arguments Propagated {World A} s.
Arguments Faulted {World A} s.
Arguments OutOfFuel {World A} s.

(** ** Sample commands and engines

    Commands on a world that is the trace of the calls made so far. *)
Module Sample.

Definition Trace : Type := list QString.

Definition log_call (entry : QString) (w : Trace) : Trace * Completion :=
  (w ++ [entry], Normal).

Definition log_throw (entry what : QString) (w : Trace) : Trace * Completion :=
  (w ++ [entry], Threw what).

Definition log_throw_other (entry : QString) (w : Trace) : Trace * Completion :=
  (w ++ [entry], ThrewOther).

(** A command whose three methods return normally. *)
Definition logging_command (name : QString) (undoable : bool) : CADCommand Trace :=
  Atomic {| a_name := name; a_canUndo := undoable; a_canRedo := true;
            a_execute := log_call (name +:+ ".execute");
            a_undo := log_call (name +:+ ".undo");
            a_redo := log_call (name +:+ ".redo") |}.

(** A command that executes, and throws from [undo] and from [redo]. *)
Definition stuck_command (name : QString) : CADCommand Trace :=
  Atomic {| a_name := name; a_canUndo := true; a_canRedo := true;
            a_execute := log_call (name +:+ ".execute");
            a_undo := log_throw (name +:+ ".undo") "undo refused";
            a_redo := log_throw (name +:+ ".redo") "redo refused" |}.

(** A command that executes, and throws an object that is not a
    [std::exception] from [undo] and from [redo]. *)
Definition wild_command (name : QString) : CADCommand Trace :=
  Atomic {| a_name := name; a_canUndo := true; a_canRedo := true;
            a_execute := log_call (name +:+ ".execute");
            a_undo := log_throw_other (name +:+ ".undo");
            a_redo := log_throw_other (name +:+ ".redo") |}.

(** The engine as the constructor leaves it. *)
Definition fresh : CommandManager Trace := CommandManager_new [].

(** The engine with a working factory registered under the name [move]. *)
Definition with_move : CommandManager Trace :=
  registerCommand "Move" (fun _ => Made (Some (logging_command "move" true))) fresh.

(** The engine with a factory under the name [frob] that always throws. *)
Definition with_throwing_frob : CommandManager Trace :=
  registerCommand "frob" (fun _ => Raised "bad arguments") fresh.

(** The engine with a factory under the name [frob] that always throws an
    object that is not a [std::exception]. *)
Definition with_wild_frob : CommandManager Trace :=
  registerCommand "frob" (fun _ => RaisedOther) fresh.

Definition script_of (lines : list QString) : QString :=
  String.concat (String newline_char EmptyString) lines.

End Sample.

(** ** Notions used in the statements *)

(** The state in which [executeCommand] tokenizes the line: the echo signal
    has been emitted when echo is on, and the line has been recorded when a
    recording is active. *)
Definition announced {World : Type} (commandLine : QString) (s : CommandManager World)
    : CommandManager World :=
  let s := if m_commandEcho s then emit (commandExecuted commandLine) s else s in
  if m_recording s
  then set_m_recordedCommands (m_recordedCommands s ++ [commandLine]) s
  else s.

(** The state after [command->execute()] has returned normally and left the
    world [w]: the progress flag was set and cleared around the call. *)
Definition executed {World : Type} (w : World) (s : CommandManager World)
    : CommandManager World :=
  set_m_commandInProgress false (set_world w (set_m_commandInProgress true s)).

(** What [executeCommand_cmd] then does with the command [c]: into the open
    group, or through [addToHistory]. *)
Definition booked {World : Type} (c : CADCommand World) (s : CommandManager World)
    : CommandManager World :=
  match m_currentGroup s with
  | Some g => set_m_currentGroup (Some (addCommand (Some c) g)) s
  | None => addToHistory (Some c) s
  end.

(** [s'] has emitted the signals of [s] and then [tail]. *)
Definition emitted_since {World : Type} (s s' : CommandManager World)
    (tail : list Signal) : Prop :=
  signals s' = signals s ++ tail.

(** [s'] has emitted the signals of [s] and possibly more. *)
Definition grows {World : Type} (s s' : CommandManager World) : Prop :=
  exists tail, emitted_since s s' tail.

(** Every entry of the two history stacks answers [true] to [canUndo()]. *)
Definition entries_undoable {World : Type} (s : CommandManager World) : Prop :=
  Forall (fun c => cmd_canUndo c = true) (m_undoStack s) /\
  Forall (fun c => cmd_canUndo c = true) (m_redoStack s).

(** The test of [executeScriptText] for a line to skip, on the trimmed
    line. *)
Definition skipped (trimmedLine : QString) : bool :=
  isEmpty trimmedLine || startsWith ";" trimmedLine || startsWith "#" trimmedLine.

(** The lines of a script that are submitted: the parts between newlines,
    trimmed, without the skipped ones. *)
Definition submitted_lines (scriptText : QString) : list QString :=
  List.filter (fun l => negb (skipped l))
    (List.map trimmed (split_SkipEmptyParts newline_char scriptText)).

(** Submitting each of [lines] in turn, whatever the earlier ones returned:
    the results in order, with a warning after each line that returned
    [false]. *)
Fixpoint submit_each {World : Type} (fuel : nat) (lines : list QString)
    (s : CommandManager World) : Outcome World (list bool) :=
  match lines with
  | [] => Returned [] s
  | line :: rest =>
      bind (executeCommand fuel line s) (fun ok s =>
        let s := if ok then s else warn (ScriptCommandFailed line) s in
        bind (submit_each fuel rest s) (fun oks s => Returned (ok :: oks) s))
  end.

(** The reserved names, tested on the resolved command name. *)
Definition is_undo_name (n : QString) : bool := String.eqb n "u" || String.eqb n "undo".
Definition is_redo_name (n : QString) : bool := String.eqb n "redo".
Definition is_repeat_name (n : QString) : bool := String.eqb n "repeat" || isEmpty n.
Definition is_reserved (n : QString) : bool :=
  is_undo_name n || is_redo_name n || is_repeat_name n.

(** What [executeCommand] does once the line has been announced, from the
    call of [parseCommandLine] on, written on the state [s1] it starts in. *)
Definition tokenize_and_dispatch {World : Type} (fuel : nat) (commandLine : QString)
    (s1 : CommandManager World) : Outcome World bool :=
  match parseCommandLine commandLine with
  | [] => Returned false s1
  | first :: args =>
      let n := resolveAlias s1 (toLower first) in
      if is_undo_name n then bind (undo_call s1) (fun _ s' => Returned true s')
      else if is_redo_name n then bind (redo_call s1) (fun _ s' => Returned true s')
      else if is_repeat_name n
      then bind (repeatLastCommand fuel s1) (fun _ s' => Returned true s')
      else
        bind (createCommand n args s1) (fun command s2 =>
          match command with
          | Some c => executeCommand_cmd (Some c) s2
          | None =>
              Returned false
                (emit (commandFailed commandLine (unknown_command n))
                   (warn (WarnError (unknown_command n)) s2))
          end)
  end.




(** ** Macros and script files

    The members [m_currentMacroName] and [m_macros], and the files the
    macro functions read and write, are kept beside the engine state in a
    [MacroSession].  The files are a map from path to text; whether
    [QFile::open] succeeds on a path is given by [can_write] and [can_read],
    and the value of
    [QStandardPaths::writableLocation(QStandardPaths::AppDataLocation)] by
    [appDataLocation].  The warnings these functions write with [qCWarning]
    are kept in a log of their own, [macro_log].  A file holds the text as
    the stream wrote it, with the newline as the line end; a file opened
    with [QIODevice::Text] is read without its carriage returns. *)

Inductive MacroWarning : Type :=
| AlreadyRecording (macroName : QString)
| NotRecording
| MacroNotFound (macroName : QString)
| ScriptMissing (scriptPath : QString)
| ScriptUnreadable (scriptPath : QString).

Record MacroSession (World : Type) : Type := {
  manager : CommandManager World;
  m_currentMacroName : QString;
  m_macros : gmap string (list QString);
  files : gmap string QString;
  macro_log : list MacroWarning
}.

Arguments manager {World} _.
Arguments m_currentMacroName {World} _.
Arguments m_macros {World} _.
Arguments files {World} _.
Arguments macro_log {World} _.

(** How a call of [playMacro] or [executeScript] ends; as [Outcome], with
    the whole session. *)
Inductive SessionOutcome (World A : Type) : Type :=
| Done (a : A) (m : MacroSession World)
| Escaped (m : MacroSession World)
| Crashed (m : MacroSession World)
| Unbounded (m : MacroSession World).

Arguments Done {World A} a m.
Arguments Escaped {World A} m.
Arguments Crashed {World A} m.
Arguments Unbounded {World A} m.

Section Macros.

Context {World : Type}.
Variable appDataLocation : QString.
Variable can_write : QString -> bool.
Variable can_read : QString -> bool.

Definition set_manager (v : CommandManager World) (m : MacroSession World)
    : MacroSession World :=
  {| manager := v; m_currentMacroName := m_currentMacroName m;
     m_macros := m_macros m; files := files m; macro_log := macro_log m |}.

Definition set_m_currentMacroName (v : QString) (m : MacroSession World)
    : MacroSession World :=
  {| manager := manager m; m_currentMacroName := v;
     m_macros := m_macros m; files := files m; macro_log := macro_log m |}.

Definition set_m_macros (v : gmap string (list QString)) (m : MacroSession World)
    : MacroSession World :=
  {| manager := manager m; m_currentMacroName := m_currentMacroName m;
     m_macros := v; files := files m; macro_log := macro_log m |}.

Definition set_files (v : gmap string QString) (m : MacroSession World)
    : MacroSession World :=
  {| manager := manager m; m_currentMacroName := m_currentMacroName m;
     m_macros := m_macros m; files := v; macro_log := macro_log m |}.

Definition macro_warn (msg : MacroWarning) (m : MacroSession World)
    : MacroSession World :=
  {| manager := manager m; m_currentMacroName := m_currentMacroName m;
     m_macros := m_macros m; files := files m;
     macro_log := macro_log m ++ [msg] |}.

(** The outcome of a call on the engine, as an outcome of the session. *)
Definition in_session {A : Type} (m : MacroSession World) (o : Outcome World A)
    : SessionOutcome World A :=
  match o with
  | Returned a s => Done a (set_manager s m)
  | Propagated s => Escaped (set_manager s m)
  | Faulted s => Crashed (set_manager s m)
  | OutOfFuel s => Unbounded (set_manager s m)
  end.

Definition session_of {A : Type} (o : SessionOutcome World A) : MacroSession World :=
  match o with
  | Done _ m => m
  | Escaped m => m
  | Crashed m => m
  | Unbounded m => m
  end.

(** What reading a file opened with [QIODevice::Text] gives for the stored
    text: every carriage return is removed. *)
Fixpoint read_as_text (text : QString) : QString :=
  match text with
  | EmptyString => EmptyString
  | String c r =>
      if Ascii.eqb c carriage_return then read_as_text r
      else String c (read_as_text r)
  end.

(** What the loop of [stopRecording] writes to the text stream: each
    command followed by a newline. *)
Fixpoint written_lines (commands : list QString) : QString :=
  match commands with
  | [] => EmptyString
  | command :: rest => command +:+ String newline_char (written_lines rest)
  end.

Definition stopRecording (m : MacroSession World) : MacroSession World :=
  if negb (m_recording (manager m)) then macro_warn NotRecording m
  else
    let m :=
      match m_recordedCommands (manager m) with
      | [] => m
      | _ :: _ =>
          let m :=
            set_m_macros
              (<[m_currentMacroName m := m_recordedCommands (manager m)]> (m_macros m))
              m in
          let macroPath := appDataLocation +:+ "/macros" in
          let path := macroPath +:+ "/" +:+ m_currentMacroName m +:+ ".scr" in
          if can_write path
          then set_files
                 (<[path := written_lines (m_recordedCommands (manager m))]> (files m)) m
          else m
      end in
    let m := set_manager (set_m_recording false (manager m)) m in
    let m := set_m_currentMacroName EmptyString m in
    set_manager (set_m_recordedCommands [] (manager m)) m.

Definition startRecording (macroName : QString) (m : MacroSession World)
    : MacroSession World :=
  let m :=
    if m_recording (manager m)
    then stopRecording (macro_warn (AlreadyRecording (m_currentMacroName m)) m)
    else m in
  let m := set_manager (set_m_recording true (manager m)) m in
  let m := set_m_currentMacroName macroName m in
  set_manager (set_m_recordedCommands [] (manager m)) m.

(** [executeScript]: the file must exist and open for reading; the text
    read from it goes to [executeScriptText]. *)
Definition executeScript (fuel : nat) (scriptPath : QString) (m : MacroSession World)
    : SessionOutcome World bool :=
  match files m !! scriptPath with
  | None => Done false (macro_warn (ScriptMissing scriptPath) m)
  | Some stored =>
      if negb (can_read scriptPath)
      then Done false (macro_warn (ScriptUnreadable scriptPath) m)
      else
        let scriptText := read_as_text stored in
        in_session m (executeScriptText fuel scriptText (manager m))
  end.

(** The loop of [playMacro] over the lines of the macro; the result of each
    submission is dropped. *)
Fixpoint play_loop (fuel : nat) (commands : list QString) (s : CommandManager World)
    : Outcome World unit :=
  match commands with
  | [] => Returned tt s
  | command :: rest =>
      bind (executeCommand fuel command s) (fun _ s => play_loop fuel rest s)
  end.

Definition playMacro (fuel : nat) (macroName : QString) (m : MacroSession World)
    : SessionOutcome World unit :=
  match m_macros m !! macroName with
  | Some commands =>
      let s := beginGroup ("Macro: " +:+ macroName) (manager m) in
      in_session m
        (bind (play_loop fuel commands s) (fun _ s => Returned tt (endGroup s)))
  | None =>
      let macroPath := appDataLocation +:+ "/macros/" +:+ macroName +:+ ".scr" in
      match files m !! macroPath with
      | Some _ =>
          match executeScript fuel macroPath m with
          | Done _ m => Done tt m
          | Escaped m => Escaped m
          | Crashed m => Crashed m
          | Unbounded m => Unbounded m
          end
      | None => Done tt (macro_warn (MacroNotFound macroName) m)
      end
  end.

End Macros.

(** The session the constructor starts: no macro in memory, nothing being
    recorded. *)
Definition MacroSession_new {World : Type} (w : World) (disk : gmap string QString)
    : MacroSession World :=
  {| manager := CommandManager_new w; m_currentMacroName := EmptyString;
     m_macros := ∅; files := disk; macro_log := [] |}.

(** ** Completion and help

    [QHash] iterates in an unspecified order; the two listing functions sort
    what they collect, with [QStringList::sort], by code units. *)

Definition sort_strings (l : list QString) : list QString := merge_sort String.le l.

Definition getAvailableCommands {World : Type} (s : CommandManager World)
    : list QString :=
  let commands := (map_to_list (m_commands s)).*1 in
  sort_strings commands.

Definition getCommandCompletions {World : Type} (partial : QString)
    (s : CommandManager World) : list QString :=
  let lowerPartial := toLower partial in
  let completions :=
    List.filter (String.prefix lowerPartial) (map_to_list (m_commands s)).*1 in
  let completions :=
    completions ++
    List.filter (String.prefix lowerPartial) (map_to_list (m_aliases s)).*1 in
  sort_strings completions.

Definition getCommandHelp {World : Type} (command : QString)
    (s : CommandManager World) : QString :=
  let lowerCommand := toLower command in
  match m_commands s !! lowerCommand with
  | Some info => info_help info
  | None =>
      match m_aliases s !! lowerCommand with
      | Some target =>
          match m_commands s !! target with
          | Some info => "Alias for " +:+ target +:+ ": " +:+ info_help info
          | None => "No help available for command: " +:+ command
          end
      | None => "No help available for command: " +:+ command
      end
  end.

(** ** Notions used in the further properties *)

(** [c] occurs in [s]. *)
Fixpoint contains_char (c : ascii) (s : QString) : bool :=
  match s with
  | EmptyString => false
  | String d r => Ascii.eqb d c || contains_char c r
  end.

(** Every character of [s] satisfies [p]. *)
Fixpoint all_chars (p : ascii -> bool) (s : QString) : bool :=
  match s with
  | EmptyString => true
  | String d r => p d && all_chars p r
  end.

(** A character that can never be part of a token on its own account:
    whitespace or the double quote. *)
Definition is_separator (c : ascii) : bool := isSpace c || Ascii.eqb c quote_char.

(** A well-formed token: not empty, and free of double quotes. *)
Definition token_ok (t : QString) : Prop :=
  isEmpty t = false /\ contains_char quote_char t = false.

(** The token [t] written between double quotes. *)
Definition quoted (t : QString) : QString :=
  String quote_char (t +:+ String quote_char EmptyString).

(** A command line written from the tokens [ts]: each one quoted, single
    spaces between them. *)
Definition quoted_line (ts : list QString) : QString :=
  String.concat " " (List.map quoted ts).

(** Every alias name and every alias target in the table is in lower
    case. *)
Definition aliases_lowercase {World : Type} (s : CommandManager World) : Prop :=
  forall k v, m_aliases s !! k = Some v -> toLower k = k /\ toLower v = v.

(** The two stacks together hold no more entries than the undo limit. *)
Definition depth_within_limit {World : Type} (s : CommandManager World) : Prop :=
  (Z.of_nat (length (m_undoStack s) + length (m_redoStack s)) <= m_undoLimit s)%Z.

(** [s'] has the registry, the alias table and the settings of [s]. *)
Definition same_settings {World : Type} (s s' : CommandManager World) : Prop :=
  m_commands s' = m_commands s /\ m_aliases s' = m_aliases s /\
  m_undoLimit s' = m_undoLimit s /\ m_commandEcho s' = m_commandEcho s /\
  m_recording s' = m_recording s.

(** From [s] to [s'] the recording flag is unchanged and the recording
    buffer has only been appended to; it is unchanged when [s] does not
    record. *)
Definition recording_kept {World : Type} (s s' : CommandManager World) : Prop :=
  m_recording s' = m_recording s /\
  (exists tail, m_recordedCommands s' = m_recordedCommands s ++ tail) /\
  (m_recording s = false -> m_recordedCommands s' = m_recordedCommands s).

(** The line [commandLine] is one that [executeCommand] would hand to
    [repeatLastCommand] in the state [s]. *)
Definition dispatches_to_repeat {World : Type} (s : CommandManager World)
    (commandLine : QString) : bool :=
  negb (isEmpty (trimmed commandLine)) &&
  match parseCommandLine commandLine with
  | [] => false
  | first :: _ => is_repeat_name (resolveAlias s (toLower first))
  end.

(** An engine in which no line can run a command: no registered factory
    ever makes one, or throws anything but a [std::exception]; both stacks
    are empty and there is no last command. *)
Definition inert {World : Type} (s : CommandManager World) : Prop :=
  (forall k info args c,
     m_commands s !! k = Some info -> info_factory info args <> Made (Some c)) /\
  (forall k info args,
     m_commands s !! k = Some info -> info_factory info args <> RaisedOther) /\
  m_undoStack s = [] /\ m_redoStack s = [] /\ m_lastCommand s = EmptyString.

(** [s'] has the registry, the alias table, the settings and the recording
    buffer of [s]. *)
Definition untouched {World : Type} (s s' : CommandManager World) : Prop :=
  same_settings s s' /\ m_recordedCommands s' = m_recordedCommands s.

(** The file of the macro [macroName], as [playMacro] spells its path. *)
Definition macro_file (appDataLocation macroName : QString) : QString :=
  appDataLocation +:+ "/macros/" +:+ macroName +:+ ".scr".

(** A call on the session that returned is turned into one that returned
    nothing, as [playMacro] drops the result of [executeScript]. *)
Definition dropping_result {World A : Type} (o : SessionOutcome World A)
    : SessionOutcome World unit :=
  match o with
  | Done _ m => Done tt m
  | Escaped m => Escaped m
  | Crashed m => Crashed m
  | Unbounded m => Unbounded m
  end.

(** From [m] to [m'] the macros in memory, the files and the name of the
    macro being recorded are unchanged. *)
Definition same_macros {World : Type} (m m' : MacroSession World) : Prop :=
  m_macros m' = m_macros m /\ files m' = files m /\
  m_currentMacroName m' = m_currentMacroName m.

(** * Properties *)

(** Closed statements about the sample engines are decided by evaluation. *)
Ltac evaluate :=
  cbv zeta; vm_compute;
  repeat (match goal with |- _ /\ _ => split end);
  reflexivity.

(** ** Outcomes *)

Lemma state_of_bind_returned {World A B : Type} (o : Outcome World A) (b : B) :
  state_of (bind o (fun _ s' => Returned b s')) = state_of o.
Proof. now destruct o. Qed.

(** ** Members of a group *)

(** The loop of [CADCommandGroup::undo] is [run_forward] over the reversed
    member list. *)
Lemma run_forward_app {World : Type} (f : CADCommand World -> World -> World * Completion)
    (l1 l2 : list (CADCommand World)) (w : World) :
  run_forward f (l1 ++ l2) w =
  match run_forward f l1 w with
  | (w', Normal) => run_forward f l2 w'
  | (w', Threw e) => (w', Threw e)
  | (w', ThrewOther) => (w', ThrewOther)
  end.
Proof.
  revert w. induction l1 as [|m l1 IH]; intros w; simpl.
  - reflexivity.
  - destruct (f m w) as [w' [|e|]]; [apply IH | reflexivity | reflexivity].
Qed.

Lemma group_execute_forward {World : Type} (n : QString) (ms : list (CADCommand World))
    (w : World) :
  cmd_execute (Group n ms) w = run_forward cmd_execute ms w.
Proof.
  revert w. induction ms as [|m ms IH]; intros w; [reflexivity|].
  simpl. destruct (cmd_execute m w) as [w' [|e|]]; [|reflexivity|reflexivity].
  apply IH.
Qed.

Lemma group_undo_reverse {World : Type} (n : QString) (ms : list (CADCommand World))
    (w : World) :
  cmd_undo (Group n ms) w = run_forward cmd_undo (rev ms) w.
Proof.
  revert w. induction ms as [|m ms IH]; intros w; [reflexivity|].
  simpl rev. rewrite run_forward_app. rewrite <- IH. simpl.
  destruct ((fix members (l : list (CADCommand World)) (w0 : World) {struct l} :=
               match l with
               | [] => (w0, Normal)
               | m0 :: l' =>
                   match members l' w0 with
                   | (w', Normal) => cmd_undo m0 w'
                   | (w', Threw e) => (w', Threw e)
                   | (w', ThrewOther) => (w', ThrewOther)
                   end
               end) ms w) as [w' [|e|]]; [|reflexivity|reflexivity].
  destruct (cmd_undo m w') as [w'' [|e|]]; reflexivity.
Qed.

(** ** Failed undo and redo *)

Lemma undo_unfold {World : Type} (s : CommandManager World) (c : CADCommand World)
    (rest : list (CADCommand World)) :
  m_undoStack s = c :: rest ->
  undo_call s =
  match cmd_undo c (world s) with
  | (w, Normal) =>
      Returned tt
        (emit historyChanged
           (updateUndoRedoState
              (set_m_redoStack (c :: m_redoStack s)
                 (set_world w (set_m_undoStack rest s)))))
  | (w, Threw what) =>
      Returned tt
        (set_m_undoStack (c :: rest)
           (warn (UndoFailed what) (set_world w (set_m_undoStack rest s))))
  | (w, ThrewOther) => Propagated (set_world w (set_m_undoStack rest s))
  end.
Proof.
  intros H. unfold undo_call, canUndo. rewrite H. cbn [negb].
  cbn [world set_m_undoStack].
  destruct (cmd_undo c (world s)) as [w [|what|]]; reflexivity.
Qed.

Lemma redo_unfold {World : Type} (s : CommandManager World) (c : CADCommand World)
    (rest : list (CADCommand World)) :
  m_redoStack s = c :: rest ->
  redo_call s =
  match cmd_redo c (world s) with
  | (w, Normal) =>
      Returned tt
        (emit historyChanged
           (updateUndoRedoState
              (set_m_undoStack (c :: m_undoStack s)
                 (set_world w (set_m_redoStack rest s)))))
  | (w, Threw what) =>
      Returned tt
        (set_m_redoStack (c :: rest)
           (warn (RedoFailed what) (set_world w (set_m_redoStack rest s))))
  | (w, ThrewOther) => Propagated (set_world w (set_m_redoStack rest s))
  end.
Proof.
  intros H. unfold redo_call, canRedo. rewrite H. cbn [negb].
  cbn [world set_m_redoStack].
  destruct (cmd_redo c (world s)) as [w [|what|]]; reflexivity.
Qed.

(** [undo()] and [redo()] return or let an exception through; they neither
    fault nor recurse. *)
Lemma undo_call_ends {World : Type} (s : CommandManager World) :
  undo_call s = Returned tt (undo s) \/ undo_call s = Propagated (undo s).
Proof.
  unfold undo, undo_call. destruct (negb (canUndo s)); [now left|].
  destruct (m_undoStack s) as [|c rest]; [now left|]. cbv zeta.
  destruct (cmd_undo c _) as [w [|what|]]; cbn; auto.
Qed.

Lemma redo_call_ends {World : Type} (s : CommandManager World) :
  redo_call s = Returned tt (redo s) \/ redo_call s = Propagated (redo s).
Proof.
  unfold redo, redo_call. destruct (negb (canRedo s)); [now left|].
  destruct (m_redoStack s) as [|c rest]; [now left|]. cbv zeta.
  destruct (cmd_redo c _) as [w [|what|]]; cbn; auto.
Qed.

(** C3 (as the code has it).  When the [undo()] of the command on top of the
    undo stack throws a [std::exception], [CommandManager::undo] returns
    with the popped command pushed back: both stacks are what they were
    before the call.  When it throws an object of another type, the handler
    does not apply: the exception reaches the caller, the popped command is
    gone, and the undo stack is one entry shorter; the redo stack is
    unchanged.  Likewise for the command on top of the redo stack in
    [CommandManager::redo]. *)
Theorem failed_undo_redo_and_the_stacks {World : Type} (s : CommandManager World)
    (c : CADCommand World) (rest : list (CADCommand World)) (w : World) :
  (forall what,
     m_undoStack s = c :: rest -> cmd_undo c (world s) = (w, Threw what) ->
     undo_call s = Returned tt (undo s) /\
     m_undoStack (undo s) = m_undoStack s /\ m_redoStack (undo s) = m_redoStack s) /\
  (m_undoStack s = c :: rest -> cmd_undo c (world s) = (w, ThrewOther) ->
     undo_call s = Propagated (undo s) /\
     m_undoStack (undo s) = rest /\ m_redoStack (undo s) = m_redoStack s) /\
  (forall what,
     m_redoStack s = c :: rest -> cmd_redo c (world s) = (w, Threw what) ->
     redo_call s = Returned tt (redo s) /\
     m_undoStack (redo s) = m_undoStack s /\ m_redoStack (redo s) = m_redoStack s) /\
  (m_redoStack s = c :: rest -> cmd_redo c (world s) = (w, ThrewOther) ->
     redo_call s = Propagated (redo s) /\
     m_undoStack (redo s) = m_undoStack s /\ m_redoStack (redo s) = rest).
Proof.
  split; [|split; [|split]].
  - intros what Hstack Hthrow. unfold undo.
    rewrite (undo_unfold s c rest Hstack), Hthrow. cbn. now rewrite Hstack.
  - intros Hstack Hthrow. unfold undo.
    rewrite (undo_unfold s c rest Hstack), Hthrow. cbn. auto.
  - intros what Hstack Hthrow. unfold redo.
    rewrite (redo_unfold s c rest Hstack), Hthrow. cbn. now rewrite Hstack.
  - intros Hstack Hthrow. unfold redo.
    rewrite (redo_unfold s c rest Hstack), Hthrow. cbn. auto.
Qed.

Lemma failed_undo_redo_and_the_stacks_witness :
  let s := set_m_redoStack [Sample.stuck_command "cut"]
             (set_m_undoStack [Sample.stuck_command "weld"] Sample.fresh) in
  let t := set_m_redoStack [Sample.wild_command "cut"]
             (set_m_undoStack [Sample.wild_command "weld"] Sample.fresh) in
  (undo_call s = Returned tt (undo s) /\
   m_undoStack (undo s) = m_undoStack s /\ m_redoStack (undo s) = m_redoStack s) /\
  (undo_call t = Propagated (undo t) /\
   m_undoStack (undo t) = [] /\ m_redoStack (undo t) = m_redoStack t) /\
  (redo_call s = Returned tt (redo s) /\
   m_undoStack (redo s) = m_undoStack s /\ m_redoStack (redo s) = m_redoStack s) /\
  (redo_call t = Propagated (redo t) /\
   m_undoStack (redo t) = m_undoStack t /\ m_redoStack (redo t) = []).
Proof.
  intros s t.
  split; [|split; [|split]].
  - apply (proj1 (failed_undo_redo_and_the_stacks s (Sample.stuck_command "weld") []
                    ["weld.undo"]) "undo refused"); reflexivity.
  - apply (proj1 (proj2 (failed_undo_redo_and_the_stacks t (Sample.wild_command "weld") []
                    ["weld.undo"]))); reflexivity.
  - apply (proj1 (proj2 (proj2 (failed_undo_redo_and_the_stacks s
                    (Sample.stuck_command "cut") [] ["cut.redo"]))) "redo refused");
      reflexivity.
  - apply (proj2 (proj2 (proj2 (failed_undo_redo_and_the_stacks t
                    (Sample.wild_command "cut") [] ["cut.redo"])))); reflexivity.
Defined.

(** C3 as stated fails.  In an engine whose undo stack holds [weld] and whose
    redo stack holds [cut], two commands whose [undo()] and [redo()] throw an
    object that is not a [std::exception]: [undo()] is left by the exception
    with the undo stack empty, [weld] being neither on the undo stack nor on
    the redo stack, and no warning written; and [redo()] loses [cut] in the
    same way. *)
Lemma undo_throwing_other_type_loses_the_command :
  let weld := Sample.wild_command "weld" in
  let cut := Sample.wild_command "cut" in
  let s := set_m_redoStack [cut] (set_m_undoStack [weld] Sample.fresh) in
  cmd_undo weld (world s) = (["weld.undo"], ThrewOther) /\
  cmd_redo cut (world s) = (["cut.redo"], ThrewOther) /\
  (exists s', undo_call s = Propagated s' /\
              m_undoStack s' = [] /\ m_redoStack s' = [cut] /\
              m_undoStack s' <> m_undoStack s /\ warnings s' = []) /\
  (exists s', redo_call s = Propagated s' /\
              m_undoStack s' = [weld] /\ m_redoStack s' = [] /\
              m_redoStack s' <> m_redoStack s /\ warnings s' = []).
Proof.
  cbv zeta. split; [reflexivity|]. split; [reflexivity|].
  split; eexists; (split; [reflexivity|]);
    (split; [reflexivity|]); (split; [reflexivity|]);
    (split; [discriminate|reflexivity]).
Qed.

(** ** The signal log only grows *)

Section SignalLog.

Context {World : Type}.
Implicit Types s : CommandManager World.

Lemma grows_refl s : grows s s.
Proof. exists []. unfold emitted_since. now rewrite app_nil_r. Qed.

Lemma grows_trans s1 s2 s3 : grows s1 s2 -> grows s2 s3 -> grows s1 s3.
Proof.
  intros [t1 H1] [t2 H2]. exists (t1 ++ t2). unfold emitted_since in *.
  rewrite H2, H1. now rewrite app_assoc.
Qed.

Lemma grows_same s s' : signals s' = signals s -> grows s s'.
Proof. intros H. exists []. unfold emitted_since. now rewrite app_nil_r. Qed.

Lemma grows_emit sig s : grows s (emit sig s).
Proof. now exists [sig]. Qed.

Lemma announced_keeps commandLine s :
  m_aliases (announced commandLine s) = m_aliases s /\
  m_commands (announced commandLine s) = m_commands s /\
  m_undoStack (announced commandLine s) = m_undoStack s /\
  m_redoStack (announced commandLine s) = m_redoStack s /\
  m_currentGroup (announced commandLine s) = m_currentGroup s /\
  m_lastCommand (announced commandLine s) = m_lastCommand s /\
  world (announced commandLine s) = world s /\
  warnings (announced commandLine s) = warnings s.
Proof.
  unfold announced. destruct (m_commandEcho s); destruct (m_recording _); simpl; tauto.
Qed.

Lemma announced_signals commandLine s :
  signals (announced commandLine s) =
  signals s ++ (if m_commandEcho s then [commandExecuted commandLine] else []).
Proof.
  unfold announced. destruct (m_commandEcho s); destruct (m_recording _); simpl;
    now rewrite ?app_nil_r.
Qed.

Lemma grows_undo s : grows s (undo s).
Proof.
  unfold undo, undo_call. destruct (canUndo s); simpl; [|now apply grows_same].
  destruct (m_undoStack s) as [|c rest]; [apply grows_refl|].
  destruct (cmd_undo c _) as [w [|what|]]; simpl.
  - eexists; unfold emitted_since; simpl; rewrite <- !app_assoc; reflexivity.
  - now apply grows_same.
  - now apply grows_same.
Qed.

Lemma grows_redo s : grows s (redo s).
Proof.
  unfold redo, redo_call. destruct (canRedo s); simpl; [|now apply grows_same].
  destruct (m_redoStack s) as [|c rest]; [apply grows_refl|].
  destruct (cmd_redo c _) as [w [|what|]]; simpl.
  - eexists; unfold emitted_since; simpl; rewrite <- !app_assoc; reflexivity.
  - now apply grows_same.
  - now apply grows_same.
Qed.

Lemma grows_addToHistory command s : grows s (addToHistory command s).
Proof.
  destruct command as [c|]; simpl; [|apply grows_refl].
  destruct (cmd_canUndo c); simpl; [|apply grows_refl].
  eexists; unfold emitted_since; simpl; rewrite <- !app_assoc; reflexivity.
Qed.

(** A command whose [execute()] returns normally is booked, and then the
    call faults on [command->name()]: [command] has been moved from. *)
Lemma executeCommand_cmd_normal c s w :
  cmd_execute c (world s) = (w, Normal) ->
  executeCommand_cmd (Some c) s = Faulted (booked c (executed w s)).
Proof.
  intros H. unfold executeCommand_cmd. cbn [world set_m_commandInProgress].
  rewrite H. reflexivity.
Qed.

Lemma executeCommand_cmd_threw c s w what :
  cmd_execute c (world s) = (w, Threw what) ->
  executeCommand_cmd (Some c) s =
  Returned false
    (emit (commandFailed (cmd_name c) (execution_failed what))
       (warn (WarnError (execution_failed what)) (executed w s))).
Proof.
  intros H. unfold executeCommand_cmd. cbn [world set_m_commandInProgress].
  rewrite H. reflexivity.
Qed.

(** A command whose [execute()] throws an object that is not a
    [std::exception] leaves the call by that exception, with the progress
    flag still set. *)
Lemma executeCommand_cmd_threw_other c s w :
  cmd_execute c (world s) = (w, ThrewOther) ->
  executeCommand_cmd (Some c) s =
  Propagated (set_world w (set_m_commandInProgress true s)).
Proof.
  intros H. unfold executeCommand_cmd. cbn [world set_m_commandInProgress].
  rewrite H. reflexivity.
Qed.

Lemma grows_booked c s : grows s (booked c s).
Proof.
  unfold booked. destruct (m_currentGroup s) as [g|]; [now apply grows_same|].
  apply grows_addToHistory.
Qed.

Lemma grows_executeCommand_cmd command s :
  grows s (state_of (executeCommand_cmd command s)).
Proof.
  destruct command as [c|]; [|apply grows_refl].
  destruct (cmd_execute c (world s)) as [w [|what|]] eqn:E.
  - rewrite (executeCommand_cmd_normal _ _ _ E). simpl state_of.
    eapply grows_trans; [|apply grows_booked]. now apply grows_same.
  - rewrite (executeCommand_cmd_threw _ _ _ _ E).
    now exists [commandFailed (cmd_name c) (execution_failed what)].
  - rewrite (executeCommand_cmd_threw_other _ _ _ E). now apply grows_same.
Qed.

Lemma grows_announced commandLine s : grows s (announced commandLine s).
Proof.
  unfold announced.
  destruct (m_commandEcho s); destruct (m_recording _); simpl;
    first [ now apply grows_same | now exists [commandExecuted commandLine] ].
Qed.

Lemma grows_createCommand name args s :
  grows s (state_of (createCommand name args s)).
Proof.
  unfold createCommand. destruct (m_commands s !! toLower name) as [info|]; simpl;
    [|apply grows_refl].
  destruct (info_factory info args); simpl;
    [apply grows_refl | now apply grows_same | apply grows_refl].
Qed.

(** [executeCommand] tests for a blank line, announces the line, and only
    then tokenizes and dispatches. *)
Lemma executeCommand_unfold fuel commandLine s :
  executeCommand (S fuel) commandLine s =
  if isEmpty (trimmed commandLine) then Returned false s
  else tokenize_and_dispatch fuel commandLine (announced commandLine s).
Proof. reflexivity. Qed.

Lemma grows_dispatch fuel commandLine s :
  (forall line s0, grows s0 (state_of (executeCommand fuel line s0))) ->
  isEmpty (trimmed commandLine) = false ->
  grows (announced commandLine s) (state_of (executeCommand (S fuel) commandLine s)).
Proof.
  intros IH Hline. rewrite executeCommand_unfold, Hline.
  unfold tokenize_and_dispatch.
  set (s1 := announced commandLine s).
  destruct (parseCommandLine commandLine) as [|first args]; [apply grows_refl|].
  destruct (is_undo_name _); [rewrite state_of_bind_returned; apply grows_undo|].
  destruct (is_redo_name _); [rewrite state_of_bind_returned; apply grows_redo|].
  destruct (is_repeat_name _).
  - unfold repeatLastCommand, repeatLastCommand_with.
    destruct (isEmpty (m_lastCommand s1)); simpl; [now apply grows_same|].
    specialize (IH (m_lastCommand s1) s1).
    destruct (executeCommand fuel _ _); simpl in *; exact IH.
  - pose proof (grows_createCommand (resolveAlias s1 (toLower first)) args s1) as Hc.
    destruct (createCommand _ _ _) as [[c|] s2|s2|s2|s2]; cbn [bind state_of] in *;
      try exact Hc.
    + eapply grows_trans; [exact Hc|apply grows_executeCommand_cmd].
    + eapply grows_trans; [exact Hc|].
      simpl. eexists; unfold emitted_since; simpl; reflexivity.
Qed.

Lemma grows_executeCommand fuel : forall commandLine s,
  grows s (state_of (executeCommand fuel commandLine s)).
Proof.
  induction fuel as [|fuel IH]; intros commandLine s; [apply grows_refl|].
  destruct (isEmpty (trimmed commandLine)) eqn:Hline.
  - rewrite executeCommand_unfold, Hline. apply grows_refl.
  - eapply grows_trans; [apply grows_announced|]. now apply grows_dispatch.
Qed.

End SignalLog.

(** ** Echo *)

(** C10. For every line that is not whitespace-only, when command echo is
    enabled, [commandExecuted] is emitted with the verbatim line before the
    line is tokenized: tokenization, alias resolution, construction and
    execution all run in a state whose signal log already ends with it.  It
    is the first signal of the call, and it stays in the log whatever the
    call goes on to do: the line may parse to nothing, name an unknown
    command, or name a command whose construction or execution fails. *)
Theorem echo_is_first_signal {World : Type} (fuel : nat) (commandLine : QString)
    (s : CommandManager World) :
  isEmpty (trimmed commandLine) = false ->
  m_commandEcho s = true ->
  let s1 := announced commandLine s in
  signals s1 = signals s ++ [commandExecuted commandLine] /\
  executeCommand (S fuel) commandLine s = tokenize_and_dispatch fuel commandLine s1 /\
  exists tail,
    emitted_since s (state_of (executeCommand (S fuel) commandLine s))
      (commandExecuted commandLine :: tail).
Proof.
  intros Hline Hecho s1.
  assert (Hs1 : signals s1 = signals s ++ [commandExecuted commandLine]).
  { unfold s1. now rewrite announced_signals, Hecho. }
  split; [exact Hs1|]. split; [now rewrite executeCommand_unfold, Hline|].
  destruct (grows_dispatch fuel commandLine s (grows_executeCommand fuel) Hline)
    as [tail Htail].
  exists tail. unfold emitted_since in *. fold s1 in Htail. rewrite Htail, Hs1.
  now rewrite <- app_assoc.
Qed.

Lemma echo_is_first_signal_witness :
  let s1 := announced "frobnicate 1 2" Sample.fresh in
  signals s1 = signals Sample.fresh ++ [commandExecuted "frobnicate 1 2"] /\
  executeCommand 1 "frobnicate 1 2" Sample.fresh =
    tokenize_and_dispatch 0 "frobnicate 1 2" s1 /\
  exists tail,
    emitted_since Sample.fresh
      (state_of (executeCommand 1 "frobnicate 1 2" Sample.fresh))
      (commandExecuted "frobnicate 1 2" :: tail).
Proof. apply (echo_is_first_signal 0 "frobnicate 1 2" Sample.fresh); reflexivity. Defined.


(** ** Dispatch on the resolved name *)

Section Dispatch.

Context {World : Type}.
Implicit Types s : CommandManager World.

Lemma resolveAlias_announced commandLine s name :
  resolveAlias (announced commandLine s) name = resolveAlias s name.
Proof.
  unfold resolveAlias. now rewrite (proj1 (announced_keeps commandLine s)).
Qed.

(** The alias table after [registerAlias]: the new entry answers for its
    lower-cased name, every other name resolves as before. *)
Lemma resolveAlias_registerAlias alias target s name :
  resolveAlias (registerAlias alias target s) name =
  if String.eqb (toLower alias) (toLower name) then toLower target
  else resolveAlias s name.
Proof.
  unfold resolveAlias, registerAlias. cbn [m_aliases set_m_aliases].
  destruct (String.eqb_spec (toLower alias) (toLower name)) as [E|E].
  - rewrite E. now rewrite lookup_insert_eq.
  - now rewrite lookup_insert_ne.
Qed.

(** A line that is not blank and has the first token [first] is dispatched on
    the alias-resolved, lower-cased [first]. *)
Lemma dispatch_on_resolved_name fuel commandLine s first args :
  isEmpty (trimmed commandLine) = false ->
  parseCommandLine commandLine = first :: args ->
  executeCommand (S fuel) commandLine s =
  let s1 := announced commandLine s in
  let n := resolveAlias s (toLower first) in
  if is_undo_name n then bind (undo_call s1) (fun _ s' => Returned true s')
  else if is_redo_name n then bind (redo_call s1) (fun _ s' => Returned true s')
  else if is_repeat_name n
  then bind (repeatLastCommand fuel s1) (fun _ s' => Returned true s')
  else
    bind (createCommand n args s1) (fun command s2 =>
      match command with
      | Some c => executeCommand_cmd (Some c) s2
      | None =>
          Returned false
            (emit (commandFailed commandLine (unknown_command n))
               (warn (WarnError (unknown_command n)) s2))
      end).
Proof.
  intros Hline Hparse. rewrite executeCommand_unfold, Hline.
  unfold tokenize_and_dispatch. rewrite Hparse. cbv zeta.
  now rewrite resolveAlias_announced.
Qed.

Lemma redo_name_not_undo n : is_redo_name n = true -> is_undo_name n = false.
Proof.
  unfold is_redo_name, is_undo_name. intros H. apply String.eqb_eq in H. now subst n.
Qed.

Lemma repeat_name_not_undo_redo n :
  is_repeat_name n = true -> is_undo_name n = false /\ is_redo_name n = false.
Proof.
  unfold is_repeat_name, is_redo_name, is_undo_name. intros H.
  apply orb_true_iff in H. destruct H as [H|H].
  - apply String.eqb_eq in H. now subst n.
  - destruct n; [now split | discriminate].
Qed.

Lemma not_reserved n :
  is_reserved n = false ->
  is_undo_name n = false /\ is_redo_name n = false /\ is_repeat_name n = false.
Proof.
  unfold is_reserved. intros H.
  apply orb_false_iff in H. destruct H as [H H3].
  apply orb_false_iff in H. tauto.
Qed.

End Dispatch.

(** C6 (as the code has it).  The lower-cased first token of every line is
    first resolved through the alias table, and it is the resolved name that
    is compared with the reserved names, before any registry lookup: a
    resolved name [u] or [undo] invokes [undo()], [redo] invokes [redo()],
    [repeat] or the empty name calls [repeatLastCommand()], and only the
    other names reach [createCommand].  The call returns [true] when
    [undo()], [redo()] or [repeatLastCommand()] returns.  So an alias decides
    the treatment: once [registerAlias alias target] has run, a line whose
    lower-cased first token is the lower-cased [alias] is treated as the
    lower-cased [target] is. *)
Theorem reserved_names_checked_on_resolved_name {World : Type} (fuel : nat)
    (commandLine : QString) (s : CommandManager World) (first : QString)
    (args : list QString) :
  isEmpty (trimmed commandLine) = false ->
  parseCommandLine commandLine = first :: args ->
  let s1 := announced commandLine s in
  let n := resolveAlias s (toLower first) in
  (is_undo_name n = true ->
     executeCommand (S fuel) commandLine s =
     bind (undo_call s1) (fun _ s' => Returned true s')) /\
  (is_redo_name n = true ->
     executeCommand (S fuel) commandLine s =
     bind (redo_call s1) (fun _ s' => Returned true s')) /\
  (is_repeat_name n = true ->
     executeCommand (S fuel) commandLine s =
     bind (repeatLastCommand fuel s1) (fun _ s' => Returned true s')) /\
  (is_reserved n = false ->
     executeCommand (S fuel) commandLine s =
     bind (createCommand n args s1) (fun command s2 =>
       match command with
       | Some c => executeCommand_cmd (Some c) s2
       | None =>
           Returned false
             (emit (commandFailed commandLine (unknown_command n))
                (warn (WarnError (unknown_command n)) s2))
       end)) /\
  (forall alias target,
     toLower alias = toLower (toLower first) ->
     resolveAlias (registerAlias alias target s) (toLower first) = toLower target).
Proof.
  intros Hline Hparse s1 n.
  pose proof (dispatch_on_resolved_name fuel commandLine s first args Hline Hparse) as D.
  cbv zeta in D. fold s1 n in D.
  repeat split.
  - intros H. now rewrite D, H.
  - intros H. now rewrite D, (redo_name_not_undo _ H), H.
  - intros H. destruct (repeat_name_not_undo_redo _ H) as [H1 H2].
    now rewrite D, H1, H2, H.
  - intros H. destruct (not_reserved _ H) as (H1 & H2 & H3).
    now rewrite D, H1, H2, H3.
  - intros alias target H. rewrite resolveAlias_registerAlias, H.
    now rewrite String.eqb_refl.
Qed.

Lemma reserved_names_checked_on_resolved_name_witness :
  let s := Sample.fresh in
  resolveAlias s (toLower "U") = "undo" /\
  executeCommand 1 "U" s =
    bind (undo_call (announced "U" s)) (fun _ s' => Returned true s') /\
  executeCommand 1 "Redo" s =
    bind (redo_call (announced "Redo" s)) (fun _ s' => Returned true s') /\
  executeCommand 1 "repeat" s =
    bind (repeatLastCommand 0 (announced "repeat" s)) (fun _ s' => Returned true s') /\
  executeCommand 1 "frob 1" s =
    bind (createCommand "frob" ["1"] (announced "frob 1" s)) (fun command s2 =>
      match command with
      | Some c => executeCommand_cmd (Some c) s2
      | None =>
          Returned false
            (emit (commandFailed "frob 1" (unknown_command "frob"))
               (warn (WarnError (unknown_command "frob")) s2))
      end) /\
  resolveAlias (registerAlias "u" "Redo" s) (toLower "U") = "redo".
Proof.
  intros s.
  pose proof (reserved_names_checked_on_resolved_name 0 "U" s "U" []
                eq_refl eq_refl) as (Hundo & _ & _ & _ & Halias).
  pose proof (reserved_names_checked_on_resolved_name 0 "Redo" s "Redo" []
                eq_refl eq_refl) as (_ & Hredo & _).
  pose proof (reserved_names_checked_on_resolved_name 0 "repeat" s "repeat" []
                eq_refl eq_refl) as (_ & _ & Hrepeat & _).
  pose proof (reserved_names_checked_on_resolved_name 0 "frob 1" s "frob" ["1"]
                eq_refl eq_refl) as (_ & _ & _ & Hother & _).
  specialize (Hundo ltac:(vm_compute; reflexivity)).
  specialize (Hredo ltac:(vm_compute; reflexivity)).
  specialize (Hrepeat ltac:(vm_compute; reflexivity)).
  specialize (Hother ltac:(vm_compute; reflexivity)).
  specialize (Halias "u" "Redo" eq_refl).
  split; [vm_compute; reflexivity|].
  split; [exact Hundo|]. split; [exact Hredo|]. split; [exact Hrepeat|].
  split; [vm_cast_no_check Hother | exact Halias].
Defined.

(** ** The line [undo] on an empty history *)

Lemma undo_call_on_empty_stack {World : Type} (s : CommandManager World) :
  m_undoStack s = [] -> undo_call s = Returned tt (warn CannotUndo s).
Proof. intros H. unfold undo_call, canUndo. now rewrite H. Qed.

Lemma redo_call_on_empty_stack {World : Type} (s : CommandManager World) :
  m_redoStack s = [] -> redo_call s = Returned tt (warn CannotRedo s).
Proof. intros H. unfold redo_call, canRedo. now rewrite H. Qed.

Lemma undo_on_empty_stack {World : Type} (s : CommandManager World) :
  m_undoStack s = [] -> undo s = warn CannotUndo s.
Proof. intros H. unfold undo. now rewrite undo_call_on_empty_stack. Qed.

Lemma redo_on_empty_stack {World : Type} (s : CommandManager World) :
  m_redoStack s = [] -> redo s = warn CannotRedo s.
Proof. intros H. unfold redo. now rewrite redo_call_on_empty_stack. Qed.

(** C5 (as the code has it).  Submitting the line [undo] when the undo stack
    is empty, in an engine whose alias table has no entry for [undo], changes
    neither stack nor the world and emits no history or availability signal;
    [undo()] only writes a warning.  The submission is still echoed: with
    command echo on, [commandExecuted] is emitted for the line (and the line
    is recorded when a recording is active), and the submission returns
    [true]. *)
Theorem undo_line_on_empty_history {World : Type} (fuel : nat)
    (s : CommandManager World) :
  m_undoStack s = [] ->
  m_aliases s !! "undo" = None ->
  let s' := warn CannotUndo (announced "undo" s) in
  executeCommand (S fuel) "undo" s = Returned true s' /\
  signals s' = signals s ++ (if m_commandEcho s then [commandExecuted "undo"] else []) /\
  m_undoStack s' = [] /\ m_redoStack s' = m_redoStack s /\ world s' = world s.
Proof.
  intros Hstack Halias s'.
  pose proof (announced_keeps "undo" s) as (_ & _ & Hu & Hr & _ & _ & Hw & _).
  split; [|split; [|split; [|split]]].
  - rewrite (dispatch_on_resolved_name fuel "undo" s "undo" [] eq_refl eq_refl).
    cbv zeta.
    assert (Hn : resolveAlias s (toLower "undo") = "undo").
    { unfold resolveAlias. change (toLower (toLower "undo")) with "undo".
      now rewrite Halias. }
    rewrite Hn. change (is_undo_name "undo") with true. cbv iota.
    rewrite undo_call_on_empty_stack; [reflexivity|]. now rewrite Hu.
  - unfold s'. cbn [signals warn set_warnings]. apply announced_signals.
  - unfold s'. cbn [m_undoStack warn set_warnings]. now rewrite Hu.
  - unfold s'. cbn [m_redoStack warn set_warnings]. exact Hr.
  - unfold s'. cbn [world warn set_warnings]. exact Hw.
Qed.

Lemma undo_line_on_empty_history_witness :
  let s' := warn CannotUndo (announced "undo" Sample.fresh) in
  executeCommand 1 "undo" Sample.fresh = Returned true s' /\
  signals s' = signals Sample.fresh ++ [commandExecuted "undo"] /\
  m_undoStack s' = [] /\ m_redoStack s' = m_redoStack Sample.fresh /\
  world s' = world Sample.fresh.
Proof. apply (undo_line_on_empty_history 0 Sample.fresh); reflexivity. Defined.

(** C5 as stated fails on the engine the constructor builds: the submission
    returns [true], not [false], and the echo signal is emitted. *)
Lemma undo_line_returns_true_and_echoes :
  m_undoStack Sample.fresh = [] /\
  executeCommand 1 "undo" Sample.fresh =
    Returned true (warn CannotUndo (emit (commandExecuted "undo") Sample.fresh)) /\
  executeCommand 1 "undo" Sample.fresh <> Returned false Sample.fresh /\
  signals (state_of (executeCommand 1 "undo" Sample.fresh)) = [commandExecuted "undo"].
Proof.
  split; [reflexivity|]. split; [reflexivity|]. split; [|reflexivity].
  intros H. discriminate H.
Qed.

(** ** Unknown names and throwing factories *)

Lemma createCommand_unregistered {World : Type} (name : QString) (args : list QString)
    (s : CommandManager World) :
  m_commands s !! toLower name = None -> createCommand name args s = Returned None s.
Proof. intros H. unfold createCommand. now rewrite H. Qed.

Lemma createCommand_registered {World : Type} (name : QString) (args : list QString)
    (s : CommandManager World) (info : CommandInfo World) :
  m_commands s !! toLower name = Some info ->
  createCommand name args s =
  match info_factory info args with
  | Made command => Returned command s
  | Raised what => Returned None (warn (FailedToCreate name what) s)
  | RaisedOther => Propagated s
  end.
Proof. intros H. unfold createCommand. now rewrite H. Qed.

(** C7 (as the code has it).  When the resolved name of a line is not a
    reserved one, the dispatcher returns [false] without throwing and without
    faulting in each of these cases, and the [commandFailed] signal it emits
    carries the same message, [Unknown command:] and the resolved name: the
    name is not registered; the registered factory throws a
    [std::exception], which [createCommand] catches and turns into a null
    pointer; the registered factory returns a null pointer.  Only the
    warning log tells the throwing factory apart, by the extra entry
    [createCommand] writes.  When the factory throws an object of another
    type, nothing catches it: the submission is left by the exception, after
    the echo, with no failure signal and no warning. *)
Theorem unknown_and_failed_construction_report_alike {World : Type} (fuel : nat)
    (commandLine : QString) (s : CommandManager World) (first : QString)
    (args : list QString) :
  isEmpty (trimmed commandLine) = false ->
  parseCommandLine commandLine = first :: args ->
  let s1 := announced commandLine s in
  let n := resolveAlias s (toLower first) in
  let report := commandFailed commandLine (unknown_command n) in
  is_reserved n = false ->
  (m_commands s !! toLower n = None ->
     executeCommand (S fuel) commandLine s =
     Returned false (emit report (warn (WarnError (unknown_command n)) s1))) /\
  (forall info what,
     m_commands s !! toLower n = Some info ->
     info_factory info args = Raised what ->
     executeCommand (S fuel) commandLine s =
     Returned false
       (emit report
          (warn (WarnError (unknown_command n)) (warn (FailedToCreate n what) s1)))) /\
  (forall info,
     m_commands s !! toLower n = Some info ->
     info_factory info args = Made None ->
     executeCommand (S fuel) commandLine s =
     Returned false (emit report (warn (WarnError (unknown_command n)) s1))) /\
  (forall info,
     m_commands s !! toLower n = Some info ->
     info_factory info args = RaisedOther ->
     executeCommand (S fuel) commandLine s = Propagated s1).
Proof.
  intros Hline Hparse s1 n report Hres.
  pose proof (dispatch_on_resolved_name fuel commandLine s first args Hline Hparse) as D.
  cbv zeta in D. fold s1 n in D.
  destruct (not_reserved _ Hres) as (H1 & H2 & H3). rewrite H1, H2, H3 in D.
  assert (Hc : m_commands s1 = m_commands s) by apply announced_keeps.
  repeat split.
  - intros Hnone. rewrite D, createCommand_unregistered; [reflexivity|].
    now rewrite Hc.
  - intros info what Hsome Hraise.
    rewrite D, (createCommand_registered n args s1 info), Hraise; [reflexivity|].
    now rewrite Hc.
  - intros info Hsome Hnull.
    rewrite D, (createCommand_registered n args s1 info), Hnull; [reflexivity|].
    now rewrite Hc.
  - intros info Hsome Hother.
    rewrite D, (createCommand_registered n args s1 info), Hother; [reflexivity|].
    now rewrite Hc.
Qed.

Lemma unknown_and_failed_construction_report_alike_witness :
  let report := commandFailed "frob 1" (unknown_command "frob") in
  executeCommand 1 "frob 1" Sample.fresh =
    Returned false
      (emit report (warn (WarnError (unknown_command "frob"))
                      (announced "frob 1" Sample.fresh))) /\
  executeCommand 1 "frob 1" Sample.with_throwing_frob =
    Returned false
      (emit report
         (warn (WarnError (unknown_command "frob"))
            (warn (FailedToCreate "frob" "bad arguments")
               (announced "frob 1" Sample.with_throwing_frob)))) /\
  executeCommand 1 "circle 1" Sample.fresh =
    Returned false
      (emit (commandFailed "circle 1" (unknown_command "circle"))
         (warn (WarnError (unknown_command "circle"))
            (announced "circle 1" Sample.fresh))) /\
  executeCommand 1 "frob 1" Sample.with_wild_frob =
    Propagated (announced "frob 1" Sample.with_wild_frob).
Proof.
  pose proof (unknown_and_failed_construction_report_alike 0 "frob 1" Sample.fresh
                "frob" ["1"] eq_refl eq_refl) as Hunknown.
  pose proof (unknown_and_failed_construction_report_alike 0 "frob 1"
                Sample.with_throwing_frob "frob" ["1"] eq_refl eq_refl) as Hthrew.
  pose proof (unknown_and_failed_construction_report_alike 0 "circle 1" Sample.fresh
                "circle" ["1"] eq_refl eq_refl) as Hnull.
  pose proof (unknown_and_failed_construction_report_alike 0 "frob 1"
                Sample.with_wild_frob "frob" ["1"] eq_refl eq_refl) as Hother.
  cbv zeta in Hunknown, Hthrew, Hnull, Hother.
  specialize (Hunknown ltac:(vm_compute; reflexivity)).
  specialize (Hthrew ltac:(vm_compute; reflexivity)).
  specialize (Hnull ltac:(vm_compute; reflexivity)).
  specialize (Hother ltac:(vm_compute; reflexivity)).
  destruct Hunknown as (Hunknown & _ & _ & _).
  destruct Hthrew as (_ & Hthrew & _ & _).
  destruct Hnull as (_ & _ & Hnull & _).
  destruct Hother as (_ & _ & _ & Hother).
  specialize (Hother
                {| info_name := "frob"; info_help := EmptyString;
                   info_factory := fun _ => RaisedOther |}
                ltac:(vm_compute; reflexivity) eq_refl).
  specialize (Hunknown ltac:(vm_compute; reflexivity)).
  specialize (Hthrew
                {| info_name := "frob"; info_help := EmptyString;
                   info_factory := fun _ => Raised "bad arguments" |} "bad arguments"
                ltac:(vm_compute; reflexivity) eq_refl).
  specialize (Hnull
                {| info_name := "circle"; info_help := "Draw a circle";
                   info_factory := fun _ => Made None |}
                ltac:(vm_compute; reflexivity) eq_refl).
  split; [|split; [|split]].
  - vm_cast_no_check Hunknown.
  - vm_cast_no_check Hthrew.
  - vm_cast_no_check Hnull.
  - vm_cast_no_check Hother.
Defined.

(** C7 as stated fails in both of its parts.  For the line [frob 1], the
    engine without a command [frob] and the engine whose factory for [frob]
    throws a [std::exception] both return [false] and emit the same signals;
    the failure signal says [Unknown command] in both.  And on the engine
    whose factory for [frob] throws an object of another type, the
    submission does throw to the caller: it is left by the exception, and
    the only signal is the echo. *)
Lemma throwing_factory_reported_as_unknown_command :
  let unknown := executeCommand 1 "frob 1" Sample.fresh in
  let threw := executeCommand 1 "frob 1" Sample.with_throwing_frob in
  let wild := executeCommand 1 "frob 1" Sample.with_wild_frob in
  m_commands Sample.fresh !! "frob" = None /\
  (exists info, m_commands Sample.with_throwing_frob !! "frob" = Some info /\
                info_factory info ["1"] = Raised "bad arguments") /\
  (exists info, m_commands Sample.with_wild_frob !! "frob" = Some info /\
                info_factory info ["1"] = RaisedOther) /\
  unknown = Returned false (state_of unknown) /\
  threw = Returned false (state_of threw) /\
  signals (state_of unknown) =
    [commandExecuted "frob 1"; commandFailed "frob 1" "Unknown command: frob"] /\
  signals (state_of threw) = signals (state_of unknown) /\
  wild = Propagated (state_of wild) /\
  signals (state_of wild) = [commandExecuted "frob 1"] /\
  warnings (state_of wild) = [].
Proof.
  cbv zeta. split; [reflexivity|]. split; [|split].
  - eexists. split; reflexivity.
  - eexists. split; reflexivity.
  - repeat split; reflexivity.
Qed.

(** ** The last command and [repeat] *)

Lemma undo_keeps_lastCommand {World : Type} (s : CommandManager World) :
  m_lastCommand (undo s) = m_lastCommand s.
Proof.
  unfold undo, undo_call. destruct (canUndo s); [|reflexivity].
  destruct (m_undoStack s) as [|c rest]; [reflexivity|].
  simpl. now destruct (cmd_undo c (world s)) as [w [|what|]].
Qed.

Lemma redo_keeps_lastCommand {World : Type} (s : CommandManager World) :
  m_lastCommand (redo s) = m_lastCommand s.
Proof.
  unfold redo, redo_call. destruct (canRedo s); [|reflexivity].
  destruct (m_redoStack s) as [|c rest]; [reflexivity|].
  simpl. now destruct (cmd_redo c (world s)) as [w [|what|]].
Qed.

Lemma isEmpty_true (q : QString) : isEmpty q = true <-> q = EmptyString.
Proof. destruct q; simpl; split; congruence. Qed.

Lemma addToHistory_keeps_lastCommand {World : Type} (command : option (CADCommand World))
    (s : CommandManager World) :
  m_lastCommand (addToHistory command s) = m_lastCommand s.
Proof.
  destruct command as [c|]; [|reflexivity].
  unfold addToHistory. now destruct (cmd_canUndo c).
Qed.

(** The one assignment to [m_lastCommand] stands behind the null
    dereference: no call of [executeCommand] returns [true], and none
    changes [m_lastCommand]. *)
Lemma executeCommand_cmd_never_true {World : Type} (command : option (CADCommand World))
    (s s' : CommandManager World) :
  executeCommand_cmd command s <> Returned true s'.
Proof.
  destruct command as [c|]; [|discriminate].
  destruct (cmd_execute c (world s)) as [w [|what|]] eqn:E.
  - rewrite (executeCommand_cmd_normal _ _ _ E). discriminate.
  - rewrite (executeCommand_cmd_threw _ _ _ _ E). discriminate.
  - rewrite (executeCommand_cmd_threw_other _ _ _ E). discriminate.
Qed.

Lemma executeCommand_cmd_keeps_lastCommand {World : Type}
    (command : option (CADCommand World)) (s : CommandManager World) :
  m_lastCommand (state_of (executeCommand_cmd command s)) = m_lastCommand s.
Proof.
  destruct command as [c|]; [|reflexivity].
  destruct (cmd_execute c (world s)) as [w [|what|]] eqn:E.
  - rewrite (executeCommand_cmd_normal _ _ _ E). cbn [state_of]. unfold booked.
    destruct (m_currentGroup (executed w s)); [reflexivity|].
    now rewrite addToHistory_keeps_lastCommand.
  - now rewrite (executeCommand_cmd_threw _ _ _ _ E).
  - now rewrite (executeCommand_cmd_threw_other _ _ _ E).
Qed.

Lemma createCommand_keeps_lastCommand {World : Type} (name : QString)
    (args : list QString) (s : CommandManager World) :
  m_lastCommand (state_of (createCommand name args s)) = m_lastCommand s.
Proof.
  unfold createCommand. destruct (m_commands s !! toLower name) as [info|];
    [|reflexivity].
  now destruct (info_factory info args).
Qed.

Lemma executeCommand_keeps_lastCommand {World : Type} (fuel : nat) :
  forall (commandLine : QString) (s : CommandManager World),
  m_lastCommand (state_of (executeCommand fuel commandLine s)) = m_lastCommand s.
Proof.
  induction fuel as [|fuel IH]; intros commandLine s; [reflexivity|].
  rewrite executeCommand_unfold.
  destruct (isEmpty (trimmed commandLine)); [reflexivity|].
  assert (Ha : m_lastCommand (announced commandLine s) = m_lastCommand s)
    by apply announced_keeps.
  unfold tokenize_and_dispatch. set (s1 := announced commandLine s) in *.
  destruct (parseCommandLine commandLine) as [|first args]; [exact Ha|].
  destruct (is_undo_name _).
  { rewrite state_of_bind_returned. fold (undo s1).
    now rewrite undo_keeps_lastCommand. }
  destruct (is_redo_name _).
  { rewrite state_of_bind_returned. fold (redo s1).
    now rewrite redo_keeps_lastCommand. }
  destruct (is_repeat_name _).
  - rewrite state_of_bind_returned. unfold repeatLastCommand, repeatLastCommand_with.
    destruct (isEmpty (m_lastCommand s1)); [exact Ha|].
    rewrite state_of_bind_returned. now rewrite IH.
  - pose proof (createCommand_keeps_lastCommand
                  (resolveAlias s1 (toLower first)) args s1) as Hc.
    destruct (createCommand _ _ _) as [[c|] s2|s2|s2|s2]; cbn [bind state_of] in *;
      try (now rewrite Hc).
    + now rewrite executeCommand_cmd_keeps_lastCommand, Hc.
    + cbn. now rewrite Hc.
Qed.

(** What a line does whose resolved name is [repeat] or empty: it re-submits
    the current [m_lastCommand], and only writes a warning when that is
    empty. *)
Lemma repeat_line_resubmits_last_command {World : Type} (fuel : nat)
    (commandLine : QString) (s : CommandManager World) (first : QString)
    (args : list QString) :
  isEmpty (trimmed commandLine) = false ->
  parseCommandLine commandLine = first :: args ->
  is_repeat_name (resolveAlias s (toLower first)) = true ->
  executeCommand (S fuel) commandLine s =
  if isEmpty (m_lastCommand s)
  then Returned true (warn NoPreviousCommand (announced commandLine s))
  else bind (executeCommand fuel (m_lastCommand s) (announced commandLine s))
         (fun _ s' => Returned true s').
Proof.
  intros Hline Hparse H.
  pose proof (dispatch_on_resolved_name fuel commandLine s first args Hline Hparse) as D.
  cbv zeta in D.
  assert (Hlast : m_lastCommand (announced commandLine s) = m_lastCommand s)
    by apply announced_keeps.
  destruct (repeat_name_not_undo_redo _ H) as [H1 H2].
  rewrite D, H1, H2, H. unfold repeatLastCommand, repeatLastCommand_with.
  rewrite Hlast. destruct (isEmpty (m_lastCommand s)); [reflexivity|].
  now destruct (executeCommand fuel (m_lastCommand s) _).
Qed.

(** C1, evaluated on an engine with the working command [move].  The line
    [move 1 2] is dispatched, its command is built and its [execute()]
    returns normally; the command is pushed onto the undo stack, and the
    call then faults on [command->name()], the right-hand side of the one
    assignment to [m_lastCommand]: the submission does not return, and
    nothing is stored.  More generally no submission, however it ends,
    changes [m_lastCommand], and no execute returns [true]; so [repeat]
    never has a line to re-submit, and on the constructed engine it writes
    its warning and does nothing else. *)
Theorem executed_line_is_never_stored (fuel : nat) :
  let move := Sample.logging_command "move" true in
  (exists s',
     executeCommand (S fuel) "move 1 2" Sample.with_move = Faulted s' /\
     world s' = ["move.execute"] /\ m_undoStack s' = [move] /\
     m_lastCommand s' = EmptyString) /\
  (forall (World : Type) (n : nat) (commandLine : QString) (s : CommandManager World),
     m_lastCommand (state_of (executeCommand n commandLine s)) = m_lastCommand s) /\
  (forall (World : Type) (command : option (CADCommand World))
          (s s' : CommandManager World),
     executeCommand_cmd command s <> Returned true s') /\
  executeCommand (S fuel) "repeat" Sample.fresh =
    Returned true (warn NoPreviousCommand (announced "repeat" Sample.fresh)).
Proof.
  cbv zeta. split; [|split; [|split]].
  - eexists. split; [vm_compute; reflexivity|]. vm_compute.
    repeat (match goal with |- _ /\ _ => split end); reflexivity.
  - intros World n commandLine s. apply executeCommand_keeps_lastCommand.
  - intros World command s s'. apply executeCommand_cmd_never_true.
  - vm_compute. reflexivity.
Qed.

(** ** The states a program can reach *)

Section Reachable.

Context {World : Type}.
Implicit Types s : CommandManager World.


















End Reachable.

(** ** The redo stack after an execute *)






(** ** Which commands reach the history *)

Section HistoryEntries.

Context {World : Type}.
Implicit Types s : CommandManager World.
Implicit Types st : list (CADCommand World).

Lemma Forall_removelast (P : CADCommand World -> Prop) st :
  Forall P st -> Forall P (removelast st).
Proof.
  induction st as [|x st IH]; intros H; [constructor|].
  inversion H; subst. simpl. destruct st; [constructor|].
  constructor; auto.
Qed.

Lemma Forall_trim_loop (P : CADCommand World -> Prop) n : forall st limit,
  Forall P st -> Forall P (trim_loop n st limit).
Proof.
  induction n as [|n IH]; intros st limit H; simpl; [exact H|].
  destruct (Z.of_nat (length st) >? limit)%Z; [|exact H].
  apply IH. now apply Forall_removelast.
Qed.

(** With a limit of one or more, trimming keeps the newest entry. *)
Lemma trim_loop_keeps_top n : forall (c : CADCommand World) st limit,
  (1 <= limit)%Z -> exists older, trim_loop n (c :: st) limit = c :: older.
Proof.
  induction n as [|n IH]; intros c st limit Hlimit; [now exists st|].
  change (trim_loop (S n) (c :: st) limit)
    with (if (Z.of_nat (length (c :: st)) >? limit)%Z
          then trim_loop n (removelast (c :: st)) limit else c :: st).
  destruct (Z.of_nat (length (c :: st)) >? limit)%Z eqn:E; [|now exists st].
  destruct st as [|x st].
  - apply Z.gtb_lt in E. simpl in E. lia.
  - change (removelast (c :: x :: st)) with (c :: removelast (x :: st)).
    now apply IH.
Qed.

Lemma entries_undoable_addToHistory command s :
  entries_undoable s -> entries_undoable (addToHistory command s).
Proof.
  intros [Hu Hr]. destruct command as [c|]; simpl; [|now split].
  destruct (cmd_canUndo c) eqn:E; simpl; [|now split].
  split; [|constructor].
  change (Forall (fun c0 => cmd_canUndo c0 = true)
            (trim_loop (S (length (m_undoStack s))) (c :: m_undoStack s) (m_undoLimit s))).
  apply Forall_trim_loop. now constructor.
Qed.



Lemma entries_undoable_same s s' :
  m_undoStack s' = m_undoStack s -> m_redoStack s' = m_redoStack s ->
  entries_undoable s -> entries_undoable s'.
Proof. unfold entries_undoable. intros -> ->. auto. Qed.

Lemma entries_undoable_endGroup s : entries_undoable s -> entries_undoable (endGroup s).
Proof.
  intros H. unfold endGroup. destruct (m_currentGroup s) as [[name members]|];
    [|now apply (entries_undoable_same s)].
  destruct members as [|m members]; cbn [negb].
  - now apply (entries_undoable_same s).
  - eapply entries_undoable_same;
      [| |apply (entries_undoable_addToHistory
                   (Some (Group name (m :: members))) (set_m_currentGroup None s));
          now apply (entries_undoable_same s)]; reflexivity.
Qed.

Lemma entries_undoable_beginGroup name s :
  entries_undoable s -> entries_undoable (beginGroup name s).
Proof.
  intros H. unfold beginGroup. destruct (m_currentGroup s).
  - eapply entries_undoable_same;
      [| |apply (entries_undoable_endGroup (warn AlreadyInGroup s));
          now apply (entries_undoable_same s)]; reflexivity.
  - now apply (entries_undoable_same s).
Qed.




End HistoryEntries.

(** ** Ending a group *)

Section Groups.

Context {World : Type}.
Implicit Types s : CommandManager World.

(** A group without members is dropped: neither stack changes and no history
    signal is emitted. *)
Lemma endGroup_empty_group s name :
  m_currentGroup s = Some (name, []) ->
  endGroup s = emit (groupingChanged false) (set_m_currentGroup None s).
Proof. intros H. unfold endGroup. now rewrite H. Qed.

(** A group with members becomes one entry on top of the undo stack, and the
    redo stack is cleared. *)
Lemma endGroup_pushes_group s name m members :
  m_currentGroup s = Some (name, m :: members) ->
  (1 <= m_undoLimit s)%Z ->
  (exists older, m_undoStack (endGroup s) = Group name (m :: members) :: older) /\
  m_redoStack (endGroup s) = [] /\
  m_currentGroup (endGroup s) = None.
Proof.
  intros H Hlimit. unfold endGroup. rewrite H. cbn [negb].
  split; [|split; reflexivity].
  destruct (trim_loop_keeps_top (S (length (m_undoStack s)))
              (Group name (m :: members)) (m_undoStack s) (m_undoLimit s) Hlimit)
    as [older Ho].
  exists older. rewrite <- Ho. reflexivity.
Qed.

Lemma app_one_is_cons (members : list (CADCommand World)) c :
  exists m rest, members ++ [c] = m :: rest.
Proof. destruct members as [|m rest]; simpl; eauto. Qed.

(** Undoing a group of two calls the [undo()] of the second member first;
    the first member is undone only if that call returns normally. *)
Lemma group_of_two_undo (name : QString) (a b : CADCommand World) (w : World) :
  cmd_undo (Group name [a; b]) w =
  match cmd_undo b w with
  | (w', Normal) => cmd_undo a w'
  | (w', Threw e) => (w', Threw e)
  | (w', ThrewOther) => (w', ThrewOther)
  end.
Proof. reflexivity. Qed.

(** The bookkeeping of two executes into an empty open group, followed by
    [endGroup]: from the states in which the two calls leave the engine, the
    group becomes the one new entry on top of the undo stack. *)
Lemma grouped_pair_is_booked_as_one_entry s name (a b : CADCommand World) w1 w2 :
  m_currentGroup s = Some (name, []) ->
  (1 <= m_undoLimit s)%Z ->
  cmd_execute a (world s) = (w1, Normal) ->
  cmd_execute b w1 = (w2, Normal) ->
  let s1 := state_of (executeCommand_cmd (Some a) s) in
  let s2 := state_of (executeCommand_cmd (Some b) s1) in
  m_undoStack s2 = m_undoStack s /\
  exists older, m_undoStack (endGroup s2) = Group name [a; b] :: older.
Proof.
  intros Hgroup Hlimit Ha Hb s1 s2.
  assert (Hs1 : s1 = set_m_currentGroup (Some (name, [a])) (executed w1 s)).
  { unfold s1. rewrite (executeCommand_cmd_normal a s w1 Ha). cbn [state_of].
    unfold booked. change (m_currentGroup (executed w1 s)) with (m_currentGroup s).
    now rewrite Hgroup. }
  assert (Hs2 : s2 = set_m_currentGroup (Some (name, [a; b])) (executed w2 s1)).
  { unfold s2. rewrite (executeCommand_cmd_normal b s1 w2); [|now rewrite Hs1].
    cbn [state_of]. unfold booked.
    change (m_currentGroup (executed w2 s1)) with (m_currentGroup s1).
    now rewrite Hs1. }
  split; [now rewrite Hs2, Hs1|].
  apply (endGroup_pushes_group s2 name a [b]); now rewrite Hs2, Hs1.
Qed.

End Groups.




(** ** Scripts *)

Section Scripts.

Context {World : Type}.
Implicit Types s : CommandManager World.

(** The loop of [executeScriptText] submits the lines that are not skipped,
    one after the other, and goes on after a line that returned [false]; its
    result is the conjunction of the results. *)
Lemma script_loop_submits_each fuel : forall (lines : list QString) success s,
  script_loop fuel lines success s =
  bind (submit_each fuel
          (List.filter (fun l => negb (skipped l)) (List.map trimmed lines)) s)
    (fun oks s' => Returned (success && forallb id oks) s').
Proof.
  induction lines as [|line rest IH]; intros success s.
  - simpl. now rewrite andb_true_r.
  - cbn [script_loop List.map List.filter]. fold (skipped (trimmed line)).
    destruct (skipped (trimmed line)); cbn [negb]; [apply IH|].
    cbn [submit_each].
    destruct (executeCommand fuel (trimmed line) s) as [ok s1|s1|s1|s1];
      cbn [bind]; try reflexivity.
    destruct ok; cbn [negb]; rewrite IH.
    + now destruct (submit_each fuel _ s1).
    + destruct (submit_each fuel _ _); cbn [bind]; try reflexivity.
      now rewrite andb_false_r.
Qed.

Lemma executeScriptText_submits_each fuel (scriptText : QString) s :
  executeScriptText fuel scriptText s =
  bind (submit_each fuel (submitted_lines scriptText)
          (beginGroup "Script Execution" s))
    (fun oks s' => Returned (forallb id oks) (endGroup s')).
Proof.
  unfold executeScriptText. rewrite script_loop_submits_each.
  unfold submitted_lines.
  now destruct (submit_each fuel _ _).
Qed.

End Scripts.

(** ** Executing a command that returns normally *)

(** C4, evaluated on the engine the constructor builds.  After
    [beginGroup("G")], executing the command [a], whose [execute()] returns
    normally, appends [a] to the group and then faults: the call does not
    return [true], and neither the second [execute] nor [endGroup] is
    reached.  Were the calls to go on from the states in which the engine is
    left, [b] would join the group, [endGroup] would push the one entry
    [G] with [a] and [b], and undoing it would call the [undo()] of [b] and
    then of [a]; and [endGroup] on the empty group pushes nothing. *)
Theorem grouped_execute_faults_after_booking :
  let a := Sample.logging_command "a" true in
  let b := Sample.logging_command "b" true in
  let s0 := beginGroup "G" Sample.fresh in
  let s1 := set_m_currentGroup (Some ("G", [a])) (executed ["a.execute"] s0) in
  let s2 := set_m_currentGroup (Some ("G", [a; b]))
              (executed ["a.execute"; "b.execute"] s1) in
  executeCommand_cmd (Some a) s0 = Faulted s1 /\
  executeCommand_cmd (Some b) s1 = Faulted s2 /\
  m_undoStack s1 = [] /\
  m_undoStack (endGroup s2) = [Group "G" [a; b]] /\
  world (undo (endGroup s2)) = ["a.execute"; "b.execute"; "b.undo"; "a.undo"] /\
  m_undoStack (endGroup s0) = [] /\
  signals (endGroup s0) = [groupingChanged true; groupingChanged false].
Proof. evaluate. Qed.

(** C9, evaluated on an engine with the working command [move].  The script
    has the two lines [move 1] and [undo], and neither is skipped.  The first
    line is submitted, its command executes normally and joins the script's
    group, and the call faults: [executeScriptText] does not return, and the
    line [undo] is never submitted (it is not echoed).  On the engine without
    [move] the same script runs to its end: the first line fails, the second
    is still submitted, and the script returns [false]. *)
Theorem script_faults_on_executed_line (fuel : nat) :
  let text := Sample.script_of ["move 1"; "undo"] in
  let move := Sample.logging_command "move" true in
  submitted_lines text = ["move 1"; "undo"] /\
  match executeScriptText (S fuel) text Sample.with_move with
  | Faulted s' =>
      signals s' = [groupingChanged true; commandExecuted "move 1"] /\
      m_currentGroup s' = Some ("Script Execution", [move]) /\
      world s' = ["move.execute"]
  | _ => False
  end /\
  match executeScriptText (S fuel) text Sample.fresh with
  | Returned ok s' =>
      ok = false /\
      signals s' =
        [groupingChanged true; commandExecuted "move 1";
         commandFailed "move 1" "Unknown command: move";
         commandExecuted "undo"; groupingChanged false]
  | _ => False
  end.
Proof. evaluate. Qed.

(** ** Aliases for reserved names *)

(** C6 as stated fails: on the engine the constructor builds, the line
    [redo] invokes [redo()]; once the alias [redo] for [line] is registered,
    the same line is resolved to [line], looked up in the registry and
    reported as a failure, and [redo()] is not invoked. *)
Lemma alias_redirects_reserved_name :
  let s := Sample.fresh in
  let t := registerAlias "redo" "line" Sample.fresh in
  executeCommand 1 "redo" s = Returned true (redo (announced "redo" s)) /\
  warnings (state_of (executeCommand 1 "redo" s)) = [CannotRedo] /\
  executeCommand 1 "redo" t =
    Returned false
      (emit (commandFailed "redo" "Unknown command: line")
         (warn (WarnError "Unknown command: line") (announced "redo" t))) /\
  warnings (state_of (executeCommand 1 "redo" t)) = [WarnError "Unknown command: line"].
Proof. evaluate. Qed.

(** * Further properties *)

(** ** The tokenizer *)

Section Tokenizer.

Lemma append_cons (c : ascii) (a b : QString) :
  String c a +:+ b = String c (a +:+ b).
Proof. reflexivity. Qed.

Lemma append_nil_l (a : QString) : EmptyString +:+ a = a.
Proof. reflexivity. Qed.

Lemma append_nil_r (s : QString) : s +:+ EmptyString = s.
Proof.
  induction s as [|c s IH]; [reflexivity|]. now rewrite append_cons, IH.
Qed.

Lemma append_assoc (a b c : QString) : (a +:+ b) +:+ c = a +:+ (b +:+ c).
Proof.
  induction a as [|x a IH]; [reflexivity|]. now rewrite !append_cons, IH.
Qed.

Lemma isEmpty_append_char (s : QString) (c : ascii) :
  isEmpty (s +:+ String c EmptyString) = false.
Proof. now destruct s. Qed.

Lemma contains_char_append (c : ascii) (a b : QString) :
  contains_char c (a +:+ b) = contains_char c a || contains_char c b.
Proof.
  induction a as [|x a IH]; [reflexivity|].
  rewrite append_cons. simpl. now rewrite IH, orb_assoc.
Qed.

Lemma parse_loop_tokens_ok (cs : QString) : forall parts current inQuotes,
  Forall token_ok parts ->
  contains_char quote_char current = false ->
  Forall token_ok (parse_loop cs parts current inQuotes).
Proof.
  induction cs as [|c r IH]; intros parts current inQuotes Hparts Hcur; simpl.
  - destruct (isEmpty current) eqn:E; simpl; [exact Hparts|].
    apply Forall_app. split; [exact Hparts|]. constructor; [now split | constructor].
  - destruct (Ascii.eqb c quote_char) eqn:Eq; [now apply IH|].
    destruct (isSpace c && negb inQuotes).
    + destruct (isEmpty current) eqn:E; simpl; [now apply IH|].
      apply IH; [|reflexivity].
      apply Forall_app. split; [exact Hparts|]. constructor; [now split | constructor].
    + apply IH; [exact Hparts|].
      rewrite contains_char_append, Hcur. simpl. now rewrite Eq.
Qed.

(** X1. Every token [parseCommandLine] returns is non-empty and contains no
    double quote: an empty quoted argument is dropped, and quote characters
    are never part of an argument. *)
Theorem tokens_are_nonempty_and_quote_free (commandLine : QString) :
  Forall token_ok (parseCommandLine commandLine).
Proof. apply parse_loop_tokens_ok; [constructor | reflexivity]. Qed.


Lemma parse_loop_finds_token (cs : QString) : forall parts current inQuotes,
  parts <> [] \/ isEmpty current = false \/ all_chars is_separator cs = false ->
  parse_loop cs parts current inQuotes <> [].
Proof.
  induction cs as [|c r IH]; intros parts current inQuotes H; simpl.
  - destruct H as [H|[H|H]]; [| |discriminate H].
    + destruct (isEmpty current); simpl; [exact H|]. now destruct parts.
    + rewrite H. simpl. now destruct parts.
  - unfold is_separator in H. simpl in H.
    destruct (Ascii.eqb c quote_char) eqn:Eq.
    + apply IH. rewrite orb_true_r in H. simpl in H. exact H.
    + rewrite orb_false_r in H.
      destruct (isSpace c) eqn:Es; simpl in *.
      * destruct inQuotes; simpl.
        -- apply IH. right. left. apply isEmpty_append_char.
        -- destruct (isEmpty current) eqn:E; simpl.
           ++ apply IH. destruct H as [H|[H|H]]; [auto | congruence | auto].
           ++ apply IH. left. now destruct parts.
      * apply IH. right. left. apply isEmpty_append_char.
Qed.

Lemma space_is_not_quote (c : ascii) : isSpace c = true -> Ascii.eqb c quote_char = false.
Proof.
  intros H. destruct (Ascii.eqb_spec c quote_char) as [->|]; [discriminate H|reflexivity].
Qed.

Lemma parse_loop_blank (cs : QString) :
  all_chars isSpace cs = true -> parse_loop cs [] EmptyString false = [].
Proof.
  induction cs as [|c r IH]; intros H; simpl; [reflexivity|].
  simpl in H. apply andb_true_iff in H. destruct H as [Hc Hr].
  rewrite (space_is_not_quote c Hc), Hc. simpl. now apply IH.
Qed.

Lemma parse_loop_quotes_only (cs : QString) : forall inQuotes,
  all_chars (Ascii.eqb quote_char) cs = true ->
  parse_loop cs [] EmptyString inQuotes = [].
Proof.
  induction cs as [|c r IH]; intros inQuotes H; simpl; [reflexivity|].
  cbn [all_chars] in H. apply andb_true_iff in H. destruct H as [Hc Hr].
  rewrite Ascii.eqb_sym in Hc. rewrite Hc. now apply IH.
Qed.

(** X2. A line that contains a character other than whitespace and the
    double quote always yields at least one token; a line of whitespace only,
    and a line of double quotes only, yield none. *)
Theorem tokens_exist_unless_only_separators (commandLine : QString) :
  (all_chars is_separator commandLine = false -> parseCommandLine commandLine <> []) /\
  (all_chars isSpace commandLine = true -> parseCommandLine commandLine = []) /\
  (all_chars (Ascii.eqb quote_char) commandLine = true ->
     parseCommandLine commandLine = []).
Proof.
  split; [|split]; intros H.
  - apply parse_loop_finds_token. auto.
  - now apply parse_loop_blank.
  - now apply parse_loop_quotes_only.
Qed.

Lemma tokens_exist_unless_only_separators_witness :
  parseCommandLine "  x " <> [] /\
  parseCommandLine (String " " (String "009" " ")) = [] /\
  parseCommandLine (String quote_char (String quote_char EmptyString)) = [].
Proof.
  split; [|split].
  - apply (proj1 (tokens_exist_unless_only_separators "  x ")). reflexivity.
  - apply (proj1 (proj2 (tokens_exist_unless_only_separators
                           (String " " (String "009" " "))))).
    reflexivity.
  - apply (proj2 (proj2 (tokens_exist_unless_only_separators
                           (String quote_char (String quote_char EmptyString))))).
    reflexivity.
Defined.

(** Inside quotes, a run of characters without a double quote goes into the
    current token unchanged, whitespace included. *)
Lemma parse_loop_inside_quotes (t : QString) : forall rest parts current,
  contains_char quote_char t = false ->
  parse_loop (t +:+ rest) parts current true =
  parse_loop rest parts (current +:+ t) true.
Proof.
  induction t as [|c t IH]; intros rest parts current H.
  - now rewrite append_nil_l, append_nil_r.
  - simpl in H. apply orb_false_iff in H. destruct H as [Hc Ht].
    rewrite append_cons. simpl. rewrite Hc, andb_false_r.
    rewrite IH by exact Ht. now rewrite append_assoc.
Qed.

Lemma parse_loop_quoted (t rest : QString) (parts : list QString) :
  contains_char quote_char t = false ->
  parse_loop (quoted t +:+ rest) parts EmptyString false =
  parse_loop rest parts t false.
Proof.
  intros H. unfold quoted. rewrite append_cons, append_assoc, append_cons, append_nil_l.
  cbn [parse_loop]. rewrite Ascii.eqb_refl. cbn [negb].
  rewrite parse_loop_inside_quotes by exact H.
  rewrite append_nil_l. cbn [parse_loop]. now rewrite Ascii.eqb_refl.
Qed.

Lemma quoted_line_cons (t t2 : QString) (ts : list QString) :
  quoted_line (t :: t2 :: ts) = quoted t +:+ String " " (quoted_line (t2 :: ts)).
Proof. reflexivity. Qed.

Lemma parse_loop_quoted_line (ts : list QString) : forall parts,
  Forall token_ok ts ->
  parse_loop (quoted_line ts) parts EmptyString false = parts ++ ts.
Proof.
  induction ts as [|t ts IH]; intros parts H.
  - simpl. now rewrite app_nil_r.
  - apply Forall_cons_iff in H. destruct H as [[Hne Hq] Hts].
    destruct ts as [|t2 ts].
    + change (quoted_line [t]) with (quoted t).
      rewrite <- (append_nil_r (quoted t)), parse_loop_quoted by exact Hq.
      simpl. now rewrite Hne.
    + rewrite quoted_line_cons, parse_loop_quoted by exact Hq.
      cbn [parse_loop]. change (Ascii.eqb " " quote_char) with false.
      change (isSpace " ") with true. cbn [andb negb]. rewrite Hne. cbn [negb].
      rewrite IH by exact Hts. now rewrite <- app_assoc.
Qed.

(** X3. Writing tokens between double quotes, with single spaces between
    them, and tokenizing the line gives the tokens back, whitespace inside
    them included, provided no token is empty or contains a double quote. *)
Theorem tokenize_quoted_line (ts : list QString) :
  Forall token_ok ts -> parseCommandLine (quoted_line ts) = ts.
Proof. intros H. now apply (parse_loop_quoted_line ts []). Qed.

Lemma tokenize_quoted_line_witness :
  parseCommandLine (quoted_line ["move"; "big crane"; "12 m"]) =
  ["move"; "big crane"; "12 m"].
Proof.
  apply (tokenize_quoted_line ["move"; "big crane"; "12 m"]).
  repeat constructor.
Defined.

End Tokenizer.

(** ** Aliases and the registry *)

Section Registry.

Context {World : Type}.
Implicit Types s : CommandManager World.

Lemma toLower_char_idem (c : ascii) : toLower_char (toLower_char c) = toLower_char c.
Proof.
  destruct c as [b0 b1 b2 b3 b4 b5 b6 b7].
  destruct b0, b1, b2, b3, b4, b5, b6, b7; reflexivity.
Qed.

Lemma toLower_idem (q : QString) : toLower (toLower q) = toLower q.
Proof.
  induction q as [|c q IH]; [reflexivity|]. simpl. now rewrite toLower_char_idem, IH.
Qed.

Lemma resolveAlias_unregisterAlias alias s name :
  resolveAlias (unregisterAlias alias s) name =
  if String.eqb (toLower alias) (toLower name) then toLower name
  else resolveAlias s name.
Proof.
  unfold resolveAlias, unregisterAlias. cbn [m_aliases set_m_aliases].
  destruct (String.eqb_spec (toLower alias) (toLower name)) as [E|E].
  - rewrite E. now rewrite lookup_delete_eq.
  - now rewrite lookup_delete_ne.
Qed.

(** X4. The alias table is keyed without regard to case.  After
    [registerAlias alias target], every spelling of [alias] resolves to the
    lower-cased [target]; after [unregisterAlias alias] every spelling of it
    resolves to itself in lower case; names that differ from [alias] in more
    than case resolve as before, in both cases. *)
Theorem alias_register_unregister (alias target name : QString)
    (s : CommandManager World) :
  (toLower name = toLower alias ->
     resolveAlias (registerAlias alias target s) name = toLower target /\
     resolveAlias (unregisterAlias alias (registerAlias alias target s)) name
       = toLower name) /\
  (toLower name <> toLower alias ->
     resolveAlias (registerAlias alias target s) name = resolveAlias s name /\
     resolveAlias (unregisterAlias alias s) name = resolveAlias s name).
Proof.
  split; intros H.
  - rewrite resolveAlias_unregisterAlias, resolveAlias_registerAlias, H.
    now rewrite String.eqb_refl.
  - rewrite resolveAlias_unregisterAlias, resolveAlias_registerAlias.
    assert (E : String.eqb (toLower alias) (toLower name) = false)
      by (apply String.eqb_neq; congruence).
    now rewrite E.
Qed.

(** X5. Resolution is a single hop: when [a] is an alias of [b] and [b] is
    an alias of [c], the name [a] resolves to [b], and the entry for [b] is
    not followed. *)
Theorem alias_resolution_is_single_hop (a b c : QString) (s : CommandManager World) :
  toLower a <> toLower b ->
  resolveAlias (registerAlias b c (registerAlias a b s)) a = toLower b /\
  resolveAlias (registerAlias a b (registerAlias b c s)) a = toLower b.
Proof.
  intros H. rewrite !resolveAlias_registerAlias.
  assert (E : String.eqb (toLower b) (toLower a) = false)
    by (apply String.eqb_neq; congruence).
  now rewrite E, !String.eqb_refl.
Qed.

Lemma aliases_lowercase_registerAlias alias target s :
  aliases_lowercase s -> aliases_lowercase (registerAlias alias target s).
Proof.
  intros H k v. unfold registerAlias. cbn [m_aliases set_m_aliases].
  destruct (decide (toLower alias = k)) as [<-|Hne].
  - rewrite lookup_insert_eq. intros [= <-]. split; apply toLower_idem.
  - rewrite lookup_insert_ne by exact Hne. apply H.
Qed.

Lemma aliases_lowercase_unregisterAlias alias s :
  aliases_lowercase s -> aliases_lowercase (unregisterAlias alias s).
Proof.
  intros H k v. unfold unregisterAlias. cbn [m_aliases set_m_aliases].
  destruct (decide (toLower alias = k)) as [<-|Hne].
  - now rewrite lookup_delete_eq.
  - rewrite lookup_delete_ne by exact Hne. apply H.
Qed.

Lemma aliases_lowercase_new (w : World) : aliases_lowercase (CommandManager_new w).
Proof.
  unfold CommandManager_new, initializeBuiltinCommands.
  repeat apply aliases_lowercase_registerAlias.
  intros k v. cbn. now rewrite lookup_empty.
Qed.

(** X6. The alias table only ever holds lower-case names: it does at
    construction, [registerAlias] and [unregisterAlias] keep it so, and then
    every resolved name is in lower case and does not depend on the case of
    the name that was looked up. *)
Theorem resolved_names_are_lowercase (s : CommandManager World) (name : QString) :
  aliases_lowercase s ->
  toLower (resolveAlias s name) = resolveAlias s name /\
  resolveAlias s (toLower name) = resolveAlias s name /\
  (forall alias target, aliases_lowercase (registerAlias alias target s)) /\
  (forall alias, aliases_lowercase (unregisterAlias alias s)).
Proof.
  intros H. split; [|split; [|split]].
  - unfold resolveAlias. destruct (m_aliases s !! toLower name) as [v|] eqn:E.
    + now destruct (H _ _ E).
    + apply toLower_idem.
  - unfold resolveAlias. now rewrite toLower_idem.
  - intros alias target. now apply aliases_lowercase_registerAlias.
  - intros alias. now apply aliases_lowercase_unregisterAlias.
Qed.

End Registry.

Lemma alias_register_unregister_witness :
  (resolveAlias (registerAlias "Ln" "LINE" Sample.fresh) "LN" = "line" /\
   resolveAlias (unregisterAlias "Ln" (registerAlias "Ln" "LINE" Sample.fresh)) "LN"
     = "ln") /\
  (resolveAlias (registerAlias "Ln" "LINE" Sample.fresh) "C"
     = resolveAlias Sample.fresh "C" /\
   resolveAlias (unregisterAlias "Ln" Sample.fresh) "C" = resolveAlias Sample.fresh "C").
Proof.
  split.
  - apply (proj1 (alias_register_unregister "Ln" "LINE" "LN" Sample.fresh)).
    reflexivity.
  - apply (proj2 (alias_register_unregister "Ln" "LINE" "C" Sample.fresh)).
    discriminate.
Defined.

Lemma alias_resolution_is_single_hop_witness :
  resolveAlias (registerAlias "ln" "line" (registerAlias "l2" "ln" Sample.fresh)) "l2"
    = "ln" /\
  resolveAlias (registerAlias "l2" "ln" (registerAlias "ln" "line" Sample.fresh)) "l2"
    = "ln".
Proof.
  apply (alias_resolution_is_single_hop "l2" "ln" "line" Sample.fresh). discriminate.
Defined.

Lemma resolved_names_are_lowercase_witness :
  toLower (resolveAlias Sample.fresh "REC") = resolveAlias Sample.fresh "REC" /\
  resolveAlias Sample.fresh (toLower "REC") = resolveAlias Sample.fresh "REC" /\
  (forall alias target, aliases_lowercase (registerAlias alias target Sample.fresh)) /\
  (forall alias, aliases_lowercase (unregisterAlias alias Sample.fresh)).
Proof.
  apply (resolved_names_are_lowercase Sample.fresh "REC").
  apply aliases_lowercase_new.
Defined.

(** X7. The registry is keyed without regard to case, and the last
    registration wins.  After [registerCommand name factory], creating a
    command under any spelling of [name] calls [factory] with the arguments:
    the pointer it makes is returned; if it throws a [std::exception], the
    result is a null pointer and one warning; and if it throws an object of
    another type, [createCommand] is left by that exception, with no
    warning.  After [unregisterCommand name] every spelling of [name] gives
    a null pointer and no warning. *)
Theorem registry_register_create_unregister {World : Type} (name name' : QString)
    (factory : list QString -> FactoryResult World) (args : list QString)
    (s : CommandManager World) :
  toLower name' = toLower name ->
  let registered := registerCommand name factory s in
  createCommand name' args registered =
    match factory args with
    | Made command => Returned command registered
    | Raised what => Returned None (warn (FailedToCreate name' what) registered)
    | RaisedOther => Propagated registered
    end /\
  createCommand name' args (unregisterCommand name registered) =
    Returned None (unregisterCommand name registered).
Proof.
  intros H registered. split.
  - unfold createCommand, registered, registerCommand.
    cbn [m_commands set_m_commands]. now rewrite H, lookup_insert_eq.
  - unfold createCommand, unregisterCommand. cbn [m_commands set_m_commands].
    now rewrite H, lookup_delete_eq.
Qed.

Lemma registry_register_create_unregister_witness :
  let weld := Sample.logging_command "weld" true in
  let registered := registerCommand "Weld" (fun _ => Made (Some weld)) Sample.fresh in
  let refusing := registerCommand "Weld" (fun _ => Raised "no") Sample.fresh in
  let wild := registerCommand "Weld" (fun _ => RaisedOther) Sample.fresh in
  (createCommand "WELD" ["1"] registered = Returned (Some weld) registered /\
   createCommand "WELD" ["1"] (unregisterCommand "Weld" registered) =
     Returned None (unregisterCommand "Weld" registered)) /\
  createCommand "WELD" ["1"] refusing =
    Returned None (warn (FailedToCreate "WELD" "no") refusing) /\
  createCommand "WELD" ["1"] wild = Propagated wild.
Proof.
  intros weld registered refusing wild. split; [|split].
  - apply (registry_register_create_unregister "Weld" "WELD"
             (fun _ => Made (Some (Sample.logging_command "weld" true))) ["1"]
             Sample.fresh).
    reflexivity.
  - apply (proj1 (registry_register_create_unregister "Weld" "WELD"
                    (fun _ => Raised "no") ["1"] Sample.fresh eq_refl)).
  - apply (proj1 (registry_register_create_unregister "Weld" "WELD"
                    (fun _ => RaisedOther) ["1"] Sample.fresh eq_refl)).
Defined.

(** ** The depth of the history *)

Lemma firstn_removelast_le {A : Type} (n : nat) (l : list A) :
  (n < length l)%nat -> firstn n (removelast l) = firstn n l.
Proof.
  revert n. induction l as [|x l IH]; intros n H; [reflexivity|].
  destruct l as [|y l]; [simpl in H; now replace n with 0%nat by lia|].
  destruct n as [|n]; [reflexivity|].
  change (removelast (x :: y :: l)) with (x :: removelast (y :: l)).
  simpl firstn. f_equal. apply IH. simpl in *. lia.
Qed.

Lemma length_removelast_pred {A : Type} (l : list A) :
  length (removelast l) = pred (length l).
Proof.
  induction l as [|x l IH]; [reflexivity|].
  destruct l as [|y l]; [reflexivity|].
  change (removelast (x :: y :: l)) with (x :: removelast (y :: l)).
  simpl length in *. rewrite IH. reflexivity.
Qed.

(** The loop of [trimHistory] keeps the newest entries, as many as the limit
    allows. *)
Lemma trim_loop_firstn {World : Type} (n : nat) :
  forall (st : list (CADCommand World)) (limit : Z),
  (0 <= limit)%Z -> (length st - Z.to_nat limit <= n)%nat ->
  trim_loop n st limit = firstn (Z.to_nat limit) st.
Proof.
  induction n as [|n IH]; intros st limit Hlimit Hn.
  - simpl. symmetry. apply firstn_all2. lia.
  - simpl. destruct (Z.of_nat (length st) >? limit)%Z eqn:E.
    + apply Z.gtb_lt in E. rewrite IH; [|exact Hlimit|rewrite length_removelast_pred; lia].
      apply firstn_removelast_le. lia.
    + symmetry. apply firstn_all2.
      assert (~ (limit < Z.of_nat (length st))%Z)
        by (intros C; apply Z.gtb_lt in C; congruence).
      lia.
Qed.

Lemma trimHistory_firstn {World : Type} (s : CommandManager World) :
  (0 <= m_undoLimit s)%Z ->
  m_undoStack (trimHistory s) = firstn (Z.to_nat (m_undoLimit s)) (m_undoStack s).
Proof.
  intros H. unfold trimHistory. cbn [m_undoStack set_m_undoStack].
  apply trim_loop_firstn; [exact H|lia].
Qed.

Lemma setUndoLimit_stacks {World : Type} (n : Z) (s : CommandManager World) :
  m_undoLimit (setUndoLimit n s) = Z.max 1 n /\
  m_undoStack (setUndoLimit n s) = firstn (Z.to_nat (Z.max 1 n)) (m_undoStack s) /\
  m_redoStack (setUndoLimit n s) = m_redoStack s.
Proof.
  split; [reflexivity|]. split; [|reflexivity].
  unfold setUndoLimit. rewrite trimHistory_firstn; [reflexivity|].
  cbn [m_undoLimit set_m_undoLimit]. lia.
Qed.

(** X8. [setUndoLimit n] sets the limit to [n], or to 1 when [n] is smaller,
    and keeps the newest entries of the undo stack, as many as the new limit
    allows: the oldest are dropped, and a non-empty undo stack stays
    non-empty.  The redo stack is not trimmed, and no signal is emitted. *)
Theorem setUndoLimit_keeps_newest {World : Type} (n : Z) (s : CommandManager World) :
  let s' := setUndoLimit n s in
  m_undoLimit s' = Z.max 1 n /\
  m_undoStack s' = firstn (Z.to_nat (Z.max 1 n)) (m_undoStack s) /\
  length (m_undoStack s') = Nat.min (Z.to_nat (Z.max 1 n)) (length (m_undoStack s)) /\
  (m_undoStack s <> [] -> m_undoStack s' <> []) /\
  m_redoStack s' = m_redoStack s /\
  signals s' = signals s.
Proof.
  intros s'.
  assert (Hstack : m_undoStack s' = firstn (Z.to_nat (Z.max 1 n)) (m_undoStack s)).
  { unfold s', setUndoLimit. rewrite trimHistory_firstn; [reflexivity|].
    cbn [m_undoLimit set_m_undoLimit]. lia. }
  split; [reflexivity|]. split; [exact Hstack|].
  split; [rewrite Hstack; apply length_firstn|].
  split; [|split; reflexivity].
  rewrite Hstack. destruct (m_undoStack s) as [|c st]; [congruence|].
  intros _. destruct (Z.to_nat (Z.max 1 n)) eqn:E; [lia|discriminate].
Qed.

Section Depth.

Context {World : Type}.
Implicit Types s : CommandManager World.

Lemma depth_same s s' :
  m_undoStack s' = m_undoStack s -> m_redoStack s' = m_redoStack s ->
  m_undoLimit s' = m_undoLimit s ->
  depth_within_limit s -> depth_within_limit s'.
Proof. unfold depth_within_limit. intros -> -> ->. auto. Qed.

Lemma depth_addToHistory command s :
  depth_within_limit s -> depth_within_limit (addToHistory command s).
Proof.
  intros H. destruct command as [c|]; [|exact H]. unfold addToHistory.
  destruct (cmd_canUndo c); cbn [negb]; [|exact H].
  unfold depth_within_limit in *.
  assert (Hlimit : (0 <= m_undoLimit s)%Z) by lia.
  cbn [m_undoStack m_redoStack m_undoLimit emit updateUndoRedoState set_signals].
  rewrite trimHistory_firstn by exact Hlimit.
  cbn [m_undoStack m_redoStack m_undoLimit trimHistory set_m_undoStack set_m_redoStack].
  rewrite length_firstn. simpl length. lia.
Qed.

Lemma depth_undo s : depth_within_limit s -> depth_within_limit (undo s).
Proof.
  intros H. unfold undo. destruct (m_undoStack s) as [|c rest] eqn:E.
  - rewrite undo_call_on_empty_stack by exact E. exact H.
  - rewrite (undo_unfold s c rest E).
    unfold depth_within_limit in *. rewrite E in H. simpl length in H.
    destruct (cmd_undo c _) as [w [|what|]]; cbn; lia.
Qed.

Lemma depth_redo s : depth_within_limit s -> depth_within_limit (redo s).
Proof.
  intros H. unfold redo. destruct (m_redoStack s) as [|c rest] eqn:E.
  - rewrite redo_call_on_empty_stack by exact E. exact H.
  - rewrite (redo_unfold s c rest E).
    unfold depth_within_limit in *. rewrite E in H. simpl length in H.
    destruct (cmd_redo c _) as [w [|what|]]; cbn; lia.
Qed.

Lemma depth_endGroup s : depth_within_limit s -> depth_within_limit (endGroup s).
Proof.
  intros H. unfold endGroup. destruct (m_currentGroup s) as [[name members]|];
    [|exact H].
  destruct members as [|m members]; cbn [negb]; [exact H|].
  eapply depth_same;
    [| | |apply (depth_addToHistory (Some (Group name (m :: members)))
                   (set_m_currentGroup None s)); exact H]; reflexivity.
Qed.

Lemma depth_beginGroup name s :
  depth_within_limit s -> depth_within_limit (beginGroup name s).
Proof.
  intros H. unfold beginGroup. destruct (m_currentGroup s); [|exact H].
  eapply depth_same;
    [| | |apply (depth_endGroup (warn AlreadyInGroup s)); exact H]; reflexivity.
Qed.

Lemma depth_executeCommand_cmd command s :
  depth_within_limit s -> depth_within_limit (state_of (executeCommand_cmd command s)).
Proof.
  intros H. destruct command as [c|]; [|exact H].
  destruct (cmd_execute c (world s)) as [w [|what|]] eqn:E.
  - rewrite (executeCommand_cmd_normal _ _ _ E). cbn [state_of]. unfold booked.
    destruct (m_currentGroup (executed w s)); [exact H|].
    now apply depth_addToHistory.
  - rewrite (executeCommand_cmd_threw _ _ _ _ E). exact H.
  - rewrite (executeCommand_cmd_threw_other _ _ _ E). exact H.
Qed.

Lemma depth_announced commandLine s :
  depth_within_limit s -> depth_within_limit (announced commandLine s).
Proof.
  intros H. unfold announced. destruct (m_commandEcho s); destruct (m_recording _); exact H.
Qed.

Lemma depth_createCommand name args s :
  depth_within_limit s -> depth_within_limit (state_of (createCommand name args s)).
Proof.
  intros H. unfold createCommand. destruct (m_commands s !! toLower name) as [info|];
    [|exact H].
  destruct (info_factory info args); exact H.
Qed.

Lemma depth_executeCommand fuel : forall commandLine s,
  depth_within_limit s ->
  depth_within_limit (state_of (executeCommand fuel commandLine s)).
Proof.
  induction fuel as [|fuel IH]; intros commandLine s H; [exact H|].
  rewrite executeCommand_unfold.
  destruct (isEmpty (trimmed commandLine)); [exact H|].
  unfold tokenize_and_dispatch.
  pose proof (depth_announced commandLine s H) as Ha.
  set (s1 := announced commandLine s) in *.
  destruct (parseCommandLine commandLine) as [|first args]; [exact Ha|].
  destruct (is_undo_name _); [rewrite state_of_bind_returned; now apply depth_undo|].
  destruct (is_redo_name _); [rewrite state_of_bind_returned; now apply depth_redo|].
  destruct (is_repeat_name _).
  - unfold repeatLastCommand, repeatLastCommand_with.
    destruct (isEmpty (m_lastCommand s1)); [exact Ha|].
    specialize (IH (m_lastCommand s1) s1 Ha).
    now destruct (executeCommand fuel _ _).
  - pose proof (depth_createCommand (resolveAlias s1 (toLower first)) args s1 Ha) as Hc.
    destruct (createCommand _ _ _) as [[c|] s2|s2|s2|s2]; cbn [bind state_of] in *;
      first [ exact Hc | now apply depth_executeCommand_cmd ].
Qed.

(** X9. As long as the limit is not lowered, the two stacks together never
    hold more entries than [m_undoLimit], so the undo stack never exceeds
    it: the bound holds at construction and is kept by [executeCommand] in
    both forms, by [undo], [redo], [beginGroup] and [endGroup]. *)
Theorem history_depth_is_bounded (s : CommandManager World) :
  depth_within_limit s ->
  (Z.of_nat (length (m_undoStack s)) <= m_undoLimit s)%Z /\
  depth_within_limit (undo s) /\
  depth_within_limit (redo s) /\
  depth_within_limit (endGroup s) /\
  (forall name, depth_within_limit (beginGroup name s)) /\
  (forall command, depth_within_limit (state_of (executeCommand_cmd command s))) /\
  (forall fuel commandLine,
     depth_within_limit (state_of (executeCommand fuel commandLine s))).
Proof.
  intros H. split; [unfold depth_within_limit in H; lia|].
  split; [now apply depth_undo|]. split; [now apply depth_redo|].
  split; [now apply depth_endGroup|].
  split; [intros name; now apply depth_beginGroup|].
  split; [intros command; now apply depth_executeCommand_cmd|].
  intros fuel commandLine. now apply depth_executeCommand.
Qed.

Lemma undo_normal (s : CommandManager World) (c : CADCommand World)
    (rest : list (CADCommand World)) (w1 : World) :
  m_undoStack s = c :: rest ->
  cmd_undo c (world s) = (w1, Normal) ->
  undo s = emit historyChanged
             (updateUndoRedoState
                (set_m_redoStack (c :: m_redoStack s)
                   (set_world w1 (set_m_undoStack rest s)))).
Proof.
  intros Hstack Hundo. unfold undo.
  now rewrite (undo_unfold s c rest Hstack), Hundo.
Qed.

(** X10. Undo followed by redo is a round trip on the history: when the
    [undo()] of the top command returns normally, and its [redo()] then does
    too, both stacks are again what they were, and the world is the one
    [redo()] left. *)
Theorem undo_then_redo_restores_stacks (s : CommandManager World)
    (c : CADCommand World) (rest : list (CADCommand World)) (w1 w2 : World) :
  m_undoStack s = c :: rest ->
  cmd_undo c (world s) = (w1, Normal) ->
  cmd_redo c w1 = (w2, Normal) ->
  m_undoStack (undo s) = rest /\
  m_redoStack (undo s) = c :: m_redoStack s /\
  m_undoStack (redo (undo s)) = m_undoStack s /\
  m_redoStack (redo (undo s)) = m_redoStack s /\
  world (redo (undo s)) = w2.
Proof.
  intros Hstack Hundo Hredo.
  rewrite (undo_normal s c rest w1 Hstack Hundo).
  split; [reflexivity|]. split; [reflexivity|].
  unfold redo. rewrite (redo_unfold _ c (m_redoStack s)) by reflexivity.
  cbn [world emit updateUndoRedoState set_signals set_m_redoStack set_world
       set_m_undoStack].
  rewrite Hredo. cbn. now rewrite Hstack.
Qed.

(** X11. The limit is enforced where a command is added, not in [redo]:
    after an undo, lowering the limit to the number of entries left and
    redoing puts the undone command back on top, and the undo stack then
    holds one entry more than [m_undoLimit]. *)
Theorem redo_after_lowering_limit_exceeds_it (s : CommandManager World)
    (c : CADCommand World) (rest : list (CADCommand World)) (w1 w2 : World) :
  m_undoStack s = c :: rest ->
  rest <> [] ->
  cmd_undo c (world s) = (w1, Normal) ->
  cmd_redo c w1 = (w2, Normal) ->
  let s' := redo (setUndoLimit (Z.of_nat (length rest)) (undo s)) in
  m_undoStack s' = c :: rest /\
  m_undoLimit s' = Z.of_nat (length rest) /\
  (Z.of_nat (length (m_undoStack s')) = m_undoLimit s' + 1)%Z.
Proof.
  intros Hstack Hrest Hundo Hredo s'.
  pose proof (undo_normal s c rest w1 Hstack Hundo) as Hun.
  assert (Hu : m_undoStack (undo s) = rest) by (now rewrite Hun).
  assert (Hr : m_redoStack (undo s) = c :: m_redoStack s) by (now rewrite Hun).
  assert (Hw : world (undo s) = w1) by (now rewrite Hun).
  clear Hun.
  set (t := setUndoLimit (Z.of_nat (length rest)) (undo s)) in *.
  assert (Hlen : (1 <= length rest)%nat) by (destruct rest; [congruence|simpl; lia]).
  destruct (setUndoLimit_stacks (Z.of_nat (length rest)) (undo s))
    as (Hl & Hs & Hrs). fold t in Hl, Hs, Hrs.
  rewrite Hu in Hs. rewrite Hr in Hrs.
  replace (Z.max 1 (Z.of_nat (length rest))) with (Z.of_nat (length rest)) in * by lia.
  rewrite Nat2Z.id, firstn_all in Hs.
  assert (Hwt : world t = w1) by (rewrite <- Hw; reflexivity).
  clearbody t.
  assert (Hs' : m_undoStack s' = c :: rest /\ m_undoLimit s' = m_undoLimit t).
  { unfold s', redo. rewrite (redo_unfold t c (m_redoStack s) Hrs).
    rewrite Hwt, Hredo. cbn. now rewrite Hs. }
  destruct Hs' as [Hs1 Hs2]. rewrite Hs1, Hs2, Hl.
  split; [reflexivity|]. split; [reflexivity|]. simpl length. lia.
Qed.

End Depth.

Lemma history_depth_is_bounded_witness :
  let s := set_m_undoStack [Sample.logging_command "weld" true] Sample.fresh in
  (Z.of_nat (length (m_undoStack s)) <= m_undoLimit s)%Z /\
  depth_within_limit (undo s) /\
  depth_within_limit (redo s) /\
  depth_within_limit (endGroup s) /\
  (forall name, depth_within_limit (beginGroup name s)) /\
  (forall command, depth_within_limit (state_of (executeCommand_cmd command s))) /\
  (forall fuel commandLine,
     depth_within_limit (state_of (executeCommand fuel commandLine s))).
Proof.
  intros s. apply (history_depth_is_bounded s). vm_compute. discriminate.
Defined.

Lemma undo_then_redo_restores_stacks_witness :
  let weld := Sample.logging_command "weld" true in
  let cut := Sample.logging_command "cut" true in
  let s := set_m_undoStack [weld; cut] Sample.fresh in
  m_undoStack (undo s) = [cut] /\
  m_redoStack (undo s) = weld :: m_redoStack s /\
  m_undoStack (redo (undo s)) = m_undoStack s /\
  m_redoStack (redo (undo s)) = m_redoStack s /\
  world (redo (undo s)) = ["weld.undo"; "weld.redo"].
Proof.
  intros weld cut s.
  apply (undo_then_redo_restores_stacks s weld [cut] ["weld.undo"]
           ["weld.undo"; "weld.redo"]); reflexivity.
Defined.

Lemma redo_after_lowering_limit_exceeds_it_witness :
  let weld := Sample.logging_command "weld" true in
  let cut := Sample.logging_command "cut" true in
  let s := set_m_undoStack [weld; cut] Sample.fresh in
  let s' := redo (setUndoLimit 1 (undo s)) in
  m_undoStack s' = [weld; cut] /\
  m_undoLimit s' = 1%Z /\
  (Z.of_nat (length (m_undoStack s')) = m_undoLimit s' + 1)%Z.
Proof.
  intros weld cut s.
  apply (redo_after_lowering_limit_exceeds_it s weld [cut] ["weld.undo"]
           ["weld.undo"; "weld.redo"]); [reflexivity|discriminate|reflexivity|reflexivity].
Defined.

(** ** Groups as commands *)

Lemma undo_threw {World : Type} (s : CommandManager World) (c : CADCommand World)
    (rest : list (CADCommand World)) (w : World) (what : QString) :
  m_undoStack s = c :: rest ->
  cmd_undo c (world s) = (w, Threw what) ->
  undo s =
  set_m_undoStack (c :: rest)
    (warn (UndoFailed what) (set_world w (set_m_undoStack rest s))).
Proof.
  intros Hstack Hthrow. unfold undo.
  now rewrite (undo_unfold s c rest Hstack), Hthrow.
Qed.

(** X12. A group runs its members in insertion order on [execute()] and on
    [redo()], which calls the members' [execute()] and not their [redo()],
    and in reverse insertion order on [undo()]; in each case the first
    member that throws ends the loop. *)
Theorem group_members_run_in_order {World : Type} (name : QString)
    (members : list (CADCommand World)) (w : World) :
  cmd_execute (Group name members) w = run_forward cmd_execute members w /\
  cmd_redo (Group name members) w = run_forward cmd_execute members w /\
  cmd_undo (Group name members) w = run_forward cmd_undo (rev members) w.
Proof.
  split; [apply group_execute_forward|].
  split; [apply group_execute_forward|apply group_undo_reverse].
Qed.

(** X13. Undoing a group is not atomic.  When the members after [m] are
    undone normally and the [undo()] of [m] throws, [CommandManager::undo]
    leaves the world as it is at the throw: the later members stay undone,
    [m] and the members before it are not undone.  If what is thrown is a
    [std::exception], the call returns with a warning and the group back on
    top of the undo stack.  If it is an object of another type, the call is
    left by the exception, without a warning, and the group is gone from
    the undo stack.  The redo stack is untouched and no signal is emitted
    in both cases. *)
Theorem failed_group_undo_is_partial {World : Type} (s : CommandManager World)
    (name : QString) (before after : list (CADCommand World)) (m : CADCommand World)
    (rest : list (CADCommand World)) (w1 w2 : World) :
  m_undoStack s = Group name (before ++ m :: after) :: rest ->
  run_forward cmd_undo (rev after) (world s) = (w1, Normal) ->
  (forall what,
     cmd_undo m w1 = (w2, Threw what) ->
     undo_call s = Returned tt (undo s) /\
     world (undo s) = w2 /\
     m_undoStack (undo s) = m_undoStack s /\
     m_redoStack (undo s) = m_redoStack s /\
     warnings (undo s) = warnings s ++ [UndoFailed what] /\
     signals (undo s) = signals s) /\
  (cmd_undo m w1 = (w2, ThrewOther) ->
     undo_call s = Propagated (undo s) /\
     world (undo s) = w2 /\
     m_undoStack (undo s) = rest /\
     m_redoStack (undo s) = m_redoStack s /\
     warnings (undo s) = warnings s /\
     signals (undo s) = signals s).
Proof.
  intros Hstack Hafter.
  assert (Hg : forall completion,
            completion <> Normal -> cmd_undo m w1 = (w2, completion) ->
            cmd_undo (Group name (before ++ m :: after)) (world s) = (w2, completion)).
  { intros completion Hc Hm. rewrite group_undo_reverse, rev_app_distr. simpl rev.
    rewrite <- app_assoc, run_forward_app, Hafter. simpl. rewrite Hm.
    now destruct completion. }
  split.
  - intros what Hm. apply Hg in Hm; [|discriminate]. unfold undo.
    rewrite (undo_unfold s _ rest Hstack), Hm. cbn. now rewrite Hstack.
  - intros Hm. apply Hg in Hm; [|discriminate]. unfold undo.
    rewrite (undo_unfold s _ rest Hstack), Hm. cbn. now repeat split.
Qed.

Lemma failed_group_undo_is_partial_witness :
  let a := Sample.logging_command "a" true in
  let b := Sample.stuck_command "b" in
  let b' := Sample.wild_command "b" in
  let c := Sample.logging_command "c" true in
  let s := set_m_undoStack [Group "G" [a; b; c]] Sample.fresh in
  let t := set_m_undoStack [Group "G" [a; b'; c]] Sample.fresh in
  (undo_call s = Returned tt (undo s) /\
   world (undo s) = ["c.undo"; "b.undo"] /\
   m_undoStack (undo s) = m_undoStack s /\
   m_redoStack (undo s) = m_redoStack s /\
   warnings (undo s) = warnings s ++ [UndoFailed "undo refused"] /\
   signals (undo s) = signals s) /\
  (undo_call t = Propagated (undo t) /\
   world (undo t) = ["c.undo"; "b.undo"] /\
   m_undoStack (undo t) = [] /\
   m_redoStack (undo t) = m_redoStack t /\
   warnings (undo t) = warnings t /\
   signals (undo t) = signals t).
Proof.
  intros a b b' c s t. split.
  - apply (proj1 (failed_group_undo_is_partial s "G" [a] [c] b [] ["c.undo"]
                    ["c.undo"; "b.undo"] eq_refl eq_refl) "undo refused").
    reflexivity.
  - apply (proj2 (failed_group_undo_is_partial t "G" [a] [c] b' [] ["c.undo"]
                    ["c.undo"; "b.undo"] eq_refl eq_refl)).
    reflexivity.
Defined.

(** X14. Executing a group is not atomic either.  When the members before
    [m] execute normally and the [execute()] of [m] throws, the world keeps
    what the earlier members did, and nothing is added to the history or to
    an open group, so those effects cannot be undone.  If what is thrown is
    a [std::exception], [executeCommand] returns [false] and reports the
    failure under the group's name.  If it is an object of another type,
    [executeCommand] is left by the exception: no signal is emitted, and
    [m_commandInProgress] stays [true]. *)
Theorem failed_group_execute_is_partial {World : Type} (s : CommandManager World)
    (name : QString) (before after : list (CADCommand World)) (m : CADCommand World)
    (w1 w2 : World) :
  run_forward cmd_execute before (world s) = (w1, Normal) ->
  (forall what,
     cmd_execute m w1 = (w2, Threw what) ->
     exists s',
       executeCommand_cmd (Some (Group name (before ++ m :: after))) s
         = Returned false s' /\
       world s' = w2 /\
       m_undoStack s' = m_undoStack s /\ m_redoStack s' = m_redoStack s /\
       m_currentGroup s' = m_currentGroup s /\
       m_commandInProgress s' = false /\
       signals s' = signals s ++ [commandFailed name (execution_failed what)]) /\
  (cmd_execute m w1 = (w2, ThrewOther) ->
     exists s',
       executeCommand_cmd (Some (Group name (before ++ m :: after))) s
         = Propagated s' /\
       world s' = w2 /\
       m_undoStack s' = m_undoStack s /\ m_redoStack s' = m_redoStack s /\
       m_currentGroup s' = m_currentGroup s /\
       m_commandInProgress s' = true /\
       signals s' = signals s /\ warnings s' = warnings s).
Proof.
  intros Hbefore.
  assert (Hg : forall completion,
            completion <> Normal -> cmd_execute m w1 = (w2, completion) ->
            cmd_execute (Group name (before ++ m :: after)) (world s)
              = (w2, completion)).
  { intros completion Hc Hm.
    rewrite group_execute_forward, run_forward_app, Hbefore. simpl. rewrite Hm.
    now destruct completion. }
  split.
  - intros what Hm. apply Hg in Hm; [|discriminate].
    eexists. split; [apply (executeCommand_cmd_threw _ s w2 what Hm)|].
    repeat split.
  - intros Hm. apply Hg in Hm; [|discriminate].
    eexists. split; [apply (executeCommand_cmd_threw_other _ s w2 Hm)|].
    repeat split.
Qed.

Lemma failed_group_execute_is_partial_witness :
  let a := Sample.logging_command "a" true in
  let c := Sample.logging_command "c" true in
  let failing :=
    Atomic {| a_name := "b"; a_canUndo := true; a_canRedo := true;
              a_execute := Sample.log_throw "b.execute" "no room";
              a_undo := Sample.log_call "b.undo";
              a_redo := Sample.log_call "b.redo" |} in
  let wild :=
    Atomic {| a_name := "b"; a_canUndo := true; a_canRedo := true;
              a_execute := Sample.log_throw_other "b.execute";
              a_undo := Sample.log_call "b.undo";
              a_redo := Sample.log_call "b.redo" |} in
  (exists s',
     executeCommand_cmd (Some (Group "G" [a; failing; c])) Sample.fresh
       = Returned false s' /\
     world s' = ["a.execute"; "b.execute"] /\
     m_undoStack s' = m_undoStack Sample.fresh /\
     m_redoStack s' = m_redoStack Sample.fresh /\
     m_currentGroup s' = m_currentGroup Sample.fresh /\
     m_commandInProgress s' = false /\
     signals s' =
       signals Sample.fresh ++ [commandFailed "G" (execution_failed "no room")]) /\
  (exists s',
     executeCommand_cmd (Some (Group "G" [a; wild; c])) Sample.fresh
       = Propagated s' /\
     world s' = ["a.execute"; "b.execute"] /\
     m_undoStack s' = m_undoStack Sample.fresh /\
     m_redoStack s' = m_redoStack Sample.fresh /\
     m_currentGroup s' = m_currentGroup Sample.fresh /\
     m_commandInProgress s' = true /\
     signals s' = signals Sample.fresh /\ warnings s' = warnings Sample.fresh).
Proof.
  intros a c failing wild. split.
  - apply (proj1 (failed_group_execute_is_partial Sample.fresh "G" [a] [c] failing
                    ["a.execute"] ["a.execute"; "b.execute"] eq_refl) "no room").
    reflexivity.
  - apply (proj2 (failed_group_execute_is_partial Sample.fresh "G" [a] [c] wild
                    ["a.execute"] ["a.execute"; "b.execute"] eq_refl)).
    reflexivity.
Defined.

(** X15. [beginGroup] always leaves the new, empty group open.  Called while
    a group with members is open, it first ends that group, with a warning:
    with a limit of one or more the old group becomes the top entry of the
    undo stack and the redo stack is cleared.  Called while an empty group is
    open, it drops that group and changes neither stack. *)
Theorem beginGroup_ends_open_group {World : Type} (name : QString)
    (s : CommandManager World) :
  m_currentGroup (beginGroup name s) = Some (name, []) /\
  (forall old m members,
     m_currentGroup s = Some (old, m :: members) -> (1 <= m_undoLimit s)%Z ->
     (exists older,
        m_undoStack (beginGroup name s) = Group old (m :: members) :: older) /\
     m_redoStack (beginGroup name s) = [] /\
     warnings (beginGroup name s) = warnings s ++ [AlreadyInGroup]) /\
  (forall old,
     m_currentGroup s = Some (old, []) ->
     m_undoStack (beginGroup name s) = m_undoStack s /\
     m_redoStack (beginGroup name s) = m_redoStack s /\
     warnings (beginGroup name s) = warnings s ++ [AlreadyInGroup]).
Proof.
  split; [reflexivity|]. split.
  - intros old m members Hgroup Hlimit.
    destruct (endGroup_pushes_group (warn AlreadyInGroup s) old m members Hgroup Hlimit)
      as ([older Ho] & Hr & _).
    unfold beginGroup. rewrite Hgroup.
    split; [exists older; exact Ho|]. split; [exact Hr|].
    unfold endGroup. cbn [m_currentGroup warn set_warnings]. rewrite Hgroup. reflexivity.
  - intros old Hgroup. unfold beginGroup. rewrite Hgroup.
    rewrite (endGroup_empty_group (warn AlreadyInGroup s) old Hgroup).
    repeat split.
Qed.

Lemma beginGroup_ends_open_group_witness :
  let a := Sample.logging_command "a" true in
  let s := set_m_currentGroup (Some ("G1", [a])) Sample.fresh in
  let t := set_m_currentGroup (Some ("G1", [])) Sample.fresh in
  m_currentGroup (beginGroup "G2" s) = Some ("G2", []) /\
  ((exists older, m_undoStack (beginGroup "G2" s) = Group "G1" [a] :: older) /\
   m_redoStack (beginGroup "G2" s) = [] /\
   warnings (beginGroup "G2" s) = warnings s ++ [AlreadyInGroup]) /\
  (m_undoStack (beginGroup "G2" t) = m_undoStack t /\
   m_redoStack (beginGroup "G2" t) = m_redoStack t /\
   warnings (beginGroup "G2" t) = warnings t ++ [AlreadyInGroup]).
Proof.
  intros a s t.
  split; [apply (beginGroup_ends_open_group "G2" s)|]. split.
  - apply (proj1 (proj2 (beginGroup_ends_open_group "G2" s)) "G1" a []);
      [reflexivity | vm_compute; discriminate].
  - apply (proj2 (proj2 (beginGroup_ends_open_group "G2" t)) "G1"). reflexivity.
Defined.

(** ** What a submission leaves alone *)

(** A relation between states that holds across every step of
    [executeCommand] holds across the whole call. *)
Section Through.

Context {World : Type}.
Variable R : CommandManager World -> CommandManager World -> Prop.
Hypothesis R_refl : forall s, R s s.
Hypothesis R_trans : forall s1 s2 s3, R s1 s2 -> R s2 s3 -> R s1 s3.
Hypothesis R_undo : forall s, R s (undo s).
Hypothesis R_redo : forall s, R s (redo s).
Hypothesis R_announced : forall commandLine s, R s (announced commandLine s).
Hypothesis R_warn : forall msg s, R s (warn msg s).
Hypothesis R_emit : forall sig s, R s (emit sig s).
Hypothesis R_cmd : forall command s, R s (state_of (executeCommand_cmd command s)).
Hypothesis R_beginGroup : forall name s, R s (beginGroup name s).
Hypothesis R_endGroup : forall s, R s (endGroup s).

Lemma through_createCommand name args s :
  R s (state_of (createCommand name args s)).
Proof.
  unfold createCommand. destruct (m_commands s !! toLower name) as [info|]; [|apply R_refl].
  destruct (info_factory info args); [apply R_refl | apply R_warn | apply R_refl].
Qed.

Lemma through_dispatch fuel commandLine s :
  (forall line s0, R s0 (state_of (executeCommand fuel line s0))) ->
  isEmpty (trimmed commandLine) = false ->
  R (announced commandLine s) (state_of (executeCommand (S fuel) commandLine s)).
Proof.
  intros IH Hline. rewrite executeCommand_unfold, Hline.
  unfold tokenize_and_dispatch.
  set (s1 := announced commandLine s).
  destruct (parseCommandLine commandLine) as [|first args]; [apply R_refl|].
  destruct (is_undo_name _); [rewrite state_of_bind_returned; apply R_undo|].
  destruct (is_redo_name _); [rewrite state_of_bind_returned; apply R_redo|].
  destruct (is_repeat_name _).
  - unfold repeatLastCommand, repeatLastCommand_with.
    destruct (isEmpty (m_lastCommand s1)); [apply R_warn|].
    specialize (IH (m_lastCommand s1) s1).
    now destruct (executeCommand fuel _ _).
  - pose proof (through_createCommand (resolveAlias s1 (toLower first)) args s1) as Hc.
    destruct (createCommand _ _ _) as [[c|] s2|s2|s2|s2]; cbn [bind state_of] in *;
      try exact Hc.
    + eapply R_trans; [exact Hc|apply R_cmd].
    + eapply R_trans; [exact Hc|]. eapply R_trans; [apply R_warn|apply R_emit].
Qed.

Lemma through_executeCommand fuel : forall commandLine s,
  R s (state_of (executeCommand fuel commandLine s)).
Proof.
  induction fuel as [|fuel IH]; intros commandLine s; [apply R_refl|].
  destruct (isEmpty (trimmed commandLine)) eqn:Hline.
  - rewrite executeCommand_unfold, Hline. apply R_refl.
  - eapply R_trans; [apply R_announced|]. now apply through_dispatch.
Qed.

Lemma through_submit_each fuel : forall lines s,
  R s (state_of (submit_each fuel lines s)).
Proof.
  induction lines as [|line rest IH]; intros s; [apply R_refl|].
  cbn [submit_each].
  pose proof (through_executeCommand fuel line s) as H1.
  destruct (executeCommand fuel line s) as [ok s1|s1|s1|s1]; cbn [bind state_of] in *;
    try exact H1.
  set (s2 := if ok then s1 else warn (ScriptCommandFailed line) s1).
  assert (H2 : R s1 s2) by (unfold s2; destruct ok; [apply R_refl|apply R_warn]).
  specialize (IH s2).
  destruct (submit_each fuel rest s2); cbn [bind state_of] in *;
    eapply R_trans; eauto.
Qed.

Lemma through_executeScriptText fuel scriptText s :
  R s (state_of (executeScriptText fuel scriptText s)).
Proof.
  rewrite executeScriptText_submits_each.
  pose proof (through_submit_each fuel (submitted_lines scriptText)
                (beginGroup "Script Execution" s)) as H.
  destruct (submit_each fuel _ _); cbn [bind state_of] in *.
  - eapply R_trans; [apply R_beginGroup|]. eapply R_trans; [exact H|apply R_endGroup].
  - eapply R_trans; [apply R_beginGroup|exact H].
  - eapply R_trans; [apply R_beginGroup|exact H].
  - eapply R_trans; [apply R_beginGroup|exact H].
Qed.

Lemma through_play_loop fuel : forall commands s,
  R s (state_of (play_loop fuel commands s)).
Proof.
  induction commands as [|command rest IH]; intros s; [apply R_refl|].
  cbn [play_loop].
  pose proof (through_executeCommand fuel command s) as H1.
  destruct (executeCommand fuel command s) as [ok s1|s1|s1|s1]; cbn [bind state_of] in *;
    try exact H1.
  eapply R_trans; [exact H1|apply IH].
Qed.

Lemma through_replay fuel groupName commands s :
  R s (state_of (bind (play_loop fuel commands (beginGroup groupName s))
                   (fun _ s' => Returned tt (endGroup s')))).
Proof.
  pose proof (through_play_loop fuel commands (beginGroup groupName s)) as H.
  destruct (play_loop fuel _ _); cbn [bind state_of] in *.
  - eapply R_trans; [apply R_beginGroup|]. eapply R_trans; [exact H|apply R_endGroup].
  - eapply R_trans; [apply R_beginGroup|exact H].
  - eapply R_trans; [apply R_beginGroup|exact H].
  - eapply R_trans; [apply R_beginGroup|exact H].
Qed.

End Through.

Section Untouched.

Context {World : Type}.
Implicit Types s : CommandManager World.

Ltac fields := unfold untouched, same_settings; cbn; tauto.

Lemma untouched_refl s : untouched s s.
Proof. fields. Qed.

Lemma untouched_warn msg s : untouched s (warn msg s).
Proof. fields. Qed.

Lemma untouched_emit sig s : untouched s (emit sig s).
Proof. fields. Qed.

Lemma untouched_undo s : untouched s (undo s).
Proof.
  unfold undo, undo_call. destruct (canUndo s); cbn [negb]; [|fields].
  destruct (m_undoStack s) as [|c rest]; [fields|].
  destruct (cmd_undo c _) as [w [|what|]]; fields.
Qed.

Lemma untouched_redo s : untouched s (redo s).
Proof.
  unfold redo, redo_call. destruct (canRedo s); cbn [negb]; [|fields].
  destruct (m_redoStack s) as [|c rest]; [fields|].
  destruct (cmd_redo c _) as [w [|what|]]; fields.
Qed.

Lemma untouched_addToHistory command s : untouched s (addToHistory command s).
Proof.
  destruct command as [c|]; [|fields]. unfold addToHistory.
  destruct (cmd_canUndo c); fields.
Qed.

Lemma untouched_trans s1 s2 s3 : untouched s1 s2 -> untouched s2 s3 -> untouched s1 s3.
Proof.
  unfold untouched, same_settings.
  intros ((-> & -> & -> & -> & ->) & ->) ((-> & -> & -> & -> & ->) & ->). tauto.
Qed.

Lemma untouched_endGroup s : untouched s (endGroup s).
Proof.
  unfold endGroup. destruct (m_currentGroup s) as [[name members]|]; [|fields].
  destruct members as [|m members]; cbn [negb]; [fields|].
  apply (untouched_trans _ (addToHistory (Some (Group name (m :: members)))
                              (set_m_currentGroup None s))); [|fields].
  apply (untouched_trans _ (set_m_currentGroup None s)); [fields|].
  apply untouched_addToHistory.
Qed.

Lemma untouched_beginGroup name s : untouched s (beginGroup name s).
Proof.
  unfold beginGroup. destruct (m_currentGroup s); [|fields].
  apply (untouched_trans _ (endGroup (warn AlreadyInGroup s))); [|fields].
  apply (untouched_trans _ (warn AlreadyInGroup s)); [fields|apply untouched_endGroup].
Qed.

Lemma untouched_executeCommand_cmd command s :
  untouched s (state_of (executeCommand_cmd command s)).
Proof.
  destruct command as [c|]; [|fields].
  destruct (cmd_execute c (world s)) as [w [|what|]] eqn:E.
  - rewrite (executeCommand_cmd_normal _ _ _ E). cbn [state_of]. unfold booked.
    apply (untouched_trans _ (executed w s)); [fields|].
    destruct (m_currentGroup (executed w s)); [fields|apply untouched_addToHistory].
  - rewrite (executeCommand_cmd_threw _ _ _ _ E). fields.
  - rewrite (executeCommand_cmd_threw_other _ _ _ E). fields.
Qed.

Lemma same_settings_of_untouched s s' : untouched s s' -> same_settings s s'.
Proof. now intros [H _]. Qed.

Lemma recording_kept_of_untouched s s' : untouched s s' -> recording_kept s s'.
Proof.
  intros [(_ & _ & _ & _ & Hr) Hb]. split; [exact Hr|]. split; [|now intros _].
  exists []. now rewrite app_nil_r.
Qed.

Lemma same_settings_trans s1 s2 s3 :
  same_settings s1 s2 -> same_settings s2 s3 -> same_settings s1 s3.
Proof.
  unfold same_settings.
  intros (-> & -> & -> & -> & ->) (-> & -> & -> & -> & ->). tauto.
Qed.

Lemma recording_kept_trans s1 s2 s3 :
  recording_kept s1 s2 -> recording_kept s2 s3 -> recording_kept s1 s3.
Proof.
  intros (Hr1 & [t1 Ht1] & Hn1) (Hr2 & [t2 Ht2] & Hn2).
  split; [congruence|]. split.
  - exists (t1 ++ t2). now rewrite Ht2, Ht1, app_assoc.
  - intros H. rewrite Hn2 by congruence. now apply Hn1.
Qed.

Lemma same_settings_announced commandLine s : same_settings s (announced commandLine s).
Proof.
  unfold announced. destruct (m_commandEcho s); destruct (m_recording _);
    unfold same_settings; cbn; tauto.
Qed.

Lemma recording_kept_announced commandLine s : recording_kept s (announced commandLine s).
Proof.
  unfold announced, recording_kept.
  destruct (m_commandEcho s); destruct (m_recording s) eqn:E; cbn; rewrite ?E; cbn;
    (split; [congruence|]); (split; [|congruence]);
    first [ now exists [commandLine] | exists []; now rewrite app_nil_r ].
Qed.

(** X16. Submitting a line, or running a script, never changes the
    registry, the alias table, the undo limit, the echo setting or the
    recording flag, whatever the outcome of the call. *)
Theorem submission_keeps_settings (fuel : nat) (text : QString) s :
  same_settings s (state_of (executeCommand fuel text s)) /\
  same_settings s (state_of (executeScriptText fuel text s)).
Proof.
  split.
  - apply (through_executeCommand same_settings); intros;
      first [ apply same_settings_announced
            | eapply same_settings_trans; eassumption
            | apply same_settings_of_untouched;
              first [ apply untouched_refl | apply untouched_undo | apply untouched_redo
                    | apply untouched_warn | apply untouched_emit
                    | apply untouched_executeCommand_cmd ] ].
  - apply (through_executeScriptText same_settings); intros;
      first [ apply same_settings_announced
            | eapply same_settings_trans; eassumption
            | apply same_settings_of_untouched;
              first [ apply untouched_refl | apply untouched_undo | apply untouched_redo
                    | apply untouched_warn | apply untouched_emit
                    | apply untouched_executeCommand_cmd
                    | apply untouched_beginGroup | apply untouched_endGroup ] ].
Qed.

Lemma recording_kept_executeCommand fuel commandLine s :
  recording_kept s (state_of (executeCommand fuel commandLine s)).
Proof.
  apply (through_executeCommand recording_kept); intros;
    first [ apply recording_kept_announced
          | eapply recording_kept_trans; eassumption
          | apply recording_kept_of_untouched;
            first [ apply untouched_refl | apply untouched_undo | apply untouched_redo
                  | apply untouched_warn | apply untouched_emit
                  | apply untouched_executeCommand_cmd ] ].
Qed.

Lemma recording_appends_line (fuel : nat) (commandLine : QString) s :
  m_recording s = true -> isEmpty (trimmed commandLine) = false ->
  exists tail,
    m_recordedCommands (state_of (executeCommand (S fuel) commandLine s))
      = m_recordedCommands s ++ commandLine :: tail.
Proof.
  intros H Hline.
  assert (Hd : recording_kept (announced commandLine s)
                 (state_of (executeCommand (S fuel) commandLine s))).
  { apply (through_dispatch recording_kept); intros;
      first [ exact Hline
            | apply recording_kept_executeCommand
            | eapply recording_kept_trans; eassumption
            | apply recording_kept_of_untouched;
              first [ apply untouched_refl | apply untouched_undo | apply untouched_redo
                    | apply untouched_warn | apply untouched_emit
                    | apply untouched_executeCommand_cmd ] ]. }
  destruct Hd as (_ & [tail Ht] & _). exists tail. rewrite Ht.
  unfold announced. destruct (m_commandEcho s); cbn; rewrite H; cbn;
    now rewrite <- app_assoc.
Qed.

Lemma same_settings_executeCommand (fuel : nat) (commandLine : QString) s :
  same_settings s (state_of (executeCommand fuel commandLine s)).
Proof.
  apply (through_executeCommand same_settings); intros;
    first [ apply same_settings_announced
          | eapply same_settings_trans; eassumption
          | apply same_settings_of_untouched;
            first [ apply untouched_refl | apply untouched_undo | apply untouched_redo
                  | apply untouched_warn | apply untouched_emit
                  | apply untouched_executeCommand_cmd ] ].
Qed.

Lemma repeat_cons_or_nil {A : Type} (x : A) (l : list A) :
  l = [] \/ (exists n, l = x :: repeat x n) -> exists n, l = repeat x n.
Proof.
  intros [->|[n ->]]; [now exists 0%nat | now exists (S n)].
Qed.

(** What one submission adds to the recording buffer: nothing when the line
    is blank, and otherwise the line, followed by copies of the last command
    when the line is handed to [repeatLastCommand]. *)
Lemma recorded_by_submission (fuel : nat) : forall (commandLine : QString) s,
  m_recording s = true ->
  exists n,
    m_recordedCommands (state_of (executeCommand fuel commandLine s)) =
      m_recordedCommands s ++
      match fuel with
      | O => []
      | S _ =>
          if isEmpty (trimmed commandLine) then []
          else commandLine :: repeat (m_lastCommand s) n
      end /\
    (dispatches_to_repeat s commandLine = false -> n = 0%nat).
Proof.
  induction fuel as [|fuel IH]; intros commandLine s Hrec.
  { exists 0%nat. cbn. now rewrite app_nil_r. }
  rewrite executeCommand_unfold. unfold dispatches_to_repeat.
  destruct (isEmpty (trimmed commandLine)) eqn:Hline.
  { exists 0%nat. cbn. now rewrite app_nil_r. }
  cbn [negb andb].
  assert (Hbuf : m_recordedCommands (announced commandLine s) =
                 m_recordedCommands s ++ [commandLine]).
  { unfold announced. destruct (m_commandEcho s); cbn; now rewrite Hrec. }
  assert (Hrec1 : m_recording (announced commandLine s) = true).
  { rewrite <- Hrec. apply same_settings_announced. }
  assert (Hlast : m_lastCommand (announced commandLine s) = m_lastCommand s)
    by apply announced_keeps.
  assert (Hdone : forall s',
            untouched (announced commandLine s) s' ->
            m_recordedCommands s' =
              m_recordedCommands s ++ commandLine :: repeat (m_lastCommand s) 0).
  { intros s' [_ Hs']. rewrite Hs', Hbuf. reflexivity. }
  unfold tokenize_and_dispatch.
  destruct (parseCommandLine commandLine) as [|first args].
  { exists 0%nat. split; [apply Hdone, untouched_refl|reflexivity]. }
  cbv zeta. rewrite resolveAlias_announced.
  set (s1 := announced commandLine s) in *.
  set (name := resolveAlias s (toLower first)).
  destruct (is_undo_name name) eqn:Hu.
  { exists 0%nat. rewrite state_of_bind_returned.
    split; [apply Hdone, untouched_undo|reflexivity]. }
  destruct (is_redo_name name) eqn:Hr.
  { exists 0%nat. rewrite state_of_bind_returned.
    split; [apply Hdone, untouched_redo|reflexivity]. }
  destruct (is_repeat_name name) eqn:Hp.
  - rewrite state_of_bind_returned. unfold repeatLastCommand, repeatLastCommand_with.
    destruct (isEmpty (m_lastCommand s1)) eqn:Hempty.
    { exists 0%nat. split; [apply Hdone, untouched_warn|discriminate]. }
    rewrite state_of_bind_returned.
    destruct (IH (m_lastCommand s1) s1 Hrec1) as (n' & Hn' & _).
    rewrite Hlast in *. rewrite Hbuf in Hn'.
    destruct (repeat_cons_or_nil (m_lastCommand s)
                match fuel with
                | O => []
                | S _ =>
                    if isEmpty (trimmed (m_lastCommand s)) then []
                    else m_lastCommand s :: repeat (m_lastCommand s) n'
                end) as [n Hn].
    { destruct fuel; [now left|].
      destruct (isEmpty (trimmed (m_lastCommand s))); [now left|right; now exists n']. }
    exists n. split; [|discriminate].
    rewrite Hn'. rewrite Hn. now rewrite <- app_assoc.
  - exists 0%nat. split; [|reflexivity].
    pose proof (through_createCommand untouched untouched_refl untouched_warn
                  name args s1) as Hc.
    destruct (createCommand name args s1) as [[c|] s2|s2|s2|s2];
      cbn [bind state_of] in *; apply Hdone;
      first [ exact Hc
            | eapply untouched_trans; [exact Hc|apply untouched_executeCommand_cmd]
            | eapply untouched_trans; [exact Hc|];
              eapply untouched_trans; [apply untouched_warn|apply untouched_emit] ].
Qed.

(** X17. While a recording is active, every submitted line that is not
    blank is appended verbatim to the recording buffer before it is
    tokenized, whether or not it names a command and whatever its execution
    does.  Nothing else is appended, except behind a line that is handed to
    [repeatLastCommand]: there the re-submitted last command follows, once
    for each nested re-submission.  While no recording is active the buffer
    is not changed. *)
Theorem recording_captures_submitted_line (fuel : nat) (commandLine : QString) s :
  (m_recording s = false ->
     m_recordedCommands (state_of (executeCommand fuel commandLine s))
       = m_recordedCommands s) /\
  (m_recording s = true -> isEmpty (trimmed commandLine) = false ->
     exists n,
       m_recordedCommands (state_of (executeCommand (S fuel) commandLine s))
         = m_recordedCommands s ++ commandLine :: repeat (m_lastCommand s) n /\
       (dispatches_to_repeat s commandLine = false -> n = 0%nat)).
Proof.
  split.
  - intros H. now apply (recording_kept_executeCommand fuel commandLine s).
  - intros Hrec Hline.
    destruct (recorded_by_submission (S fuel) commandLine s Hrec) as (n & Hn & H0).
    rewrite Hline in Hn. now exists n.
Qed.

End Untouched.

Lemma recording_captures_submitted_line_witness :
  let s := set_m_recording true Sample.fresh in
  m_recordedCommands (state_of (executeCommand 1 "frob 1" Sample.fresh))
    = m_recordedCommands Sample.fresh /\
  exists n,
    m_recordedCommands (state_of (executeCommand 1 "frob 1" s))
      = m_recordedCommands s ++ "frob 1" :: repeat (m_lastCommand s) n /\
    (dispatches_to_repeat s "frob 1" = false -> n = 0%nat).
Proof.
  intros s. split.
  - apply (proj1 (recording_captures_submitted_line 1 "frob 1" Sample.fresh)).
    reflexivity.
  - apply (proj2 (recording_captures_submitted_line 0 "frob 1" s)); reflexivity.
Defined.

(** ** Lines without tokens *)

Lemma ltrim_blank (q : QString) : isEmpty (ltrim q) = all_chars isSpace q.
Proof.
  induction q as [|c q IH]; [reflexivity|]. simpl.
  destruct (isSpace c); [exact IH|reflexivity].
Qed.

Lemma rtrim_keeps_first (c : ascii) (q : QString) :
  isSpace c = false -> isEmpty (rtrim (String c q)) = false.
Proof. intros H. simpl. now rewrite H. Qed.

Lemma ltrim_starts_with_nonspace (q : QString) :
  match ltrim q with
  | EmptyString => True
  | String c _ => isSpace c = false
  end.
Proof.
  induction q as [|c q IH]; [exact I|]. simpl.
  destruct (isSpace c) eqn:E; [exact IH|exact E].
Qed.

(** A line is blank for [executeCommand] exactly when all its characters
    are whitespace. *)
Lemma trimmed_blank (q : QString) : isEmpty (trimmed q) = all_chars isSpace q.
Proof.
  rewrite <- ltrim_blank. unfold trimmed.
  pose proof (ltrim_starts_with_nonspace q) as H.
  destruct (ltrim q) as [|c r]; [reflexivity|].
  now rewrite rtrim_keeps_first.
Qed.

(** X18. A line of whitespace only is rejected before anything happens: the
    call returns [false] and the state is unchanged, so the line is neither
    echoed nor recorded.  A line that is not blank but yields no token, such
    as a line of double quotes, is echoed and recorded like any other and
    then returns [false] silently: no failure signal, no warning, and no
    change to the history or the world. *)
Theorem lines_without_tokens {World : Type} (fuel : nat) (commandLine : QString)
    (s : CommandManager World) :
  (all_chars isSpace commandLine = true ->
     executeCommand (S fuel) commandLine s = Returned false s) /\
  (all_chars isSpace commandLine = false -> parseCommandLine commandLine = [] ->
     executeCommand (S fuel) commandLine s = Returned false (announced commandLine s) /\
     signals (announced commandLine s) =
       signals s ++ (if m_commandEcho s then [commandExecuted commandLine] else []) /\
     m_recordedCommands (announced commandLine s) =
       m_recordedCommands s ++ (if m_recording s then [commandLine] else []) /\
     warnings (announced commandLine s) = warnings s /\
     m_undoStack (announced commandLine s) = m_undoStack s /\
     m_redoStack (announced commandLine s) = m_redoStack s /\
     world (announced commandLine s) = world s).
Proof.
  split.
  - intros H. now rewrite executeCommand_unfold, trimmed_blank, H.
  - intros H Hparse.
    split; [rewrite executeCommand_unfold, trimmed_blank, H;
            unfold tokenize_and_dispatch; now rewrite Hparse|].
    split; [apply announced_signals|].
    pose proof (announced_keeps commandLine s) as (_ & _ & Hu & Hr & _ & _ & Hw & Hwarn).
    split; [|tauto].
    unfold announced. destruct (m_commandEcho s); destruct (m_recording s) eqn:E;
      cbn; rewrite ?E; cbn; now rewrite ?app_nil_r.
Qed.

Lemma lines_without_tokens_witness :
  let quotes := String quote_char (String quote_char EmptyString) in
  executeCommand 1 "   " Sample.fresh = Returned false Sample.fresh /\
  executeCommand 1 quotes Sample.fresh = Returned false (announced quotes Sample.fresh) /\
  signals (announced quotes Sample.fresh) = signals Sample.fresh ++ [commandExecuted quotes].
Proof.
  intros quotes.
  pose proof (lines_without_tokens 0 "   " Sample.fresh) as [Hblank _].
  pose proof (lines_without_tokens 0 quotes Sample.fresh) as [_ Hquotes].
  specialize (Hblank eq_refl). specialize (Hquotes eq_refl eq_refl).
  split; [exact Hblank|]. split; [apply Hquotes|apply Hquotes].
Defined.

(** ** The depth of the recursion through [repeat] *)

Section Fuel.

Context {World : Type}.
Implicit Types s : CommandManager World.

Lemma dispatch_to_command_ends (commandLine n : QString) (args : list QString) s s' :
  bind (createCommand n args s) (fun command s2 =>
    match command with
    | Some c => executeCommand_cmd (Some c) s2
    | None =>
        Returned false
          (emit (commandFailed commandLine (unknown_command n))
             (warn (WarnError (unknown_command n)) s2))
    end) <> OutOfFuel s'.
Proof.
  unfold createCommand. destruct (m_commands s !! toLower n) as [info|];
    [|discriminate].
  destruct (info_factory info args) as [[c|]|what|]; cbn [bind]; try discriminate.
  unfold executeCommand_cmd.
  destruct (cmd_execute c _) as [w [|what|]]; discriminate.
Qed.

(** A line that is not handed to [repeatLastCommand] is dispatched without
    any recursive call. *)
Lemma one_level_is_enough fuel commandLine s :
  dispatches_to_repeat s commandLine = false ->
  executeCommand (S fuel) commandLine s = executeCommand 1 commandLine s /\
  forall s', executeCommand 1 commandLine s <> OutOfFuel s'.
Proof.
  intros H. rewrite !executeCommand_unfold. unfold dispatches_to_repeat in H.
  destruct (isEmpty (trimmed commandLine)); [split; [reflexivity|discriminate]|].
  cbn [negb andb] in H. unfold tokenize_and_dispatch.
  destruct (parseCommandLine commandLine) as [|first args];
    [split; [reflexivity|discriminate]|].
  rewrite resolveAlias_announced. rewrite H.
  destruct (is_undo_name _).
  { split; [reflexivity|].
    destruct (undo_call_ends (announced commandLine s)) as [E|E]; rewrite E;
      discriminate. }
  destruct (is_redo_name _).
  { split; [reflexivity|].
    destruct (redo_call_ends (announced commandLine s)) as [E|E]; rewrite E;
      discriminate. }
  split; [reflexivity|]. apply dispatch_to_command_ends.
Qed.

Lemma dispatches_to_repeat_announced commandLine line s :
  dispatches_to_repeat (announced commandLine s) line = dispatches_to_repeat s line.
Proof.
  unfold dispatches_to_repeat.
  destruct (parseCommandLine line); [reflexivity|]. now rewrite resolveAlias_announced.
Qed.

(** X19. The recursion between [executeCommand] and [repeatLastCommand] is
    at most two calls deep unless the last command is itself a line that is
    handed to [repeatLastCommand]: in every other state, a submission ends
    within two nested calls, and a larger bound gives the same outcome. *)
Theorem two_levels_are_enough (fuel : nat) (commandLine : QString) s :
  dispatches_to_repeat s (m_lastCommand s) = false ->
  executeCommand (S (S fuel)) commandLine s = executeCommand 2 commandLine s /\
  forall s', executeCommand 2 commandLine s <> OutOfFuel s'.
Proof.
  intros H. rewrite !executeCommand_unfold.
  destruct (isEmpty (trimmed commandLine)); [split; [reflexivity|discriminate]|].
  unfold tokenize_and_dispatch.
  destruct (parseCommandLine commandLine) as [|first args];
    [split; [reflexivity|discriminate]|].
  destruct (is_undo_name _).
  { split; [reflexivity|].
    destruct (undo_call_ends (announced commandLine s)) as [E|E]; rewrite E;
      discriminate. }
  destruct (is_redo_name _).
  { split; [reflexivity|].
    destruct (redo_call_ends (announced commandLine s)) as [E|E]; rewrite E;
      discriminate. }
  destruct (is_repeat_name _).
  - unfold repeatLastCommand, repeatLastCommand_with.
    set (s1 := announced commandLine s).
    assert (Hlast : m_lastCommand s1 = m_lastCommand s) by apply announced_keeps.
    destruct (isEmpty (m_lastCommand s1)); [split; [reflexivity|discriminate]|].
    assert (H1 : dispatches_to_repeat s1 (m_lastCommand s1) = false)
      by (rewrite Hlast; unfold s1; now rewrite dispatches_to_repeat_announced).
    destruct (one_level_is_enough fuel (m_lastCommand s1) s1 H1) as [E N].
    rewrite E. split; [reflexivity|].
    intros s'. specialize (N s').
    destruct (executeCommand 1 (m_lastCommand s1) s1); cbn; congruence.
  - split; [reflexivity|]. intros s'. apply dispatch_to_command_ends.
Qed.

End Fuel.

Lemma two_levels_are_enough_witness :
  let s := set_m_lastCommand "circle 1" Sample.fresh in
  executeCommand 7 "repeat" s = executeCommand 2 "repeat" s /\
  forall s', executeCommand 2 "repeat" s <> OutOfFuel s'.
Proof.
  intros s. apply (two_levels_are_enough 5 "repeat" s). vm_compute. reflexivity.
Defined.

(** ** The engine as constructed *)

Lemma inert_new {World : Type} (w : World) : inert (CommandManager_new w).
Proof.
  assert (Hnull : forall k info args,
            m_commands (CommandManager_new w) !! k = Some info ->
            info_factory info args = Made None).
  { intros k info args H.
    unfold CommandManager_new, initializeBuiltinCommands, registerBuiltinCommand,
      registerAlias in H.
    cbn [m_commands set_m_commands set_m_aliases] in H.
    repeat (apply lookup_insert_Some in H;
            destruct H as [[_ <-]|[_ H]]; [reflexivity|]).
    rewrite lookup_empty in H. discriminate. }
  split; [|split; [|repeat split]].
  - intros k info args c H. now rewrite (Hnull k info args H).
  - intros k info args H. now rewrite (Hnull k info args H).
Qed.

Lemma inert_same {World : Type} (s s' : CommandManager World) :
  m_commands s' = m_commands s -> m_undoStack s' = m_undoStack s ->
  m_redoStack s' = m_redoStack s -> m_lastCommand s' = m_lastCommand s ->
  inert s -> inert s'.
Proof. unfold inert. intros -> -> -> ->. auto. Qed.

(** X20. The engine as constructed cannot run a command: its three built-in
    factories return null pointers.  In such an engine, and in every state
    that submissions lead to from it, every submitted line returns normally,
    the history stays empty, and the world is left as it was. *)
Theorem constructed_engine_runs_no_command {World : Type} :
  (forall w : World, inert (CommandManager_new w)) /\
  (forall (s : CommandManager World) fuel commandLine,
     inert s ->
     exists ok s',
       executeCommand (S fuel) commandLine s = Returned ok s' /\
       inert s' /\ world s' = world s).
Proof.
  split; [apply inert_new|].
  intros s fuel commandLine H. rewrite executeCommand_unfold.
  destruct (isEmpty (trimmed commandLine)); [now exists false, s|].
  unfold tokenize_and_dispatch.
  pose proof (announced_keeps commandLine s) as (_ & Hc & Hu & Hr & _ & Hl & Hw & _).
  assert (Ha : inert (announced commandLine s)) by (now apply (inert_same s)).
  set (s1 := announced commandLine s) in *.
  destruct H as (Hfac & Hother & Hus & Hrs & Hls).
  destruct (parseCommandLine commandLine) as [|first args]; [now exists false, s1|].
  destruct (is_undo_name _).
  { rewrite undo_call_on_empty_stack by congruence.
    exists true, (warn CannotUndo s1). split; [reflexivity|].
    split; [|exact Hw]. now apply (inert_same s1). }
  destruct (is_redo_name _).
  { rewrite redo_call_on_empty_stack by congruence.
    exists true, (warn CannotRedo s1). split; [reflexivity|].
    split; [|exact Hw]. now apply (inert_same s1). }
  destruct (is_repeat_name _).
  { unfold repeatLastCommand, repeatLastCommand_with. rewrite Hl, Hls. cbn.
    exists true, (warn NoPreviousCommand s1). split; [reflexivity|].
    split; [|exact Hw]. now apply (inert_same s1). }
  unfold createCommand.
  destruct (m_commands s1 !! toLower _) as [info|] eqn:E.
  - rewrite Hc in E.
    destruct (info_factory info args) as [[c|]|what|] eqn:Ef.
    + exfalso. exact (Hfac _ info args c E Ef).
    + eexists _, _. split; [reflexivity|]. split; [|exact Hw]. now apply (inert_same s1).
    + eexists _, _. split; [reflexivity|]. split; [|exact Hw]. now apply (inert_same s1).
    + exfalso. exact (Hother _ info args E Ef).
  - eexists _, _. split; [reflexivity|]. split; [|exact Hw]. now apply (inert_same s1).
Qed.

Lemma constructed_engine_runs_no_command_witness :
  exists ok s',
    executeCommand 1 "line 0,0 5,5" Sample.fresh = Returned ok s' /\
    inert s' /\ world s' = world Sample.fresh.
Proof.
  apply (proj2 (@constructed_engine_runs_no_command Sample.Trace) Sample.fresh 0
           "line 0,0 5,5").
  apply (proj1 (@constructed_engine_runs_no_command Sample.Trace) []).
Defined.

(** ** Scripts as groups *)

Lemma endGroup_closes {World : Type} (s : CommandManager World) :
  m_currentGroup (endGroup s) = None.
Proof.
  unfold endGroup. destruct (m_currentGroup s) as [[name members]|] eqn:E; [|exact E].
  reflexivity.
Qed.

(** The submissions stop at the first line whose submission does not
    return. *)
Lemma submit_each_stops {World : Type} (fuel : nat) (line : QString)
    (after : list QString) (s2 : CommandManager World) :
  forall (before : list QString) (s : CommandManager World) oks s1,
  submit_each fuel before s = Returned oks s1 ->
  (executeCommand fuel line s1 = Faulted s2 ->
   submit_each fuel (before ++ line :: after) s = Faulted s2) /\
  (executeCommand fuel line s1 = Propagated s2 ->
   submit_each fuel (before ++ line :: after) s = Propagated s2).
Proof.
  induction before as [|b before IH]; intros s oks s1 H.
  - cbn in H. inversion H; subst. cbn [app submit_each].
    split; intros E; now rewrite E.
  - cbn [app submit_each] in *.
    destruct (executeCommand fuel b s) as [ok sb|sb|sb|sb]; cbn [bind] in *;
      try discriminate.
    set (sb' := if ok then sb else warn (ScriptCommandFailed b) sb) in *.
    destruct (submit_each fuel before sb') as [oks' s1'|s1'|s1'|s1'] eqn:Eb;
      cbn [bind] in H; try discriminate.
    inversion H; subst.
    destruct (IH sb' oks' s1 Eb) as [IHf IHp].
    split; intros E; [rewrite (IHf E)|rewrite (IHp E)]; reflexivity.
Qed.

(** X21. [executeScriptText] opens the group [Script Execution], ending
    with a warning any group that was open, and submits the lines that are
    not skipped one after the other, going on after a line that returned
    [false].  When every submission has returned, it ends the group and
    returns the conjunction of the results; no group is open then, not even
    one the caller had opened, and a script without a submitted line
    returns [true].  A submission that faults, as that of every line whose
    command executes does, or that is left by an exception, ends the script
    there: the lines after it are not submitted, the group is not ended,
    and [executeScriptText] does not return. *)
Theorem script_runs_in_its_own_group {World : Type} (fuel : nat) (scriptText : QString)
    (s : CommandManager World) :
  executeScriptText fuel scriptText s =
    bind (submit_each fuel (submitted_lines scriptText)
            (beginGroup "Script Execution" s))
      (fun oks s' => Returned (forallb id oks) (endGroup s')) /\
  (forall ok s', executeScriptText fuel scriptText s = Returned ok s' ->
                 m_currentGroup s' = None) /\
  (submitted_lines scriptText = [] ->
     executeScriptText fuel scriptText s =
     Returned true (endGroup (beginGroup "Script Execution" s))) /\
  (forall before line after oks s1 s2,
     submitted_lines scriptText = before ++ line :: after ->
     submit_each fuel before (beginGroup "Script Execution" s) = Returned oks s1 ->
     (executeCommand fuel line s1 = Faulted s2 ->
      executeScriptText fuel scriptText s = Faulted s2) /\
     (executeCommand fuel line s1 = Propagated s2 ->
      executeScriptText fuel scriptText s = Propagated s2)).
Proof.
  pose proof (executeScriptText_submits_each fuel scriptText s) as E.
  split; [exact E|]. split; [|split].
  - intros ok s'. rewrite E.
    destruct (submit_each fuel _ _) as [oks s1|s1|s1|s1]; cbn [bind]; try discriminate.
    intros [= _ <-]. apply endGroup_closes.
  - intros H. rewrite E, H. reflexivity.
  - intros before line after oks s1 s2 Hlines Hbefore. rewrite E, Hlines.
    destruct (submit_each_stops fuel line after s2 before _ oks s1 Hbefore)
      as [Hf Hp].
    split; intros Hline; [rewrite (Hf Hline)|rewrite (Hp Hline)]; reflexivity.
Qed.

Lemma script_runs_in_its_own_group_witness :
  let text := Sample.script_of ["; a comment"; "   "; "# another"] in
  let s := set_m_currentGroup (Some ("mine", [])) Sample.fresh in
  let moves := Sample.script_of ["frob"; "move 1"; "undo"] in
  let t := Sample.with_move in
  (executeScriptText 1 text s =
     Returned true (endGroup (beginGroup "Script Execution" s)) /\
   m_currentGroup (endGroup (beginGroup "Script Execution" s)) = None) /\
  exists s2,
    executeScriptText 1 moves t = Faulted s2 /\
    m_currentGroup s2 =
      Some ("Script Execution", [Sample.logging_command "move" true]) /\
    signals s2 =
      [groupingChanged true; commandExecuted "frob";
       commandFailed "frob" "Unknown command: frob"; commandExecuted "move 1"].
Proof.
  intros text s moves t. split.
  - pose proof (script_runs_in_its_own_group 1 text s) as (_ & Hclosed & Hempty & _).
    specialize (Hempty ltac:(vm_compute; reflexivity)).
    split; [exact Hempty|]. exact (Hclosed _ _ Hempty).
  - pose proof (script_runs_in_its_own_group 1 moves t) as (_ & _ & _ & Hstop).
    pose (s1 := state_of (submit_each 1 ["frob"] (beginGroup "Script Execution" t))).
    pose (s2 := state_of (executeCommand 1 "move 1" s1)).
    specialize (Hstop ["frob"] "move 1" ["undo"] [false] s1 s2).
    specialize (Hstop ltac:(vm_compute; reflexivity) ltac:(vm_compute; reflexivity)).
    destruct Hstop as [Hfault _].
    specialize (Hfault ltac:(vm_compute; reflexivity)).
    exists s2. split; [exact Hfault|]. vm_compute. split; reflexivity.
Defined.

Lemma rtrim_nonspace_first (c : ascii) (q : QString) :
  isSpace c = false -> rtrim (String c q) = String c (rtrim q).
Proof. intros H. simpl. now rewrite H. Qed.

Lemma rtrim_idem (q : QString) : rtrim (rtrim q) = rtrim q.
Proof.
  induction q as [|c q IH]; [reflexivity|]. simpl.
  destruct (isSpace c && isEmpty (rtrim q)) eqn:E; [reflexivity|].
  simpl. now rewrite IH, E.
Qed.

Lemma trimmed_idem (q : QString) : trimmed (trimmed q) = trimmed q.
Proof.
  unfold trimmed. pose proof (ltrim_starts_with_nonspace q) as H.
  destruct (ltrim q) as [|c r]; [reflexivity|].
  rewrite (rtrim_nonspace_first c r H). simpl ltrim. rewrite H.
  rewrite (rtrim_nonspace_first c _ H). now rewrite rtrim_idem.
Qed.

(** X22. The lines a script submits are already trimmed, are not blank and
    do not begin with [;] or [#]: [executeCommand] never rejects one of them
    as blank. *)
Theorem submitted_lines_are_trimmed (scriptText : QString) :
  Forall (fun line =>
            trimmed line = line /\ isEmpty (trimmed line) = false /\
            startsWith ";" line = false /\ startsWith "#" line = false)
    (submitted_lines scriptText).
Proof.
  unfold submitted_lines. apply List.Forall_forall. intros line Hin.
  apply filter_In in Hin. destruct Hin as [Hin Hskip].
  apply in_map_iff in Hin. destruct Hin as (raw & <- & _).
  unfold skipped in Hskip. apply negb_true_iff in Hskip.
  apply orb_false_iff in Hskip. destruct Hskip as [Hskip H2].
  apply orb_false_iff in Hskip. destruct Hskip as [H0 H1].
  rewrite trimmed_idem. auto.
Qed.

(** ** Completion and help *)

Section Completion.

Context {World : Type}.
Implicit Types s : CommandManager World.

Lemma elem_of_keys {V : Type} (m : gmap string V) (n : string) :
  n ∈ (map_to_list m).*1 <-> is_Some (m !! n).
Proof.
  rewrite list_elem_of_fmap. split.
  - intros ([k v] & -> & H). apply elem_of_map_to_list in H. now exists v.
  - intros [v H]. exists (n, v). split; [reflexivity|]. now apply elem_of_map_to_list.
Qed.

Lemma elem_of_filter_list (f : string -> bool) (l : list string) (n : string) :
  n ∈ List.filter f l <-> n ∈ l /\ f n = true.
Proof. rewrite !list_elem_of_In. apply filter_In. Qed.

(** X23. [getAvailableCommands] lists exactly the keys under which a command
    is registered, each once, in ascending order. *)
Theorem available_commands_sorted_and_complete s :
  StronglySorted String.le (getAvailableCommands s) /\
  NoDup (getAvailableCommands s) /\
  forall n, n ∈ getAvailableCommands s <-> is_Some (m_commands s !! n).
Proof.
  unfold getAvailableCommands, sort_strings. cbv zeta. split; [|split].
  - apply StronglySorted_merge_sort; apply _.
  - rewrite merge_sort_Permutation. apply NoDup_fst_map_to_list.
  - intros n. rewrite merge_sort_Permutation. apply elem_of_keys.
Qed.

(** The keys of a map are listed once each. *)
Lemma count_occ_keys {V : Type} (m : gmap string V) (n : string) :
  count_occ String.string_dec (map_to_list m).*1 n =
  match m !! n with Some _ => 1%nat | None => 0%nat end.
Proof.
  pose proof (NoDup_fst_map_to_list m) as Hnodup.
  apply NoDup_ListNoDup in Hnodup.
  pose proof (proj1 (List.NoDup_count_occ String.string_dec _) Hnodup n) as Hle.
  pose proof (elem_of_keys m n) as Hin. rewrite list_elem_of_In in Hin.
  pose proof (List.count_occ_In String.string_dec (map_to_list m).*1 n) as Hpos.
  destruct (m !! n) as [v|].
  - assert (List.In n (map_to_list m).*1) as Hn by (apply Hin; eauto).
    apply Hpos in Hn. lia.
  - destruct (count_occ String.string_dec (map_to_list m).*1 n) as [|k] eqn:E;
      [reflexivity|].
    assert (List.In n (map_to_list m).*1) as Hn by (apply Hpos; lia).
    apply Hin in Hn. destruct Hn as [v Hv]. discriminate Hv.
Qed.

Lemma count_occ_filter_list (f : string -> bool) (l : list string) (n : string) :
  count_occ String.string_dec (List.filter f l) n =
  if f n then count_occ String.string_dec l n else 0%nat.
Proof.
  induction l as [|x l IH]; [now destruct (f n)|].
  cbn [List.filter]. destruct (f x) eqn:Ex.
  - cbn [count_occ]. destruct (String.string_dec x n) as [->|Hne].
    + rewrite Ex in *. now rewrite IH.
    + exact IH.
  - rewrite IH. cbn [count_occ]. destruct (String.string_dec x n) as [->|Hne];
      [now rewrite Ex|reflexivity].
Qed.

(** X24. [getCommandCompletions] returns, in ascending order, the command
    keys and the alias keys that start with the lower-cased [partial], and
    nothing else: a key occurs once for being a command and once for being
    an alias, so that a key that is both is listed twice, and every other
    key once. *)
Theorem completions_sorted_and_complete (partial : QString) s :
  StronglySorted String.le (getCommandCompletions partial s) /\
  (forall n,
     n ∈ getCommandCompletions partial s <->
     String.prefix (toLower partial) n = true /\
     (is_Some (m_commands s !! n) \/ is_Some (m_aliases s !! n))) /\
  (forall n,
     count_occ String.string_dec (getCommandCompletions partial s) n =
     if String.prefix (toLower partial) n
     then (match m_commands s !! n with Some _ => 1 | None => 0 end +
           match m_aliases s !! n with Some _ => 1 | None => 0 end)%nat
     else 0%nat) /\
  (forall n,
     String.prefix (toLower partial) n = true ->
     is_Some (m_commands s !! n) -> is_Some (m_aliases s !! n) ->
     ~ NoDup (getCommandCompletions partial s)).
Proof.
  unfold getCommandCompletions, sort_strings. cbv zeta. split; [|split; [|split]].
  - apply StronglySorted_merge_sort; apply _.
  - intros n. rewrite merge_sort_Permutation, elem_of_app, !elem_of_filter_list,
      !elem_of_keys. tauto.
  - intros n.
    rewrite (proj1 (Permutation_count_occ String.string_dec _ _)
               (merge_sort_Permutation String.le _) n).
    rewrite List.count_occ_app, !count_occ_filter_list, !count_occ_keys.
    now destruct (String.prefix (toLower partial) n).
  - intros n Hp Hc Ha Hnodup. rewrite merge_sort_Permutation in Hnodup.
    apply NoDup_app in Hnodup. destruct Hnodup as (_ & Hdisjoint & _).
    apply (Hdisjoint n); apply elem_of_filter_list; split; try exact Hp;
      now apply elem_of_keys.
Qed.

(** X25. Help is looked up without regard to case, and a command takes
    precedence over an alias of the same name.  A command registered with
    [registerBuiltinCommand] answers with its help text; one registered
    with [registerCommand] has no help text and answers with the empty
    string.  A name that is only an alias answers with the help of its
    target, prefixed, when the target is registered, and with the text
    [No help available] and the name as typed when it is not. *)
Theorem help_lookup (command : QString) s :
  (forall info, m_commands s !! toLower command = Some info ->
     getCommandHelp command s = info_help info) /\
  (forall name help factory, toLower command = toLower name ->
     getCommandHelp command (registerBuiltinCommand name help factory s) = help /\
     getCommandHelp command (registerCommand name factory s) = EmptyString) /\
  (forall target info,
     m_commands s !! toLower command = None ->
     m_aliases s !! toLower command = Some target ->
     m_commands s !! target = Some info ->
     getCommandHelp command s = "Alias for " +:+ target +:+ ": " +:+ info_help info) /\
  (m_commands s !! toLower command = None ->
   (m_aliases s !! toLower command = None \/
    exists target, m_aliases s !! toLower command = Some target /\
                   m_commands s !! target = None) ->
   getCommandHelp command s = "No help available for command: " +:+ command).
Proof.
  unfold getCommandHelp. cbv zeta. split; [|split; [|split]].
  - intros info H. now rewrite H.
  - intros name help factory H. unfold registerBuiltinCommand, registerCommand.
    cbn [m_commands set_m_commands]. now rewrite H, !lookup_insert_eq.
  - intros target info Hc Ha Ht. now rewrite Hc, Ha, Ht.
  - intros Hc [Ha|(target & Ha & Ht)]; rewrite Hc, Ha; [reflexivity|now rewrite Ht].
Qed.

End Completion.

Lemma completions_sorted_and_complete_witness :
  let s := registerAlias "line" "circle" Sample.fresh in
  "line" ∈ getCommandCompletions "LI" s /\
  ~ NoDup (getCommandCompletions "LI" s).
Proof.
  intros s.
  pose proof (completions_sorted_and_complete "LI" s) as (_ & Hin & _ & Hdup).
  assert (Hc : is_Some (m_commands s !! "line")) by (vm_compute; eauto).
  assert (Ha : is_Some (m_aliases s !! "line")) by (vm_compute; eauto).
  split.
  - apply Hin. split; [reflexivity|now left].
  - apply (Hdup "line"); [reflexivity|exact Hc|exact Ha].
Defined.

Lemma help_lookup_witness :
  getCommandHelp "CIRCLE" Sample.fresh = "Draw a circle" /\
  getCommandHelp "Move" Sample.with_move = EmptyString /\
  getCommandHelp "Rect" Sample.fresh = "Alias for rectangle: Draw a rectangle" /\
  getCommandHelp "Z" Sample.fresh = "No help available for command: Z".
Proof.
  pose proof (help_lookup "CIRCLE" Sample.fresh) as (H1 & _).
  pose proof (help_lookup "Move" Sample.fresh) as (_ & H2 & _).
  pose proof (help_lookup "Rect" Sample.fresh) as (_ & _ & H3 & _).
  pose proof (help_lookup "Z" Sample.fresh) as (_ & _ & _ & H4).
  split; [|split; [|split]].
  - apply (H1 {| info_name := "circle"; info_help := "Draw a circle";
                 info_factory := fun _ => Made None |}).
    vm_compute. reflexivity.
  - apply (H2 "Move" EmptyString
              (fun _ => Made (Some (Sample.logging_command "move" true))) eq_refl).
  - apply (H3 "rectangle"
              {| info_name := "rectangle"; info_help := "Draw a rectangle";
                 info_factory := fun _ => Made None |});
      vm_compute; reflexivity.
  - apply H4; [vm_compute; reflexivity|]. right. exists "zoom".
    split; vm_compute; reflexivity.
Defined.

(** ** Macros *)

Lemma split_on_line (line : QString) : forall cur rest,
  contains_char newline_char line = false ->
  split_on newline_char (line +:+ String newline_char rest) cur =
  (cur +:+ line) :: split_on newline_char rest EmptyString.
Proof.
  induction line as [|c line IH]; intros cur rest H.
  - rewrite append_nil_l, append_nil_r. simpl. reflexivity.
  - simpl in H. apply orb_false_iff in H. destruct H as [Hc Hl].
    rewrite append_cons. cbn [split_on]. rewrite Hc.
    rewrite IH by exact Hl. now rewrite append_assoc.
Qed.

Lemma split_on_written_lines (lines : list QString) :
  Forall (fun line => contains_char newline_char line = false) lines ->
  split_on newline_char (written_lines lines) EmptyString = lines ++ [EmptyString].
Proof.
  induction lines as [|line lines IH]; intros H; [reflexivity|].
  apply Forall_cons_iff in H. destruct H as [Hl Hls].
  cbn [written_lines]. rewrite split_on_line by exact Hl.
  rewrite append_nil_l, IH by exact Hls. reflexivity.
Qed.

Lemma submitted_of_nonempty (lines : list QString) :
  List.filter (fun l => negb (skipped l))
    (List.map trimmed (List.filter (fun p => negb (isEmpty p)) lines)) =
  List.filter (fun l => negb (skipped l)) (List.map trimmed lines).
Proof.
  induction lines as [|line lines IH]; [reflexivity|].
  destruct line as [|c line]; cbn [List.filter isEmpty negb List.map].
  - exact IH.
  - destruct (negb (skipped (trimmed (String c line)))); now rewrite IH.
Qed.

Lemma submitted_written_lines (commands : list QString) :
  Forall (fun line => contains_char newline_char line = false) commands ->
  submitted_lines (written_lines commands) =
    List.filter (fun l => negb (skipped l)) (List.map trimmed commands).
Proof.
  intros H. unfold submitted_lines, split_SkipEmptyParts.
  rewrite split_on_written_lines by exact H.
  rewrite List.filter_app. simpl. rewrite app_nil_r. apply submitted_of_nonempty.
Qed.

(** X26. The file [stopRecording] writes and the reader of
    [executeScriptText] fit together for lines without a newline: running
    the written text as a script submits the recorded lines in order, each
    trimmed, except those that look like comments, which the script reader
    skips although they were recorded and are replayed from memory. *)
Theorem macro_file_round_trip (commands : list QString) :
  Forall (fun line => contains_char newline_char line = false) commands ->
  split_SkipEmptyParts newline_char (written_lines commands) =
    List.filter (fun p => negb (isEmpty p)) commands /\
  submitted_lines (written_lines commands) =
    List.filter (fun l => negb (skipped l)) (List.map trimmed commands).
Proof.
  intros H.
  assert (E : split_SkipEmptyParts newline_char (written_lines commands) =
              List.filter (fun p => negb (isEmpty p)) commands).
  { unfold split_SkipEmptyParts. rewrite split_on_written_lines by exact H.
    rewrite List.filter_app. simpl. now rewrite app_nil_r. }
  split; [exact E|]. unfold submitted_lines. rewrite E. apply submitted_of_nonempty.
Qed.

Lemma macro_file_round_trip_witness :
  split_SkipEmptyParts newline_char
    (written_lines ["line 0,0 5,5"; "  circle 3 "; "; note"]) =
    ["line 0,0 5,5"; "  circle 3 "; "; note"] /\
  submitted_lines (written_lines ["line 0,0 5,5"; "  circle 3 "; "; note"]) =
    ["line 0,0 5,5"; "circle 3"].
Proof.
  apply (macro_file_round_trip ["line 0,0 5,5"; "  circle 3 "; "; note"]).
  repeat constructor.
Defined.

Lemma macro_file_spellings (appDataLocation macroName : QString) :
  (appDataLocation +:+ "/macros") +:+ "/" +:+ macroName +:+ ".scr" =
  macro_file appDataLocation macroName.
Proof. unfold macro_file. now rewrite append_assoc. Qed.

Lemma stopRecording_saves {World : Type} (appDataLocation : QString)
    (can_write : QString -> bool) (m : MacroSession World) c cs :
  m_recording (manager m) = true ->
  m_recordedCommands (manager m) = c :: cs ->
  let m' := stopRecording appDataLocation can_write m in
  m_macros m' = <[m_currentMacroName m := c :: cs]> (m_macros m) /\
  files m' =
    (if can_write (macro_file appDataLocation (m_currentMacroName m))
     then <[macro_file appDataLocation (m_currentMacroName m) :=
              written_lines (c :: cs)]> (files m)
     else files m) /\
  m_recording (manager m') = false /\
  m_recordedCommands (manager m') = [] /\
  m_currentMacroName m' = EmptyString /\
  macro_log m' = macro_log m.
Proof.
  intros Hrec Hbuf. unfold stopRecording. rewrite Hrec, Hbuf. cbn [negb].
  cbn [m_currentMacroName set_m_macros]. rewrite macro_file_spellings.
  destruct (can_write (macro_file appDataLocation (m_currentMacroName m))); cbn;
    rewrite ?Hbuf; repeat split; reflexivity.
Qed.

(** X27. A line submitted between [startRecording] and [stopRecording] ends
    up in the macro: when the submission returns, [stopRecording] stores
    under the macro's name a list that starts with the raw line, writes the
    same list to the macro's file when the file can be opened and leaves the
    files alone when it cannot, and leaves the engine not recording, with an
    empty buffer and no current macro name. *)
Theorem recorded_line_becomes_macro {World : Type} (appDataLocation : QString)
    (can_write : QString -> bool) (fuel : nat) (macroName commandLine : QString)
    (m : MacroSession World) (ok : bool) (s2 : CommandManager World) :
  let m1 := startRecording appDataLocation can_write macroName m in
  isEmpty (trimmed commandLine) = false ->
  executeCommand (S fuel) commandLine (manager m1) = Returned ok s2 ->
  let m2 := stopRecording appDataLocation can_write (set_manager s2 m1) in
  exists tail,
    m_macros m2 !! macroName = Some (commandLine :: tail) /\
    (if can_write (macro_file appDataLocation macroName)
     then files m2 = <[macro_file appDataLocation macroName :=
                         written_lines (commandLine :: tail)]> (files m1)
     else files m2 = files m1) /\
    m_recording (manager m2) = false /\
    m_recordedCommands (manager m2) = [] /\
    m_currentMacroName m2 = EmptyString.
Proof.
  intros m1 Hline Hexec m2.
  assert (Hrec1 : m_recording (manager m1) = true) by reflexivity.
  assert (Hbuf1 : m_recordedCommands (manager m1) = []) by reflexivity.
  assert (Hname1 : m_currentMacroName m1 = macroName) by reflexivity.
  clearbody m1.
  destruct (recording_appends_line fuel commandLine (manager m1) Hrec1 Hline)
    as [tail Htail].
  pose proof (same_settings_executeCommand (S fuel) commandLine (manager m1))
    as (_ & _ & _ & _ & Hrec2).
  rewrite Hexec in Htail, Hrec2. cbn [state_of] in Htail, Hrec2.
  rewrite Hbuf1 in Htail. rewrite Hrec1 in Hrec2. cbn [app] in Htail.
  destruct (stopRecording_saves appDataLocation can_write (set_manager s2 m1)
              commandLine tail Hrec2 Htail) as (Hm & Hf & Hr & Hb & Hn & _).
  fold m2 in Hm, Hf, Hr, Hb, Hn. clearbody m2.
  cbn [set_manager m_currentMacroName m_macros files] in Hm, Hf.
  rewrite Hname1 in Hm, Hf.
  exists tail. rewrite Hm, lookup_insert_eq.
  split; [reflexivity|]. split; [|now repeat split].
  now destruct (can_write (macro_file appDataLocation macroName)).
Qed.

Lemma recorded_line_becomes_macro_witness :
  let m1 := startRecording "/data" (fun _ => true) "m"
              (MacroSession_new ([] : Sample.Trace) ∅) in
  let s2 := state_of (executeCommand 3 "undo" (manager m1)) in
  let m2 := stopRecording "/data" (fun _ => true) (set_manager s2 m1) in
  isEmpty (trimmed "undo") = false /\
  executeCommand 3 "undo" (manager m1) = Returned true s2 /\
  exists tail,
    m_macros m2 !! "m" = Some ("undo" :: tail) /\
    (if (fun _ : QString => true) (macro_file "/data" "m")
     then files m2 = <[macro_file "/data" "m" := written_lines ("undo" :: tail)]> (files m1)
     else files m2 = files m1) /\
    m_recording (manager m2) = false /\
    m_recordedCommands (manager m2) = [] /\
    m_currentMacroName m2 = EmptyString.
Proof.
  intros m1 s2 m2.
  assert (Hline : isEmpty (trimmed "undo") = false) by reflexivity.
  assert (Hexec : executeCommand 3 "undo" (manager m1) = Returned true s2)
    by (vm_compute; reflexivity).
  split; [exact Hline|]. split; [exact Hexec|].
  exact (recorded_line_becomes_macro "/data" (fun _ => true) 2 "m" "undo"
           (MacroSession_new ([] : Sample.Trace) ∅) true s2 Hline Hexec).
Defined.

(** X28. The edges of recording.  [stopRecording] with nothing recorded
    stores no macro and writes no file, so a macro of that name recorded
    before is kept.  [startRecording] while a recording is active logs a
    warning and stops that recording first: what was recorded so far is
    stored under the previous name, and the new recording starts empty.
    [stopRecording] when nothing is being recorded only logs a warning. *)
Theorem recording_edges {World : Type} (appDataLocation : QString)
    (can_write : QString -> bool) (m : MacroSession World) :
  (m_recording (manager m) = true -> m_recordedCommands (manager m) = [] ->
   let m' := stopRecording appDataLocation can_write m in
   m_macros m' = m_macros m /\ files m' = files m /\
   macro_log m' = macro_log m /\
   m_recording (manager m') = false /\ m_currentMacroName m' = EmptyString) /\
  (forall c cs macroName,
   m_recording (manager m) = true -> m_recordedCommands (manager m) = c :: cs ->
   let m' := startRecording appDataLocation can_write macroName m in
   m_macros m' = <[m_currentMacroName m := c :: cs]> (m_macros m) /\
   macro_log m' = macro_log m ++ [AlreadyRecording (m_currentMacroName m)] /\
   m_recording (manager m') = true /\ m_recordedCommands (manager m') = [] /\
   m_currentMacroName m' = macroName) /\
  (m_recording (manager m) = false ->
   stopRecording appDataLocation can_write m = macro_warn NotRecording m).
Proof.
  split; [|split].
  - intros Hrec Hbuf. unfold stopRecording. rewrite Hrec, Hbuf. cbn.
    repeat split; reflexivity.
  - intros c cs macroName Hrec Hbuf m'.
    destruct (stopRecording_saves appDataLocation can_write
                (macro_warn (AlreadyRecording (m_currentMacroName m)) m) c cs Hrec Hbuf)
      as (Hm & _ & _ & _ & _ & Hl).
    subst m'. unfold startRecording. rewrite Hrec.
    cbn [m_macros set_manager set_m_currentMacroName macro_log manager
         m_recording m_recordedCommands set_m_recording set_m_recordedCommands
         m_currentMacroName].
    rewrite Hm, Hl. repeat split; reflexivity.
  - intros Hrec. unfold stopRecording. now rewrite Hrec.
Qed.

Lemma recording_edges_witness :
  let idle := MacroSession_new ([] : Sample.Trace) ∅ in
  let started := startRecording "/data" (fun _ => false) "first" idle in
  let m := set_manager (set_m_recordedCommands ["line 0,0 1,1"] (manager started))
             started in
  (let m' := stopRecording "/data" (fun _ => false) started in
   m_macros m' = m_macros started /\ files m' = files started /\
   macro_log m' = macro_log started /\
   m_recording (manager m') = false /\ m_currentMacroName m' = EmptyString) /\
  (let m' := startRecording "/data" (fun _ => false) "second" m in
   m_macros m' = <[m_currentMacroName m := ["line 0,0 1,1"]]> (m_macros m) /\
   macro_log m' = macro_log m ++ [AlreadyRecording (m_currentMacroName m)] /\
   m_recording (manager m') = true /\ m_recordedCommands (manager m') = [] /\
   m_currentMacroName m' = "second") /\
  stopRecording "/data" (fun _ => false) idle = macro_warn NotRecording idle.
Proof.
  intros idle started m. split; [|split].
  - exact (proj1 (recording_edges "/data" (fun _ => false) started) eq_refl eq_refl).
  - exact (proj1 (proj2 (recording_edges "/data" (fun _ => false) m))
             "line 0,0 1,1" [] "second" eq_refl eq_refl).
  - exact (proj2 (proj2 (recording_edges "/data" (fun _ => false) idle)) eq_refl).
Defined.

Lemma session_of_in_session {World A : Type} (m : MacroSession World)
    (o : Outcome World A) :
  session_of (in_session m o) = set_manager (state_of o) m.
Proof. now destruct o. Qed.

Lemma session_of_dropping_result {World A : Type} (o : SessionOutcome World A) :
  session_of (dropping_result o) = session_of o.
Proof. now destruct o. Qed.

Lemma read_as_text_app (a b : QString) :
  read_as_text (a +:+ b) = read_as_text a +:+ read_as_text b.
Proof.
  induction a as [|x a IH]; [reflexivity|].
  rewrite append_cons. cbn [read_as_text].
  destruct (Ascii.eqb x carriage_return); [exact IH|].
  now rewrite append_cons, IH.
Qed.

(** Reading the written text back gives each line without its carriage
    returns, and the line ends are kept. *)
Lemma read_as_text_written_lines (commands : list QString) :
  read_as_text (written_lines commands) =
  written_lines (List.map read_as_text commands).
Proof.
  induction commands as [|command rest IH]; [reflexivity|].
  cbn [written_lines List.map]. rewrite read_as_text_app.
  cbn [read_as_text]. change (Ascii.eqb newline_char carriage_return) with false.
  cbv iota. now rewrite IH.
Qed.

Lemma read_as_text_keeps_newlines (line : QString) :
  contains_char newline_char (read_as_text line) = contains_char newline_char line.
Proof.
  induction line as [|x line IH]; [reflexivity|].
  cbn [read_as_text contains_char].
  destruct (Ascii.eqb x carriage_return) eqn:E.
  - apply Ascii.eqb_eq in E. subst x. rewrite IH. reflexivity.
  - cbn [contains_char]. now rewrite IH.
Qed.

(** X29. A macro stopped with a readable, writable file is replayed in two
    ways.  The session that recorded it has it in memory: [playMacro] opens
    the group [Macro: name], submits the recorded lines as they are, and
    ends the group.  A session that has the files but not the macro in
    memory, as after a restart, finds the file under the path
    [stopRecording] wrote, and runs the text read from it as a script: in
    the group [Script Execution], with the carriage returns removed from the
    lines, the lines trimmed, and the lines that look like comments left
    out.  In both ways a submission that faults, as that of every line
    whose command executes does, or that is left by an exception, ends the
    replay there, with the group still open. *)
Theorem macro_replayed_from_memory_or_file {World : Type} (appDataLocation : QString)
    (can_write can_read : QString -> bool) (fuel : nat) (m : MacroSession World)
    (c : QString) (cs : list QString) :
  m_recording (manager m) = true ->
  m_recordedCommands (manager m) = c :: cs ->
  can_write (macro_file appDataLocation (m_currentMacroName m)) = true ->
  can_read (macro_file appDataLocation (m_currentMacroName m)) = true ->
  Forall (fun line => contains_char newline_char line = false) (c :: cs) ->
  let macroName := m_currentMacroName m in
  let m1 := stopRecording appDataLocation can_write m in
  playMacro appDataLocation can_read fuel macroName m1 =
    in_session m1
      (bind (play_loop fuel (c :: cs)
               (beginGroup ("Macro: " +:+ macroName) (manager m1)))
         (fun _ s => Returned tt (endGroup s))) /\
  forall m2 : MacroSession World,
    files m2 = files m1 -> m_macros m2 !! macroName = None ->
    playMacro appDataLocation can_read fuel macroName m2 =
      dropping_result
        (in_session m2
           (bind (submit_each fuel
                    (List.filter (fun l => negb (skipped l))
                       (List.map trimmed (List.map read_as_text (c :: cs))))
                    (beginGroup "Script Execution" (manager m2)))
              (fun oks s => Returned (forallb id oks) (endGroup s)))).
Proof.
  intros Hrec Hbuf Hw Hr Hnl macroName m1.
  destruct (stopRecording_saves appDataLocation can_write m c cs Hrec Hbuf)
    as (Hm & Hf & _).
  fold m1 in Hm, Hf. fold macroName in Hm, Hf, Hw, Hr. rewrite Hw in Hf.
  clearbody m1 macroName. split.
  - unfold playMacro. rewrite Hm, lookup_insert_eq. reflexivity.
  - intros m2 Hfiles Hnone. unfold playMacro. rewrite Hnone.
    fold (macro_file appDataLocation macroName).
    assert (Hfile : files m2 !! macro_file appDataLocation macroName =
                    Some (written_lines (c :: cs)))
      by (rewrite Hfiles, Hf; apply lookup_insert_eq).
    rewrite Hfile. unfold executeScript. rewrite Hfile, Hr. cbn [negb]. cbv zeta.
    rewrite executeScriptText_submits_each, read_as_text_written_lines.
    rewrite submitted_written_lines; [reflexivity|].
    apply List.Forall_map. revert Hnl. apply List.Forall_impl.
    intros line Hline. now rewrite read_as_text_keeps_newlines.
Qed.

Lemma macro_replayed_from_memory_or_file_witness :
  let started := startRecording "/data" (fun _ => true) "m"
                   (MacroSession_new ([] : Sample.Trace) ∅) in
  let redo_cr := "re" +:+ String carriage_return "do" in
  let m := set_manager
             (set_m_recordedCommands ["  undo "; "; note"; redo_cr] (manager started))
             started in
  let m1 := stopRecording "/data" (fun _ => true) m in
  playMacro "/data" (fun _ => true) 3 "m" m1 =
    in_session m1
      (bind (play_loop 3 ["  undo "; "; note"; redo_cr]
               (beginGroup ("Macro: " +:+ "m") (manager m1)))
         (fun _ s => Returned tt (endGroup s))) /\
  forall m2 : MacroSession Sample.Trace,
    files m2 = files m1 -> m_macros m2 !! "m" = None ->
    playMacro "/data" (fun _ => true) 3 "m" m2 =
      dropping_result
        (in_session m2
           (bind (submit_each 3
                    (List.filter (fun l => negb (skipped l))
                       (List.map trimmed
                          (List.map read_as_text ["  undo "; "; note"; redo_cr])))
                    (beginGroup "Script Execution" (manager m2)))
              (fun oks s => Returned (forallb id oks) (endGroup s)))).
Proof.
  intros started redo_cr m m1.
  apply (macro_replayed_from_memory_or_file "/data" (fun _ => true) (fun _ => true) 3 m
           "  undo " ["; note"; redo_cr]); try reflexivity.
  repeat constructor.
Defined.

Ltac settings_step :=
  intros;
  first [ apply same_settings_announced
        | eapply same_settings_trans; eassumption
        | apply same_settings_of_untouched;
          first [ apply untouched_refl | apply untouched_undo | apply untouched_redo
                | apply untouched_warn | apply untouched_emit
                | apply untouched_executeCommand_cmd
                | apply untouched_beginGroup | apply untouched_endGroup ] ].

Ltac recording_step :=
  intros;
  first [ apply recording_kept_announced
        | eapply recording_kept_trans; eassumption
        | apply recording_kept_of_untouched;
          first [ apply untouched_refl | apply untouched_undo | apply untouched_redo
                | apply untouched_warn | apply untouched_emit
                | apply untouched_executeCommand_cmd
                | apply untouched_beginGroup | apply untouched_endGroup ] ].

(** X30. Replaying never touches what was recorded: whatever the outcome,
    [playMacro] and [executeScript] leave the macros in memory, the files
    and the current macro name as they were, and the engine with the same
    registry, aliases and settings; the recording buffer is only appended
    to.  They write to the warning log only when they return without
    having submitted anything, and [playMacro] never reports a missing
    script file, since it looks for the file before it calls
    [executeScript]. *)
Theorem replay_keeps_macros_and_settings {World : Type} (appDataLocation : QString)
    (can_read : QString -> bool) (fuel : nat) (name : QString)
    (m : MacroSession World) :
  let played := session_of (playMacro appDataLocation can_read fuel name m) in
  let ran := session_of (executeScript can_read fuel name m) in
  (same_macros m played /\ same_macros m ran) /\
  (same_settings (manager m) (manager played) /\
   same_settings (manager m) (manager ran)) /\
  (recording_kept (manager m) (manager played) /\
   recording_kept (manager m) (manager ran)) /\
  (macro_log played = macro_log m \/
   played = macro_warn (MacroNotFound name) m \/
   played = macro_warn (ScriptUnreadable (macro_file appDataLocation name)) m) /\
  (macro_log ran = macro_log m \/
   ran = macro_warn (ScriptMissing name) m \/
   ran = macro_warn (ScriptUnreadable name) m).
Proof.
  assert (Hscript : forall path,
    let ran := session_of (executeScript can_read fuel path m) in
    same_macros m ran /\ same_settings (manager m) (manager ran) /\
    recording_kept (manager m) (manager ran) /\
    (macro_log ran = macro_log m \/
     ran = macro_warn (ScriptMissing path) m \/
     ran = macro_warn (ScriptUnreadable path) m)).
  { intros path. unfold executeScript.
    destruct (files m !! path) as [text|]; [destruct (can_read path)|]; cbn [negb].
    - rewrite session_of_in_session. cbn [manager set_manager macro_log].
      split; [now repeat split|]. split; [|split; [|now left]].
      + apply (through_executeScriptText same_settings); settings_step.
      + apply (through_executeScriptText recording_kept); recording_step.
    - cbn. split; [now repeat split|]. split; [|split; [|now right; right]].
      + apply same_settings_of_untouched, untouched_refl.
      + apply recording_kept_of_untouched, untouched_refl.
    - cbn. split; [now repeat split|]. split; [|split; [|now right; left]].
      + apply same_settings_of_untouched, untouched_refl.
      + apply recording_kept_of_untouched, untouched_refl. }
  assert (Hplay :
    let played := session_of (playMacro appDataLocation can_read fuel name m) in
    same_macros m played /\ same_settings (manager m) (manager played) /\
    recording_kept (manager m) (manager played) /\
    (macro_log played = macro_log m \/
     played = macro_warn (MacroNotFound name) m \/
     played = macro_warn (ScriptUnreadable (macro_file appDataLocation name)) m)).
  { unfold playMacro. fold (macro_file appDataLocation name).
    destruct (m_macros m !! name) as [commands|].
    - rewrite session_of_in_session. cbn [manager set_manager macro_log].
      split; [now repeat split|]. split; [|split; [|now left]].
      + apply (through_replay same_settings); settings_step.
      + apply (through_replay recording_kept); recording_step.
    - destruct (files m !! macro_file appDataLocation name) as [text|] eqn:Hfile.
      + fold (dropping_result
                (executeScript can_read fuel (macro_file appDataLocation name) m)).
        rewrite session_of_dropping_result.
        destruct (Hscript (macro_file appDataLocation name)) as (H1 & H2 & H3 & H4).
        split; [exact H1|]. split; [exact H2|]. split; [exact H3|].
        destruct H4 as [H4|[H4|H4]]; [now left| |now right; right].
        exfalso. revert H4. unfold executeScript. rewrite Hfile.
        destruct (can_read _); cbn [negb].
        * rewrite session_of_in_session. intros E.
          apply (f_equal macro_log) in E. cbn in E.
          apply (f_equal (@length _)) in E. rewrite length_app in E. cbn in E. lia.
        * cbn. intros E. apply (f_equal macro_log) in E. cbn in E.
          apply app_inv_head in E. discriminate.
      + cbn. split; [now repeat split|]. split; [|split; [|now right; left]].
        * apply same_settings_of_untouched, untouched_refl.
        * apply recording_kept_of_untouched, untouched_refl. }
  intros played ran. destruct (Hscript name) as (A1 & A2 & A3 & A4).
  destruct Hplay as (B1 & B2 & B3 & B4).
  exact (conj (conj B1 A1) (conj (conj B2 A2) (conj (conj B3 A3) (conj B4 A4)))).
Qed.
